(** * CTB2Dep: phrase-structure trees to dependency relations

    A shallow embedding of [convertor.py] and of the script [main.py],
    and the properties of the head-percolation pipeline:

      raw tree -> [_preprosess] -> [Convertor.__mark_heads]
               -> [_get_relations] -> [Convertor.__parse] -> [Convertor.convert]

    The nltk [ParentedTree] is a Python list of children carrying a label;
    a child is either another tree or a plain object (a [str] token, or the
    [int] that preprocessing writes in its place).  Exceptions are modelled
    by the [result] type, dictionaries by [gmap].

    The functions are embedded twice: on values, where the relations are
    studied, and over a store of objects, where [copy(deep=True)] and the
    writes into labels and children are explicit.  The second embedding
    is shown to compute what the first computes.

    Contents: the functions on values; the functions over a store; the
    script; the vocabulary of the properties; the properties, from
    strings and rule files to head marking, relation extraction and the
    store; further properties of the same functions: leaves, the
    exceptions of each step, the order and the shape of the relations,
    the text of the output, and the script. *)

From Stdlib Require Import Ascii String DecimalString DecimalNat Sorted Permutation.
From stdpp Require Import gmap strings list sorting.

(** ** Python exceptions *)

Inductive exn : Type :=
| AttributeError   (* [.label()] on a [str] or an [int] *)
| IndexError       (* [l[0]] or [l[-1]] on an empty list *)
| ValueError       (* tuple unpacking of the wrong length, [int()] of a non-number *)
| StopIteration    (* [next()] on an exhausted generator *)
| NotModelled.     (* [str()] of an nltk tree, whose layout is not embedded *)

Inductive result (A : Type) : Type :=
| Ok (a : A)
| Raise (e : exn).
Arguments Ok {A} a.
Arguments Raise {A} e.

Definition bind {A B} (m : result A) (k : A -> result B) : result B :=
  match m with
  | Ok a => k a
  | Raise e => Raise e
  end.

Notation "x <- m ;; k" := (bind m (fun x => k))
  (at level 100, m at next level, right associativity).

Definition is_ok {A} (m : result A) : bool :=
  match m with Ok _ => true | Raise _ => false end.

(** [[f(x) for x in l]], stopping at the first exception. *)
Definition mapM {A B} (f : A -> result B) : list A -> result (list B) :=
  fix go l :=
    match l with
    | [] => Ok []
    | x :: l' => y <- f x ;; ys <- go l' ;; Ok (y :: ys)
    end.

(** A [for] loop threading an accumulator. *)
Definition foldM {A S} (f : S -> A -> result S) : S -> list A -> result S :=
  fix go s l :=
    match l with
    | [] => Ok s
    | x :: l' => s' <- f s x ;; go s' l'
    end.

(** [l[0]] and [l[-1]]. *)
Definition item0 {A} (l : list A) : result A :=
  match l with
  | [] => Raise IndexError
  | x :: _ => Ok x
  end.

Definition item_last {A} (l : list A) : result A :=
  match last l with
  | None => Raise IndexError
  | Some x => Ok x
  end.

(** ** Python strings

    A [str] is embedded as the bytes of its UTF-8 encoding. The
    separators that the code names ([':'], [';'], ['-'], ['|'], ['#'],
    the tab and the line end) are single bytes that are part of no other
    character, so that cutting the bytes at them cuts the text; the
    blanks at which [str.split()] cuts are characters of one to three
    bytes. *)

(** [c in s] for a one-character [c]. *)
Fixpoint contains (c : ascii) (s : string) : bool :=
  match s with
  | EmptyString => false
  | String a s' => Ascii.eqb a c || contains c s'
  end.

(** [s.split(sep)] for a one-character separator: never empty, one more
    piece than there are separators. *)
Fixpoint split_on (sep : ascii) (s : string) : list string :=
  match s with
  | EmptyString => [EmptyString]
  | String a s' =>
      if Ascii.eqb a sep then EmptyString :: split_on sep s'
      else match split_on sep s' with
           | [] => [String a EmptyString]
           | w :: ws => String a w :: ws
           end
  end.

(** The blanks are the characters for which [str.isspace] holds, here
    by the bytes of their encoding:

      one byte                    U+0009 - U+000D, U+001C - U+0020
      [C2 85], [C2 A0]            U+0085, U+00A0
      [E1 9A 80]                  U+1680
      [E2 80 80] - [E2 80 8A]     U+2000 - U+200A
      [E2 80 A8], [E2 80 A9]      U+2028, U+2029
      [E2 80 AF], [E2 81 9F]      U+202F, U+205F
      [E3 80 80]                  U+3000 *)
Definition blank1 (x : nat) : bool :=
  (9 <=? x) && (x <=? 13) || (28 <=? x) && (x <=? 32).

Definition blank2 (x y : nat) : bool :=
  (x =? 194) && ((y =? 133) || (y =? 160)).

Definition blank3 (x y z : nat) : bool :=
  (x =? 225) && (y =? 154) && (z =? 128)
  || (x =? 226) && (y =? 128) &&
     ((128 <=? z) && (z <=? 138) || (z =? 168) || (z =? 169) || (z =? 175))
  || (x =? 226) && (y =? 129) && (z =? 159)
  || (x =? 227) && (y =? 128) && (z =? 128).

(** The number of bytes of the blank with which [s] starts; 0 when [s]
    does not start with a blank. *)
Definition blank_len (s : string) : nat :=
  match s with
  | EmptyString => 0
  | String a s1 =>
      if blank1 (nat_of_ascii a) then 1
      else
        match s1 with
        | EmptyString => 0
        | String b s2 =>
            if blank2 (nat_of_ascii a) (nat_of_ascii b) then 2
            else
              match s2 with
              | EmptyString => 0
              | String c _ =>
                  if blank3 (nat_of_ascii a) (nat_of_ascii b) (nat_of_ascii c)
                  then 3 else 0
              end
        end
  end.

(** [s.split()]: the maximal runs of characters that are no blanks. The
    auxiliary function returns the word that starts at the head of [s]
    (empty when [s] starts with a blank) and the words after it; [skip]
    counts the bytes at the head of [s] that still belong to a blank
    that started before. *)
Fixpoint split_ws_aux (s : string) (skip : nat) : string * list string :=
  match s with
  | EmptyString => (EmptyString, [])
  | String a s' =>
      match (match skip with 0 => blank_len (String a s') | S _ => skip end) with
      | 0 =>
          let '(w, ws) := split_ws_aux s' 0 in
          (String a w, ws)
      | S n =>
          let '(w, ws) := split_ws_aux s' n in
          (EmptyString, match w with EmptyString => ws | _ => w :: ws end)
      end
  end.

Definition split_ws (s : string) : list string :=
  let '(w, ws) := split_ws_aux s 0 in
  match w with EmptyString => ws | _ => w :: ws end.

(** [str(n)] for a non-negative [int]. *)
Definition str_of_int (n : nat) : string :=
  NilZero.string_of_uint (Nat.to_uint n).

(** [int(s)] on strings of ASCII decimal digits; anything else raises.
    (Python also accepts a sign, surrounding blanks and underscores; the
    pipeline only ever builds digit strings with [str_of_int].) *)
Definition int_of_str (s : string) : result nat :=
  match NilZero.uint_of_string s with
  | Some d => Ok (Nat.of_uint d)
  | None => Raise ValueError
  end.

(** ['{}|{}'.format(index, label)] *)
Definition head_label (index label : string) : string :=
  index +:+ "|" +:+ label.

(** [label.split('|')[0]]: the head index a marked label carries. *)
Definition label_index (label : string) : result string :=
  item0 (split_on "|"%char label).

(** ** Trees *)

#[local] Set Warnings "-register-all".

Inductive pyval : Type :=
| PStr (s : string)
| PInt (n : nat).

(** A [ParentedTree] is [Tree label children]; a child that is not a tree
    is [Tok v]. *)
Inductive tree : Type :=
| Tok (v : pyval)
| Tree (label : string) (children : list tree).

(** [tree.label()] *)
Definition label_of (t : tree) : result string :=
  match t with
  | Tok _ => Raise AttributeError
  | Tree l _ => Ok l
  end.

(** [Tree.height]: a non-tree child counts 1, a tree one more than its
    highest child. *)
Fixpoint height (t : tree) : nat :=
  match t with
  | Tok _ => 1
  | Tree _ ks => S (max_list (map height ks))
  end.

Definition _is_leaf (t : tree) : bool := height t =? 2.

(** [str(x)] as used by [format]. *)
Definition str_of (t : tree) : result string :=
  match t with
  | Tok (PStr s) => Ok s
  | Tok (PInt n) => Ok (str_of_int n)
  | Tree _ _ => Raise NotModelled
  end.

(** ** Head rules *)

Record rule : Type := Rule { direction : string; tags : list string }.

Abbreviation table := (gmap string (list rule)).

Definition sub_rule_of (ws : list string) : result rule :=
  d <- item0 ws ;; Ok (Rule d (tail ws)).

(** One iteration of the loop of [_load_head_rules]. *)
Definition load_line (rules : table) (line : string) : result table :=
  match split_on ":"%char line with
  | [tag; rule] =>
      rs <- mapM sub_rule_of (map split_ws (split_on ";"%char rule)) ;;
      Ok (<[tag := rs]> rules)
  | _ => Raise ValueError
  end.

(** The file is given as the list of its lines. *)
Definition _load_head_rules (lines : list string) : result table :=
  foldM load_line ∅ lines.

(** ** Preprocessing *)

(** The label up to its first ['-'], when it has one. *)
Definition clean (label : string) : result string :=
  if contains "-"%char label then item0 (split_on "-"%char label) else Ok label.

(** [for subtree in tree: for _item in __iterate(subtree, index): ...]:
    each subtree starts at the current [index], which has advanced by one
    for every item the earlier subtrees yielded. *)
Definition preprosess_loop {X} (iterate : tree -> nat -> result (tree * list X))
  : list tree -> nat -> result (list tree * list X) :=
  fix loop ks index :=
    match ks with
    | [] => Ok ([], [])
    | k :: ks' =>
        r <- iterate k index ;;
        rs <- loop ks' (index + length r.2) ;;
        Ok (r.1 :: rs.1, r.2 ++ rs.2)
    end.

(** The generator [__iterate] of [_preprosess], run to its end: the tree
    as it has been rewritten in place and the items yielded. *)
Fixpoint preprosess_iterate (t : tree) (index : nat)
  : result (tree * list (string * tree)) :=
  match t with
  | Tok _ => Raise AttributeError
  | Tree label ks =>
      label' <- clean label ;;
      if _is_leaf t then
        tok <- item0 ks ;;
        Ok (Tree label' (<[0 := Tok (PInt index)]> ks), [(label', tok)])
      else
        r <- preprosess_loop preprosess_iterate ks index ;;
        Ok (Tree label' r.1, r.2)
  end.

Definition _preprosess (root : tree) : result (tree * list (string * tree)) :=
  preprosess_iterate root 1.

(** ** Relation extraction *)

(** A relation [(index, parent_index)]: the index is the string cut from a
    label, the parent index another such string or the [int] 0. *)
Definition relation : Type := string * pyval.

(** The body of [for subtree in tree: ...] in [__iterate] of
    [_get_relations]; [iterate] is the recursive call. *)
Definition relations_of_child (iterate : tree -> result (list relation))
    (parent_index : string) (subtree : tree) : result (list relation) :=
  l <- label_of subtree ;;
  index <- label_index l ;;
  sub <- iterate subtree ;;
  Ok ((if String.eqb index parent_index then []
       else [(index, PStr parent_index)]) ++ sub).

(** The generator [__iterate] of [_get_relations]; [is_root] is
    [not tree.parent()]. *)
Fixpoint get_relations_iterate (is_root : bool) (t : tree) : result (list relation) :=
  match t with
  | Tok _ => Raise AttributeError
  | Tree label ks =>
      parent_index <- label_index label ;;
      let root_rel := if is_root then [(parent_index, PInt 0)] else [] in
      if _is_leaf t then Ok root_rel
      else
        rs <- mapM (relations_of_child (get_relations_iterate false) parent_index) ks ;;
        Ok (root_rel ++ concat rs)
  end.

(** [sorted(..., key=...)] on elements paired with their keys: a stable
    sort, here by insertion. *)
Fixpoint insert_keyed {A} (x : nat * A) (l : list (nat * A)) : list (nat * A) :=
  match l with
  | [] => [x]
  | y :: l' => if x.1 <=? y.1 then x :: y :: l' else y :: insert_keyed x l'
  end.

Definition sort_keyed {A} (l : list (nat * A)) : list (nat * A) :=
  foldr insert_keyed [] l.

Definition _get_relations (root : tree) : result (list relation) :=
  rels <- get_relations_iterate true root ;;
  keys <- mapM (fun r : relation => int_of_str r.1) rels ;;
  Ok (map snd (sort_keyed (zip keys rels))).

(** ** The convertor *)

Module Convertor.

(** [sub_labels] of one rule: the children's labels split at ['|'],
    reversed for direction ['r']. *)
Definition sub_labels_of (r : rule) (ks : list tree) : result (list (list string)) :=
  ls <- mapM (fun t => l <- label_of t ;; Ok (split_on "|"%char l)) ks ;;
  Ok (if String.eqb (direction r) "r" then rev ls else ls).

(** [for _i, _tag in ...]: each element must have exactly two parts. *)
Definition unpack2 (l : list string) : result (string * string) :=
  match l with
  | [i; tag] => Ok (i, tag)
  | _ => Raise ValueError
  end.

(** [next(_i for _i, _tag in sub_labels if tag == _tag)] *)
Fixpoint next_index (tag : string) (sub_labels : list (list string)) : result string :=
  match sub_labels with
  | [] => Raise StopIteration
  | sl :: rest =>
      p <- unpack2 sl ;;
      if String.eqb tag p.2 then Ok p.1 else next_index tag rest
  end.

(** [for tag in rule['tags']: ...]; [None] when the loop ends without a
    [return]. *)
Fixpoint try_tags (tags : list string) (sub_labels : list (list string))
  : result (option string) :=
  match tags with
  | [] => Ok None
  | tag :: tags' =>
      pairs <- mapM unpack2 sub_labels ;;
      if bool_decide (tag ∈ map snd pairs)
      then index <- next_index tag sub_labels ;; Ok (Some index)
      else try_tags tags' sub_labels
  end.

(** [for rule in self.head_rules[label]: ...]; [None] when no rule
    returns. *)
Fixpoint try_rules (rules : list rule) (ks : list tree) : result (option string) :=
  match rules with
  | [] => Ok None
  | r :: rules' =>
      sub_labels <- sub_labels_of r ks ;;
      match tags r with
      | [] =>
          sl <- item0 sub_labels ;;
          index <- item0 sl ;;
          Ok (Some index)
      | _ =>
          o <- try_tags (tags r) sub_labels ;;
          match o with
          | Some index => Ok (Some index)
          | None => try_rules rules' ks
          end
      end
  end.

(** The head index chosen for a phrase labelled [label] whose children
    [ks] have been marked; [None] when the function falls off its end
    without setting a label. *)
Definition select_head (head_rules : table) (label : string) (ks : list tree)
  : result (option string) :=
  match head_rules !! label with
  | None =>
      c <- item_last ks ;;
      l <- label_of c ;;
      index <- label_index l ;;
      Ok (Some index)
  | Some rules => try_rules rules ks
  end.

(** [__iterate] of [__mark_heads]. *)
Fixpoint mark_heads_iterate (head_rules : table) (t : tree) : result tree :=
  match t with
  | Tok _ => Raise AttributeError
  | Tree label ks =>
      if _is_leaf t then
        tok <- item0 ks ;;
        s <- str_of tok ;;
        Ok (Tree (head_label s label) ks)
      else
        ks' <- mapM (mark_heads_iterate head_rules) ks ;;
        o <- select_head head_rules label ks' ;;
        match o with
        | Some index => Ok (Tree (head_label index label) ks')
        | None => Ok (Tree label ks')
        end
  end.

Definition __mark_heads (head_rules : table) (root : tree) : result tree :=
  mark_heads_iterate head_rules root.

Definition __parse (head_rules : table) (tree0 : tree)
  : result (list (string * tree * string * pyval)) :=
  r <- _preprosess tree0 ;;
  tree2 <- __mark_heads head_rules r.1 ;;
  relations <- _get_relations tree2 ;;
  Ok (map (fun x : (string * tree) * relation => (x.2.1, x.1.2, x.1.1, x.2.2))
          (zip r.2 relations)).

Definition tab : string := String (ascii_of_nat 9) EmptyString.
Definition newline : string := String (ascii_of_nat 10) EmptyString.

Definition str_of_pyval (v : pyval) : string :=
  match v with
  | PStr s => s
  | PInt n => str_of_int n
  end.

(** One output row; the fields are index, token, tag and parent. *)
Definition format_row (args : string * tree * string * pyval) : result string :=
  value <- str_of args.1.1.2 ;;
  Ok (String.concat tab
        [args.1.1.1; value; "_"; "_"; args.1.2; "_"; str_of_pyval args.2; "X"; "_"; "_"]).

(** [convert] after [ParentedTree.fromstring]. *)
Definition convert (head_rules : table) (tree0 : tree) : result string :=
  relations <- __parse head_rules tree0 ;;
  lines <- mapM format_row relations ;;
  Ok (String.concat newline lines +:+ newline).

End Convertor.

(** * The same functions over a store of objects

    The properties of the relations only need the values the functions
    compute. That the caller's tree is left alone is a statement about
    object identity, so the two functions that write, [_preprosess] and
    [__mark_heads], are embedded a second time with the trees laid out in
    a store: an object is a label, a list of items and a parent pointer,
    an item is the address of a subtree or a plain value, and
    [copy(deep=True)] allocates. Recursion over addresses takes fuel. *)

Module Store.

Inductive item : Type :=
| Ref (a : nat)
| Val (v : pyval).

Record object : Type := Object {
  label : string;
  items : list item;
  parent : option nat
}.

Abbreviation store := (list object).

(** A computation ends by returning, by raising, or is stuck: out of
    fuel, or at an address that holds no object. *)
Inductive outcome (A : Type) : Type :=
| Return (x : A)
| Throw (e : exn)
| Stuck.
Arguments Return {A} x.
Arguments Throw {A} e.
Arguments Stuck {A}.

Definition M (A : Type) : Type := store -> store * outcome A.

Definition ret {A} (x : A) : M A := fun s => (s, Return x).
Definition throw {A} (e : exn) : M A := fun s => (s, Throw e).
Definition stuck {A} : M A := fun s => (s, Stuck).

Definition mbind {A B} (m : M A) (k : A -> M B) : M B :=
  fun s =>
    match m s with
    | (s', Return x) => k x s'
    | (s', Throw e) => (s', Throw e)
    | (s', Stuck) => (s', Stuck)
    end.

Declare Scope store_scope.
Notation "x <- m ;; k" := (mbind m (fun x => k))
  (at level 100, m at next level, right associativity) : store_scope.
Local Open Scope store_scope.

Definition lift {A} (r : result A) : M A :=
  match r with
  | Ok x => ret x
  | Raise e => throw e
  end.

Definition mapM {A B} (f : A -> M B) : list A -> M (list B) :=
  fix go l :=
    match l with
    | [] => ret []
    | x :: l' => y <- f x ;; ys <- go l' ;; ret (y :: ys)
    end.

Definition read (a : nat) : M object :=
  fun s =>
    match s !! a with
    | Some o => (s, Return o)
    | None => (s, Stuck)
    end.

Definition write (a : nat) (f : object -> object) : M unit :=
  fun s =>
    match s !! a with
    | Some o => (<[a := f o]> s, Return tt)
    | None => (s, Stuck)
    end.

Definition alloc (o : object) : M nat :=
  fun s => (s ++ [o], Return (length s)).

Definition set_label (a : nat) (l : string) : M unit :=
  write a (fun o => Object l (items o) (parent o)).

Definition set_parent (p : option nat) (it : item) : M unit :=
  match it with
  | Ref c => write c (fun o => Object (label o) (items o) p)
  | Val _ => ret tt
  end.

(** [tree[0] = value] of a [ParentedTree], for a value that is no tree:
    the child that is replaced loses its parent. *)
Definition set_item0 (a : nat) (v : pyval) : M unit :=
  o <- read a ;;
  old <- lift (item0 (items o)) ;;
  _ <- set_parent None old ;;
  write a (fun o => Object (label o) (<[0 := Val v]> (items o)) (parent o)).

(** [Tree.height] *)
Fixpoint height (fuel : nat) (a : nat) : M nat :=
  match fuel with
  | 0 => stuck
  | S fuel' =>
      o <- read a ;;
      hs <- mapM (fun it => match it with
                            | Ref c => height fuel' c
                            | Val _ => ret 1
                            end) (items o) ;;
      ret (S (max_list hs))
  end.

Definition _is_leaf (fuel : nat) (a : nat) : M bool :=
  h <- height fuel a ;; ret (h =? 2).

(** [tree.copy(deep=True)], that is [ParentedTree.convert(tree)]: the
    children are copied first, then the new node is built and made their
    parent; values that are no trees are shared. *)
Fixpoint copy (fuel : nat) (a : nat) : M nat :=
  match fuel with
  | 0 => stuck
  | S fuel' =>
      o <- read a ;;
      children <- mapM (fun it => match it with
                                  | Ref c => c' <- copy fuel' c ;; ret (Ref c')
                                  | Val v => ret (Val v)
                                  end) (items o) ;;
      a' <- alloc (Object (label o) children None) ;;
      _ <- mapM (set_parent (Some a')) children ;;
      ret a'
  end.

(** [for subtree in tree: for _item in __iterate(subtree, index): ...] *)
Definition preprosess_loop (iterate : nat -> nat -> M (list (string * item)))
  : list item -> nat -> M (list (string * item)) :=
  fix loop its index :=
    match its with
    | [] => ret []
    | it :: its' =>
        r <- match it with
             | Ref c => iterate c index
             | Val _ => throw AttributeError
             end ;;
        rs <- loop its' (index + length r) ;;
        ret (r ++ rs)
    end.

(** [__iterate] of [_preprosess], writing into the store. *)
Fixpoint preprosess_iterate (fuel : nat) (a : nat) (index : nat)
  : M (list (string * item)) :=
  match fuel with
  | 0 => stuck
  | S fuel' =>
      o <- read a ;;
      label' <- lift (clean (label o)) ;;
      _ <- (if contains "-"%char (label o) then set_label a label' else ret tt) ;;
      leaf <- _is_leaf fuel' a ;;
      if leaf : bool then
        tok <- lift (item0 (items o)) ;;
        _ <- set_item0 a (PInt index) ;;
        ret [(label', tok)]
      else
        preprosess_loop (preprosess_iterate fuel') (items o) index
  end.

Definition _preprosess (fuel : nat) (root : nat) : M (nat * list (string * item)) :=
  root' <- copy fuel root ;;
  sequences <- preprosess_iterate fuel root' 1 ;;
  ret (root', sequences).

(** A child as head selection sees it: only its label is read. *)
Definition child_view (it : item) : M tree :=
  match it with
  | Ref c => o <- read c ;; ret (Tree (label o) [])
  | Val v => ret (Tok v)
  end.

(** [__iterate] of [__mark_heads], writing into the store. *)
Fixpoint mark_heads_iterate (head_rules : table) (fuel : nat) (a : nat) : M unit :=
  match fuel with
  | 0 => stuck
  | S fuel' =>
      o <- read a ;;
      leaf <- _is_leaf fuel' a ;;
      if leaf : bool then
        tok <- lift (item0 (items o)) ;;
        s <- match tok with
             | Val v => ret (Convertor.str_of_pyval v)
             | Ref _ => throw NotModelled
             end ;;
        set_label a (head_label s (label o))
      else
        _ <- mapM (fun it => match it with
                             | Ref c => mark_heads_iterate head_rules fuel' c
                             | Val _ => throw AttributeError
                             end) (items o) ;;
        ks <- mapM child_view (items o) ;;
        sel <- lift (Convertor.select_head head_rules (label o) ks) ;;
        match sel with
        | Some index => set_label a (head_label index (label o))
        | None => ret tt
        end
  end.

Definition __mark_heads (head_rules : table) (fuel : nat) (root : nat) : M nat :=
  root' <- copy fuel root ;;
  _ <- mark_heads_iterate head_rules fuel root' ;;
  ret root'.

(** The tree that lies at an address. *)
Fixpoint reify (fuel : nat) (a : nat) : M tree :=
  match fuel with
  | 0 => stuck
  | S fuel' =>
      o <- read a ;;
      ks <- mapM (fun it => match it with
                            | Ref c => reify fuel' c
                            | Val v => ret (Tok v)
                            end) (items o) ;;
      ret (Tree (label o) ks)
  end.

(** [__parse] up to the relations; extracting them only reads. *)
Definition __parse (head_rules : table) (fuel : nat) (tree0 : nat)
  : M (list (string * item) * list relation) :=
  r <- _preprosess fuel tree0 ;;
  tree2 <- __mark_heads head_rules fuel r.1 ;;
  t <- reify fuel tree2 ;;
  relations <- lift (_get_relations t) ;;
  ret (r.2, relations).

(** Building the objects of a tree, as [ParentedTree.fromstring] does. *)
Fixpoint build (t : tree) : M item :=
  match t with
  | Tok v => ret (Val v)
  | Tree l ks =>
      children <- mapM build ks ;;
      a <- alloc (Object l children None) ;;
      _ <- mapM (set_parent (Some a)) children ;;
      ret (Ref a)
  end.

(** ** What a run may touch *)

(** The objects below [base] are the same in both stores. *)
Definition frame (base : nat) (s s' : store) : Prop :=
  forall a, a < base -> s' !! a = s !! a.

Definition fresh (base : nat) (it : item) : Prop :=
  match it with
  | Ref c => base <= c
  | Val _ => True
  end.

(** The objects from [base] on only refer to one another. *)
Definition closed (base : nat) (s : store) : Prop :=
  forall a o, base <= a -> s !! a = Some o -> Forall (fresh base) (items o).

(** [safe base m Q]: run in a store whose objects from [base] on are
    closed, [m] leaves the objects below [base] as they are and the rest
    closed, however it ends, and what it returns satisfies [Q]. *)
Definition safe {A} (base : nat) (m : M A) (Q : A -> Prop) : Prop :=
  forall s, base <= length s -> closed base s ->
    frame base s (m s).1 /\ closed base (m s).1 /\ length s <= length (m s).1 /\
    forall x, (m s).2 = Return x -> Q x.

End Store.

(** * The script [main.py]

    The script loads the rules of [head_rules.txt], then reads
    [ctb.bracketed] line by line and writes [ctb.conll]. The two input
    files are given as the lists of their lines (each with its line end,
    as [for line in f] yields them); the result is the text of
    [ctb.conll] after the run, [None] when the file has not been opened,
    and how the run ends. The reader of bracketed trees,
    [ParentedTree.fromstring], belongs to nltk: the script is embedded
    for an arbitrary reader. *)

Module Main.
Section Script.

Variable fromstring : string -> result tree.

(** [convertor.convert(line)]: the reader, then the conversion. *)
Definition convert (head_rules : table) (tree_str : string) : result string :=
  tree0 <- fromstring tree_str ;;
  Convertor.convert head_rules tree0.

(** The loop over the lines of [ctb.bracketed]; [out] is what has been
    written. When an exception leaves the loop, the [with] statement
    closes the file with what it holds. *)
Fixpoint loop (head_rules : table) (lines : list string) (out : string)
  : string * result unit :=
  match lines with
  | [] => (out, Ok tt)
  | line :: lines' =>
      if String.prefix "#" line then loop head_rules lines' (out +:+ line)
      else
        match convert head_rules line with
        | Ok deps => loop head_rules lines' (out +:+ (deps +:+ Convertor.newline))
        | Raise e => (out, Raise e)
        end
  end.

Definition main (rule_lines lines : list string) : option string * result unit :=
  match _load_head_rules rule_lines with
  | Raise e => (None, Raise e)
  | Ok head_rules =>
      let r := loop head_rules lines EmptyString in (Some r.1, r.2)
  end.

End Script.
End Main.

(** * Vocabulary of the properties *)

(** ** Input trees *)

(** The trees of the data model: a leaf holds exactly one token and no
    subtree, every other node has at least one child, all of them trees. *)
Fixpoint valid (t : tree) : bool :=
  match t with
  | Tok _ => false
  | Tree _ [Tok (PStr _)] => true
  | Tree _ [] => false
  | Tree _ ks => forallb valid ks
  end.

(** Category and token of each leaf, from left to right. *)
Fixpoint leaves (t : tree) : list (string * pyval) :=
  match t with
  | Tok _ => []
  | Tree l [Tok v] => [(l, v)]
  | Tree _ ks => flat_map leaves ks
  end.

(** A label without its sub-category suffix: the text before the first
    ['-']. *)
Fixpoint before (sep : ascii) (s : string) : string :=
  match s with
  | EmptyString => EmptyString
  | String a s' => if Ascii.eqb a sep then EmptyString else String a (before sep s')
  end.

Definition strip (label : string) : string := before "-"%char label.

(** The shape of a tree: its nodes and where its tokens are, without
    the labels and the tokens themselves. *)
Fixpoint shape (t : tree) : tree :=
  match t with
  | Tok _ => Tok (PInt 0)
  | Tree _ ks => Tree EmptyString (map shape ks)
  end.

(** The item that preprocessing yields for a leaf. *)
Definition item_of (leaf : string * pyval) : string * tree :=
  (strip leaf.1, Tok leaf.2).

(** ** Resolution of heads *)

(** Head marking resolves every node of a preprocessed tree: at each
    phrase the selection returns some head index, and raises nothing. *)
Fixpoint resolved (head_rules : table) (t : tree) : bool :=
  match t with
  | Tok _ => false
  | Tree label ks =>
      _is_leaf t ||
      (forallb (resolved head_rules) ks &&
       match mapM (Convertor.mark_heads_iterate head_rules) ks with
       | Ok ks' =>
           match Convertor.select_head head_rules label ks' with
           | Ok (Some _) => true
           | _ => false
           end
       | Raise _ => false
       end)
  end.

Definition resolves (head_rules : table) (t : tree) : bool :=
  match _preprosess t with
  | Ok r => resolved head_rules r.1
  | Raise _ => false
  end.

(** The head index of a marked node. *)
Definition head_index (t : tree) : result string :=
  l <- label_of t ;; label_index l.

(** The children in the order in which a rule of direction [d] scans
    them. *)
Definition scan (d : string) (ks : list tree) : list tree :=
  if String.eqb d "r" then rev ks else ks.

(** The category of a marked node whose label is [index|category]. *)
Definition category (t : tree) : result string :=
  l <- label_of t ;; p <- Convertor.unpack2 (split_on "|"%char l) ;; Ok p.2.

(** A rule with every direction token other than ['r'] replaced by
    ['l']. *)
Definition normalize (r : rule) : rule :=
  if String.eqb (direction r) "r" then r else Rule "l" (tags r).

(** ** Rule files *)

(** The text after the first [sep]. *)
Fixpoint after (sep : ascii) (s : string) : string :=
  match s with
  | EmptyString => EmptyString
  | String a s' => if Ascii.eqb a sep then s' else after sep s'
  end.

Fixpoint count_char (c : ascii) (s : string) : nat :=
  match s with
  | EmptyString => 0
  | String a s' => (if Ascii.eqb a c then 1 else 0) + count_char c s'
  end.

(** A line [CATEGORY: rule; rule; ...]: one colon, and at least one token
    in every rule. *)
Definition line_ok (line : string) : bool :=
  (count_char ":" line =? 1) &&
  forallb (fun piece => negb (bool_decide (split_ws piece = [])))
          (split_on ";"%char (after ":"%char line)).

Definition line_tag (line : string) : string := before ":"%char line.

(** The rules a line lists: of each rule, the first token is the
    direction and the others are the tags. *)
Definition line_rules (line : string) : list rule :=
  map (fun ws => Rule (default EmptyString (head ws)) (tail ws))
      (map split_ws (split_on ";"%char (after ":"%char line))).

(** ** Numbered and marked trees *)

(** [numbered i n t]: a tree of the data model whose [n] leaves hold the
    integers [i], [i+1], ... from left to right. *)
Inductive numbered : nat -> nat -> tree -> Prop :=
| numbered_leaf i l :
    numbered i 1 (Tree l [Tok (PInt i)])
| numbered_node i n l k ks :
    numbered_list i n (k :: ks) ->
    numbered i n (Tree l (k :: ks))
with numbered_list : nat -> nat -> list tree -> Prop :=
| numbered_nil i :
    numbered_list i 0 []
| numbered_cons i n m k ks :
    numbered i n k ->
    numbered_list (i + n) m ks ->
    numbered_list i (n + m) (k :: ks).

(** [marked i n h t]: a numbered tree every node of which carries, in
    front of its category, the index of one leaf below it; [h] is the
    index at the root of [t]. *)
Inductive marked : nat -> nat -> nat -> tree -> Prop :=
| marked_leaf i l :
    marked i 1 i (Tree (head_label (str_of_int i) l) [Tok (PInt i)])
| marked_node i n h hs l ks :
    marked_list i n hs ks ->
    h ∈ hs ->
    marked i n h (Tree (head_label (str_of_int h) l) ks)
with marked_list : nat -> nat -> list nat -> list tree -> Prop :=
| marked_nil i :
    marked_list i 0 [] []
| marked_cons i n m h hs k ks :
    marked i n h k ->
    marked_list (i + n) m hs ks ->
    marked_list i (n + m) (h :: hs) (k :: ks).

Scheme numbered_min := Minimality for numbered Sort Prop
  with numbered_list_min := Minimality for numbered_list Sort Prop.
Combined Scheme numbered_mutind from numbered_min, numbered_list_min.

Scheme marked_min := Minimality for marked Sort Prop
  with marked_list_min := Minimality for marked_list Sort Prop.
Combined Scheme marked_mutind from marked_min, marked_list_min.

(** ** Relations as numbers *)

(** A relation between two leaves, and the relation of the root. *)
Definition enc (r : nat * nat) : relation :=
  (str_of_int r.1, PStr (str_of_int r.2)).

Definition enc_root (h : nat) : relation := (str_of_int h, PInt 0).

(** [walk ar h d path]: following the links of [ar] from [d] arrives at
    [h]; [path] lists the indices left behind on the way. *)
Inductive walk (ar : list (nat * nat)) (h : nat) : nat -> list nat -> Prop :=
| walk_here : walk ar h h []
| walk_step d p path :
    (d, p) ∈ ar -> walk ar h p path -> walk ar h d (d :: path).

Definition in_span (i n x : nat) : Prop := i <= x < i + n.

(** What the relations [ar] below a node of head [h] spanning the leaves
    [i .. i+n-1] satisfy. *)
Record good (i n h : nat) (ar : list (nat * nat)) : Prop := Good {
  good_perm : Permutation (h :: map fst ar) (seq i n);
  good_heads : Forall (fun r => in_span i n r.2) ar;
  good_walk : forall d, in_span i n d ->
    exists path, walk ar h d path /\ NoDup path /\ (h ∉ path) /\
                 Forall (in_span i n) path /\ length path < n
}.

(** The same for the relations gathered over a list of children of heads
    [hs], towards the parent's head [h]. *)
Record good_list (i n : nat) (hs : list nat) (h : nat) (ar : list (nat * nat)) : Prop :=
  GoodList {
  gl_perm : Permutation (map fst ar ++ (if decide (h ∈ hs) then [h] else []))
                        (seq i n);
  gl_heads : Forall (fun r => r.2 = h \/ in_span i n r.2) ar;
  gl_walk : forall d, in_span i n d ->
    exists path, walk ar h d path /\ NoDup path /\ (h ∉ path) /\
                 Forall (in_span i n) path /\ length path <= n /\
                 (h ∈ hs -> length path < n)
}.

(** ** Following head links *)

(** The head recorded for the dependent [d]. *)
Definition head_of (rels : list relation) (d : string) : option pyval :=
  snd <$> find (fun r : relation => String.eqb r.1 d) rels.

(** The indices met when following head links from [d] until the head is
    the [int] 0, in at most [fuel] steps. *)
Fixpoint chain (rels : list relation) (fuel : nat) (d : string) : option (list string) :=
  match fuel with
  | 0 => None
  | S fuel' =>
      match head_of rels d with
      | Some (PInt 0) => Some [d]
      | Some (PStr p) => cons d <$> chain rels fuel' p
      | _ => None
      end
  end.


(** ** Auxiliary notions *)

Definition is_tree (t : tree) : Prop :=
  match t with Tree _ _ => True | Tok _ => False end.

(** The pieces of a node's label. *)
Definition parts (t : tree) : list string :=
  match t with
  | Tree l _ => split_on "|"%char l
  | Tok _ => []
  end.

(** The order of [sorted(..., key=...)]. *)
Definition key_le {A} (x y : nat * A) : Prop := x.1 <= y.1.

(** A relation paired with the number its index prints. *)
Definition keyed (x : nat * relation) : Prop := x.2.1 = str_of_int x.1.

(** ** Examples *)

(** [(S (NP-SBJ (NN dog)) (VP (VBZ barks)))] *)
Definition dog_barks : tree :=
  Tree "S" [Tree "NP-SBJ" [Tree "NN" [Tok (PStr "dog")]];
            Tree "VP" [Tree "VBZ" [Tok (PStr "barks")]]].

(** The table of the lines [S: l VP] and [VP: l VBZ]. *)
Definition dog_rules : table :=
  {[ "S" := [Rule "l" ["VP"]]; "VP" := [Rule "l" ["VBZ"]] ]}.

(** ** Trees laid out in a store *)

(** No bracket is empty: every tree node has a child. *)
Fixpoint full (t : tree) : bool :=
  match t with
  | Tok _ => true
  | Tree _ ks => negb (bool_decide (ks = [])) && forallb full ks
  end.

(** [rep s lo hi it t]: in the store [s] the item [it] is the tree [t],
    whose objects lie at addresses from [lo] to below [hi], the children
    of a node before the node and one after the other. *)
Inductive rep (s : list Store.object) : nat -> nat -> Store.item -> tree -> Prop :=
| rep_val lo hi v :
    lo <= hi ->
    rep s lo hi (Store.Val v) (Tok v)
| rep_ref lo hi a o ks :
    s !! a = Some o ->
    lo <= a < hi ->
    reps s lo a (Store.items o) ks ->
    rep s lo hi (Store.Ref a) (Tree (Store.label o) ks)
with reps (s : list Store.object) : nat -> nat -> list Store.item -> list tree -> Prop :=
| reps_nil lo hi :
    lo <= hi ->
    reps s lo hi [] []
| reps_cons lo mid hi it its k ks :
    rep s lo mid it k ->
    reps s mid hi its ks ->
    reps s lo hi (it :: its) (k :: ks).

Scheme rep_min := Minimality for rep Sort Prop
  with reps_min := Minimality for reps Sort Prop.
Combined Scheme rep_mutind from rep_min, reps_min.

(** The objects from [lo] to below [hi] keep their label and items. *)
Definition keeps (lo hi : nat) (s s' : list Store.object) : Prop :=
  forall a o, lo <= a < hi -> s !! a = Some o ->
    exists o', s' !! a = Some o' /\
               Store.label o' = Store.label o /\ Store.items o' = Store.items o.

(** Nothing changes but from [lo] to below [hi]. *)
Definition only_within (lo hi : nat) (s s' : list Store.object) : Prop :=
  length s' = length s /\ forall a, ~ (lo <= a < hi) -> s' !! a = s !! a.

(** An item that refers to nothing from [n] on. *)
Definition below (n : nat) (it : Store.item) : Prop :=
  match it with Store.Ref c => c < n | Store.Val _ => True end.

(** An item that preprocessing yields, as the store has it. *)
Definition to_item (x : string * tree) : string * Store.item :=
  (x.1, match x.2 with
        | Tok v => Store.Val v
        | Tree _ _ => Store.Val (PInt 0)
        end).

(** What [Store.__parse] returns, computed on values. *)
Definition parse_values (head_rules : table) (t : tree)
  : result (list (string * Store.item) * list relation) :=
  r <- _preprosess t ;;
  t2 <- Convertor.__mark_heads head_rules r.1 ;;
  relations <- _get_relations t2 ;;
  Ok (map to_item r.2, relations).

(** The outcome that corresponds to a result. *)
Definition outcome_of {A} (r : result A) : Store.outcome A :=
  match r with
  | Ok x => Store.Return x
  | Raise e => Store.Throw e
  end.

(** Two children that head selection cannot tell apart: it only reads
    their labels. *)
Definition same_label (v k : tree) : Prop := label_of v = label_of k.

(** What a run of the preprocessing of [t] at [a] has to be. *)
Definition preprosess_post (lo hi : nat) (it : Store.item) (t : tree) (index : nat)
    (s : list Store.object)
    (res : list Store.object * Store.outcome (list (string * Store.item))) : Prop :=
  only_within lo hi s res.1 /\
  match preprosess_iterate t index with
  | Ok r => res.2 = Store.Return (map to_item r.2) /\ rep res.1 lo hi it r.1
  | Raise e => res.2 = Store.Throw e
  end.

Definition preprosess_loop_post (lo hi : nat) (its : list Store.item) (ks : list tree)
    (index : nat) (s : list Store.object)
    (res : list Store.object * Store.outcome (list (string * Store.item))) : Prop :=
  only_within lo hi s res.1 /\
  match preprosess_loop preprosess_iterate ks index with
  | Ok r => res.2 = Store.Return (map to_item r.2) /\ reps res.1 lo hi its r.1
  | Raise e => res.2 = Store.Throw e
  end.

(** What a run of head marking of [t] at [a] has to be. *)
Definition mark_post (head_rules : table) (lo hi : nat) (it : Store.item) (t : tree)
    (s : list Store.object) (res : list Store.object * Store.outcome unit) : Prop :=
  only_within lo hi s res.1 /\
  match Convertor.mark_heads_iterate head_rules t with
  | Ok t' => res.2 = Store.Return tt /\ rep res.1 lo hi it t'
  | Raise e => res.2 = Store.Throw e
  end.

Definition mark_children_post (head_rules : table) (lo hi : nat) (its : list Store.item) (ks : list tree)
    (s : list Store.object) (res : list Store.object * Store.outcome (list unit)) : Prop :=
  only_within lo hi s res.1 /\
  match mapM (Convertor.mark_heads_iterate head_rules) ks with
  | Ok ks' => (exists us, res.2 = Store.Return us) /\ reps res.1 lo hi its ks'
  | Raise e => res.2 = Store.Throw e
  end.

(** * Vocabulary of the further properties *)

(** ** Trees *)

(** A child that counts 1 in the height of its parent: a token, or a
    tree without children. *)
Definition flat (k : tree) : bool :=
  match k with
  | Tok _ => true
  | Tree _ ks => bool_decide (ks = [])
  end.

(** No token stands beside a subtree that has children: the children
    of a node are all flat, and there is one at least, or they are all
    trees of this kind. *)
Fixpoint segregated (t : tree) : bool :=
  match t with
  | Tok _ => false
  | Tree _ ks =>
      negb (bool_decide (ks = [])) && forallb flat ks || forallb segregated ks
  end.

(** The labels of the nodes, parents first. *)
Fixpoint labels (t : tree) : list string :=
  match t with
  | Tok _ => []
  | Tree l ks => l :: flat_map labels ks
  end.

(** [prefixed t t']: the tree [t'] is [t] with, at some nodes, an index
    and ['|'] written in front of the label. *)
Inductive prefixed : tree -> tree -> Prop :=
| prefixed_tok v :
    prefixed (Tok v) (Tok v)
| prefixed_same l ks ks' :
    Forall2 prefixed ks ks' ->
    prefixed (Tree l ks) (Tree l ks')
| prefixed_index index l ks ks' :
    Forall2 prefixed ks ks' ->
    prefixed (Tree l ks) (Tree (head_label index l) ks').

(** ** Rules *)

(** The rules of a category up to its first rule without tags. *)
Fixpoint live (rules : list rule) : list rule :=
  match rules with
  | [] => []
  | r :: rules' =>
      match tags r with
      | [] => [r]
      | _ => r :: live rules'
      end
  end.

(** No blank starts anywhere in [s]. *)
Fixpoint no_blank (s : string) : bool :=
  match s with
  | EmptyString => true
  | String a s' => (blank_len (String a s') =? 0) && no_blank s'
  end.

(** A token of a rule file: not empty, and without blanks. *)
Definition word (s : string) : bool :=
  negb (bool_decide (s = EmptyString)) && no_blank s.

(** The ideographic space U+3000, a blank of three bytes. *)
Definition ideographic_space : string :=
  String (ascii_of_nat 227) (String (ascii_of_nat 128)
    (String (ascii_of_nat 128) EmptyString)).

(** ** Output *)

(** A text without the two separators of the output. *)
Definition plain (s : string) : bool :=
  negb (contains (ascii_of_nat 9) s) && negb (contains (ascii_of_nat 10) s).

Definition plain_leaf (leaf : string * pyval) : bool :=
  plain (strip leaf.1) && plain (Convertor.str_of_pyval leaf.2).

(** The table that a reader of the output sees: its lines, each cut at
    the tabs. *)
Definition columns (out : string) : list (list string) :=
  map (split_on (ascii_of_nat 9)) (split_on (ascii_of_nat 10) out).

(** The ten columns of the row of a leaf and its relation. *)
Definition row_of (leaf : string * pyval) (r : relation) : list string :=
  [r.1; Convertor.str_of_pyval leaf.2; "_"; "_"; strip leaf.1; "_";
   Convertor.str_of_pyval r.2; "X"; "_"; "_"].

(** What the script writes for a line. *)
Definition written (fromstring : string -> result tree) (head_rules : table)
    (line : string) : result string :=
  if String.prefix "#" line then Ok line
  else deps <- Main.convert fromstring head_rules line ;;
       Ok (deps +:+ Convertor.newline).

(** ** Dependencies *)

(** [k] lies strictly between [d] and [p]. *)
Definition between (d p k : nat) : Prop := d < k < p \/ p < k < d.

(** A head that is an [int]: the 0 of the root. *)
Definition is_int (v : pyval) : bool :=
  match v with
  | PInt _ => true
  | PStr _ => false
  end.

(** The relations [ar] cross no word: whatever lies strictly between a
    dependent and its head descends from that head. *)
Definition projective (ar : list (nat * nat)) : Prop :=
  forall d p k, (d, p) ∈ ar -> between d p k -> exists path, walk ar p k path.

(** ** Rules that always end *)

(** A line of rules with a rule without tags in it: the search for a
    head ends there at the latest. *)
Definition has_last_rule (rules : list rule) : bool :=
  existsb (fun r => bool_decide (tags r = [])) rules.

Definition no_bar (s : string) : Prop := contains "|"%char s = false.

(** * Properties *)

(** ** Strings *)

Lemma append_cons a s t : String a s +:+ t = String a (s +:+ t).
Proof. reflexivity. Qed.

Lemma append_nil t : EmptyString +:+ t = t.
Proof. reflexivity. Qed.

Lemma split_on_nonempty c s : split_on c s <> [].
Proof.
  destruct s as [|a s]; simpl; [discriminate|].
  destruct (Ascii.eqb a c); [discriminate|].
  destruct (split_on c s); discriminate.
Qed.

Lemma split_on_append c s s' :
  contains c s = false ->
  split_on c (s +:+ String c s') = s :: split_on c s'.
Proof.
  induction s as [|a s IH]; intros Hc.
  - rewrite append_nil. simpl. now rewrite Ascii.eqb_refl.
  - simpl in Hc. apply orb_false_iff in Hc as [Ha Hs].
    rewrite append_cons. simpl. rewrite Ha, (IH Hs). reflexivity.
Qed.

Lemma item0_split_on c s : item0 (split_on c s) = Ok (before c s).
Proof.
  induction s as [|a s IH]; simpl; [reflexivity|].
  destruct (Ascii.eqb a c); [reflexivity|].
  destruct (split_on c s) as [|w ws]; simpl in *.
  - discriminate.
  - now inversion IH.
Qed.

Lemma before_absent c s : contains c s = false -> before c s = s.
Proof.
  induction s as [|a s IH]; simpl; [reflexivity|].
  intros H. apply orb_false_iff in H as [Ha Hs].
  now rewrite Ha, (IH Hs).
Qed.

Lemma before_clean c s : contains c (before c s) = false.
Proof.
  induction s as [|a s IH]; simpl; [reflexivity|].
  destruct (Ascii.eqb a c) eqn:E; simpl; [reflexivity|].
  now rewrite E.
Qed.

Lemma clean_strip l : clean l = Ok (strip l).
Proof.
  unfold clean, strip. destruct (contains "-" l) eqn:E.
  - apply item0_split_on.
  - now rewrite before_absent.
Qed.

Lemma label_index_before l : label_index l = Ok (before "|"%char l).
Proof. apply item0_split_on. Qed.

Lemma digits_no_bar d : contains "|"%char (NilEmpty.string_of_uint d) = false.
Proof. induction d; simpl; auto. Qed.

Lemma str_of_int_no_bar n : contains "|"%char (str_of_int n) = false.
Proof.
  unfold str_of_int, NilZero.string_of_uint.
  destruct (Nat.to_uint n) eqn:E; try reflexivity; rewrite <- E;
    apply digits_no_bar.
Qed.

Lemma int_of_str_of_int n : int_of_str (str_of_int n) = Ok n.
Proof.
  unfold int_of_str, str_of_int.
  destruct (Nat.to_uint n) eqn:E;
    [simpl; rewrite <- (DecimalNat.Unsigned.of_to n), E; reflexivity|..];
    (rewrite NilZero.usu by discriminate;
     now rewrite <- E, DecimalNat.Unsigned.of_to).
Qed.

Lemma str_of_int_inj n m : str_of_int n = str_of_int m -> n = m.
Proof.
  intros H. pose proof (int_of_str_of_int n) as Hn.
  rewrite H, int_of_str_of_int in Hn. now inversion Hn.
Qed.

Lemma str_of_int_eqb n m : String.eqb (str_of_int n) (str_of_int m) = bool_decide (n = m).
Proof.
  destruct (String.eqb_spec (str_of_int n) (str_of_int m)) as [E|E].
  - apply str_of_int_inj in E. now rewrite bool_decide_eq_true_2.
  - rewrite bool_decide_eq_false_2; [reflexivity|]. now intros ->.
Qed.

Lemma split_head_label n l :
  split_on "|"%char (head_label (str_of_int n) l) = str_of_int n :: split_on "|"%char l.
Proof. unfold head_label. apply split_on_append, str_of_int_no_bar. Qed.

Lemma label_index_head_label n l :
  label_index (head_label (str_of_int n) l) = Ok (str_of_int n).
Proof. unfold label_index. now rewrite split_head_label. Qed.

(** ** The result monad and loops *)

Lemma bind_ok {A B} (m : result A) (k : A -> result B) b :
  bind m k = Ok b <-> exists a, m = Ok a /\ k a = Ok b.
Proof.
  destruct m as [a|e]; simpl; split.
  - eauto.
  - now intros (a' & [= ->] & H).
  - discriminate.
  - now intros (a' & [=] & _).
Qed.

Lemma mapM_ok {A B} (f : A -> result B) l l' :
  mapM f l = Ok l' <-> Forall2 (fun x y => f x = Ok y) l l'.
Proof.
  revert l'. induction l as [|x l IH]; intros l'; simpl.
  - split; [intros [= <-]; constructor | now inversion 1].
  - split.
    + intros H. apply bind_ok in H as (y & Hy & H).
      apply bind_ok in H as (ys & Hys & [= <-]).
      constructor; [assumption | now apply IH].
    + inversion 1 as [|? y ? ys Hy Hys]; subst.
      rewrite Hy. simpl. apply IH in Hys. now rewrite Hys.
Qed.

Lemma mapM_ext {A B} (f g : A -> result B) l :
  Forall (fun x => f x = g x) l -> mapM f l = mapM g l.
Proof.
  induction 1 as [|x l Hx _ IH]; simpl; [reflexivity|].
  now rewrite Hx, IH.
Qed.

Lemma mapM_length {A B} (f : A -> result B) l l' :
  mapM f l = Ok l' -> length l' = length l.
Proof. intros H. apply mapM_ok in H. symmetry. eapply Forall2_length, H. Qed.

Lemma mapM_map {A B C} (f : B -> result C) (g : A -> B) l :
  mapM f (map g l) = mapM (fun x => f (g x)) l.
Proof. induction l as [|x l IH]; simpl; [reflexivity|]. now rewrite IH. Qed.

Lemma mapM_pure {A B} (f : A -> B) l : mapM (fun x => Ok (f x)) l = Ok (map f l).
Proof. induction l as [|x l IH]; simpl; [reflexivity|]. now rewrite IH. Qed.

(** ** Induction on trees *)

Lemma tree_ind' (P : tree -> Prop) :
  (forall v, P (Tok v)) ->
  (forall l ks, Forall P ks -> P (Tree l ks)) ->
  forall t, P t.
Proof.
  intros Htok Htree. fix IH 1. intros [v|l ks].
  - apply Htok.
  - apply Htree. induction ks as [|k ks IHks]; constructor.
    + apply IH.
    + apply IHks.
Qed.

(** ** Head marking, one node at a time *)

Section Marking.
Import Convertor.
Variable head_rules : table.

Lemma mark_heads_iterate_eq label ks :
  mark_heads_iterate head_rules (Tree label ks) =
  if _is_leaf (Tree label ks) then
    tok <- item0 ks ;; s <- str_of tok ;; Ok (Tree (head_label s label) ks)
  else
    ks' <- mapM (mark_heads_iterate head_rules) ks ;;
    o <- select_head head_rules label ks' ;;
    match o with
    | Some index => Ok (Tree (head_label index label) ks')
    | None => Ok (Tree label ks')
    end.
Proof. reflexivity. Qed.

Lemma mark_heads_iterate_tree t t' :
  mark_heads_iterate head_rules t = Ok t' -> is_tree t'.
Proof.
  destruct t as [v|label ks]; [discriminate|].
  rewrite mark_heads_iterate_eq.
  destruct (_is_leaf _).
  - intros H. apply bind_ok in H as (tok & _ & H).
    apply bind_ok in H as (s & _ & [= <-]). exact I.
  - intros H. apply bind_ok in H as (ks' & _ & H).
    apply bind_ok in H as ([i|] & _ & [= <-]); exact I.
Qed.

Lemma marked_children_trees ks ks' :
  mapM (mark_heads_iterate head_rules) ks = Ok ks' -> Forall is_tree ks'.
Proof.
  intros H. apply mapM_ok in H.
  induction H as [|k k' ks ks' Hk _ IH]; constructor; [|exact IH].
  eapply mark_heads_iterate_tree, Hk.
Qed.

End Marking.

Lemma head_index_parts t : is_tree t -> head_index t = item0 (parts t).
Proof. destruct t; [contradiction|reflexivity]. Qed.

Lemma category_parts t : is_tree t -> category t = (p <- Convertor.unpack2 (parts t) ;; Ok p.2).
Proof. destruct t; [contradiction|reflexivity]. Qed.

Lemma label_index_head_label_clean index l :
  contains "|"%char index = false ->
  label_index (head_label index l) = Ok index.
Proof.
  intros H. unfold label_index, head_label.
  change ("|" +:+ l) with (String "|"%char l). now rewrite split_on_append.
Qed.

Lemma head_index_clean t index :
  head_index t = Ok index -> contains "|"%char index = false.
Proof.
  destruct t as [v|l ks]; [discriminate|]. unfold head_index. simpl.
  rewrite label_index_before. intros [= <-]. apply before_clean.
Qed.

Lemma sub_labels_of_scan r ks :
  Forall is_tree ks ->
  Convertor.sub_labels_of r ks = Ok (map parts (scan (direction r) ks)).
Proof.
  intros H. unfold Convertor.sub_labels_of, scan.
  assert (E : mapM (fun t => l <- label_of t ;; Ok (split_on "|"%char l)) ks
              = Ok (map parts ks)).
  { induction H as [|k ks Hk _ IH]; simpl; [reflexivity|].
    destruct k as [v|l kk]; [contradiction|]. simpl. now rewrite IH. }
  rewrite E. simpl. destruct (String.eqb _ _); [|reflexivity].
  now rewrite map_rev.
Qed.

Lemma try_rules_app pre rs ks :
  Convertor.try_rules pre ks = Ok None ->
  Convertor.try_rules (pre ++ rs) ks = Convertor.try_rules rs ks.
Proof.
  induction pre as [|r pre IH]; simpl; [reflexivity|].
  destruct (Convertor.sub_labels_of r ks) as [sls|e]; simpl; [|discriminate].
  destruct (tags r) as [|tg tgs].
  - destruct (item0 sls) as [sl|]; simpl; [|discriminate].
    destruct (item0 sl); simpl; discriminate.
  - destruct (Convertor.try_tags (tg :: tgs) sls) as [[i|]|e]; simpl;
      try discriminate. exact IH.
Qed.

Lemma head_rev {A} (l : list A) : head (rev l) = last l.
Proof.
  induction l as [|x l IH]; [reflexivity|].
  simpl rev. destruct l as [|y l]; [reflexivity|].
  change (last (x :: y :: l)) with (last (y :: l)). rewrite <- IH.
  destruct (rev (y :: l)) as [|z zs] eqn:E; [|reflexivity].
  apply (f_equal (@length A)) in E. rewrite length_rev in E. discriminate.
Qed.

Lemma head_scan d (ks : list tree) :
  head (scan d ks) = if String.eqb d "r" then last ks else head ks.
Proof. unfold scan. destruct (String.eqb d "r"); [apply head_rev|reflexivity]. Qed.

Section Selection.
Import Convertor.
Variable head_rules : table.

(** The label a phrase receives once [index] has been selected. *)
Lemma mark_node_selected label ks ks' index :
  _is_leaf (Tree label ks) = false ->
  mapM (mark_heads_iterate head_rules) ks = Ok ks' ->
  select_head head_rules label ks' = Ok (Some index) ->
  mark_heads_iterate head_rules (Tree label ks) = Ok (Tree (head_label index label) ks').
Proof.
  intros Hleaf Hks Hsel. rewrite mark_heads_iterate_eq, Hleaf, Hks. simpl.
  now rewrite Hsel.
Qed.

Lemma next_index_first tag cpre c cpost index :
  Forall (fun c' => is_ok (unpack2 (parts c')) = true) cpre ->
  (forall c', c' ∈ cpre -> (p <- unpack2 (parts c') ;; Ok p.2) <> Ok tag) ->
  unpack2 (parts c) = Ok (index, tag) ->
  next_index tag (map parts (cpre ++ c :: cpost)) = Ok index.
Proof.
  intros Hok Hne Hc. induction cpre as [|c' cpre IH]; simpl.
  - rewrite Hc. simpl. now rewrite String.eqb_refl.
  - inversion Hok as [|? ? Hc' Hok']; subst.
    destruct (unpack2 (parts c')) as [[i' t']|] eqn:E; [|discriminate].
    simpl. destruct (String.eqb_spec tag t') as [->|_].
    + exfalso. apply (Hne c'); [left|]. now rewrite E.
    + apply IH; [assumption|]. intros c'' Hin. apply Hne. now right.
Qed.

Lemma try_tags_first tpre tag tpost sls pairs :
  mapM unpack2 sls = Ok pairs ->
  (forall t, t ∈ tpre -> t ∉ map snd pairs) ->
  tag ∈ map snd pairs ->
  try_tags (tpre ++ tag :: tpost) sls = (index <- next_index tag sls ;; Ok (Some index)).
Proof.
  intros Hp Hpre Htag. induction tpre as [|t tpre IH]; simpl; rewrite Hp; simpl.
  - now rewrite bool_decide_eq_true_2.
  - rewrite bool_decide_eq_false_2 by (apply Hpre; left).
    apply IH. intros t' Hin. apply Hpre. now right.
Qed.

Lemma unpack_children (l : list tree) :
  (forall k, k ∈ l -> exists p, unpack2 (parts k) = Ok p /\ category k = Ok p.2) ->
  exists pairs,
    mapM unpack2 (map parts l) = Ok pairs /\
    forall t, t ∈ map snd pairs <-> exists k, k ∈ l /\ category k = Ok t.
Proof.
  induction l as [|k l IH]; intros Hall.
  - exists []. split; [reflexivity|]. intros t. split.
    + intros Hin. inversion Hin.
    + intros (k & Hin & _). inversion Hin.
  - destruct IH as (pairs & Hm & Hin).
    { intros k' Hk'. apply Hall. now right. }
    destruct (Hall k) as (p & Hp & Hcp); [left|].
    exists (p :: pairs). split.
    + simpl. rewrite Hp. simpl. now rewrite Hm.
    + intros t. simpl. rewrite elem_of_cons, Hin. split.
      * intros [->|(k' & Hk' & E)]; [exists k; split; [left|assumption]|].
        exists k'. split; [now right|assumption].
      * intros (k' & Hk' & E). apply elem_of_cons in Hk' as [->|Hk'].
        -- left. rewrite Hcp in E. now inversion E.
        -- right. eauto.
Qed.

End Selection.

(** ** The fallback and the rules *)

Section HeadRules.
Import Convertor.
Variable head_rules : table.

(** C3. A phrase whose category has no entry in the head-rule table is
    marked, without error, with the head index of its last child. *)
Theorem fallback_selects_last_child label ks ks' c :
  _is_leaf (Tree label ks) = false ->
  mapM (mark_heads_iterate head_rules) ks = Ok ks' ->
  head_rules !! label = None ->
  last ks' = Some c ->
  exists index,
    head_index c = Ok index /\
    mark_heads_iterate head_rules (Tree label ks)
      = Ok (Tree (head_label index label) ks') /\
    head_index (Tree (head_label index label) ks') = Ok index.
Proof.
  intros Hleaf Hks Hnone Hlast.
  assert (Hc : is_tree c).
  { pose proof (marked_children_trees _ _ _ Hks) as Hall.
    rewrite Forall_forall in Hall. apply Hall.
    rewrite last_lookup in Hlast.
    eapply list_elem_of_lookup_2, Hlast. }
  destruct c as [v|lc kc]; [contradiction|].
  exists (before "|"%char lc).
  assert (Hidx : head_index (Tree lc kc) = Ok (before "|"%char lc))
    by apply label_index_before.
  split; [exact Hidx|]. split.
  - apply mark_node_selected; try assumption.
    unfold select_head, item_last. rewrite Hnone, Hlast. simpl.
    now rewrite label_index_before.
  - apply label_index_head_label_clean, before_clean.
Qed.

(** C4. When a rule without priority tags is tried (the rules before it
    ended without a head), it succeeds with the head index of the first
    child in its scan order, whatever that child's category: the last
    child for direction ['r'], the first child otherwise. The rule [S: r]
    on [(S (A x) (B y) (C z))] makes the third leaf the head. *)
Theorem empty_tags_select_extreme_child :
  (forall label ks ks' pre r post c,
    _is_leaf (Tree label ks) = false ->
    mapM (mark_heads_iterate head_rules) ks = Ok ks' ->
    head_rules !! label = Some (pre ++ r :: post) ->
    try_rules pre ks' = Ok None ->
    tags r = [] ->
    (if String.eqb (direction r) "r" then last ks' else head ks') = Some c ->
    exists index,
      head_index c = Ok index /\
      mark_heads_iterate head_rules (Tree label ks)
        = Ok (Tree (head_label index label) ks') /\
      head_index (Tree (head_label index label) ks') = Ok index) /\
  (exists rules,
    _load_head_rules ["S: r"] = Ok rules /\
    rules !! "S" = Some [Rule "r" []] /\
    __parse rules (Tree "S" [Tree "A" [Tok (PStr "x")];
                           Tree "B" [Tok (PStr "y")];
                           Tree "C" [Tok (PStr "z")]])
      = Ok [("1", Tok (PStr "x"), "A", PStr "3");
            ("2", Tok (PStr "y"), "B", PStr "3");
            ("3", Tok (PStr "z"), "C", PInt 0)]).
Proof.
  split.
  - intros label ks ks' pre r post c Hleaf Hks Hrules Hpre Htags Hc.
    pose proof (marked_children_trees _ _ _ Hks) as Htrees.
    rewrite <- head_scan in Hc.
    assert (Hsl : item0 (map parts (scan (direction r) ks')) = Ok (parts c)).
    { destruct (scan (direction r) ks') as [|c0 cs]; [discriminate|].
      simpl in Hc. now inversion Hc. }
    assert (Htc : is_tree c).
    { rewrite Forall_forall in Htrees. apply Htrees.
      assert (Hin : c ∈ scan (direction r) ks').
      { destruct (scan (direction r) ks') as [|c0 cs]; [discriminate|].
        simpl in Hc. inversion Hc. left. }
      unfold scan in Hin. destruct (String.eqb _ _); [|exact Hin].
      apply list_elem_of_In, in_rev, list_elem_of_In. exact Hin. }
    destruct c as [v|lc kc]; [contradiction|].
    exists (before "|"%char lc).
    split; [apply label_index_before|]. split.
    + apply mark_node_selected; try assumption.
      unfold select_head. rewrite Hrules, (try_rules_app _ _ _ Hpre). simpl.
      rewrite (sub_labels_of_scan _ _ Htrees), Htags. simpl.
      rewrite Hsl. simpl. now rewrite item0_split_on.
    + apply label_index_head_label_clean, before_clean.
  - eexists. split; [reflexivity|]. split; vm_compute; reflexivity.
Qed.

(** The search of a rule with tags, in its scan order. *)
Lemma first_match_in_scan label ks ks' pre r post tpre tag tpost cpre c cpost :
  _is_leaf (Tree label ks) = false ->
  mapM (mark_heads_iterate head_rules) ks = Ok ks' ->
  Forall (fun k => is_ok (category k) = true) ks' ->
  head_rules !! label = Some (pre ++ r :: post) ->
  try_rules pre ks' = Ok None ->
  tags r = tpre ++ tag :: tpost ->
  (forall t k, t ∈ tpre -> k ∈ ks' -> category k <> Ok t) ->
  scan (direction r) ks' = cpre ++ c :: cpost ->
  category c = Ok tag ->
  (forall k, k ∈ cpre -> category k <> Ok tag) ->
  exists index,
    head_index c = Ok index /\
    mark_heads_iterate head_rules (Tree label ks)
      = Ok (Tree (head_label index label) ks') /\
    head_index (Tree (head_label index label) ks') = Ok index.
Proof.
  intros Hleaf Hks Hcat Hrules Hpre Htags Htpre Hscan Hc Hcpre.
  pose proof (marked_children_trees _ _ _ Hks) as Htrees.
  assert (Hperm : forall k, k ∈ scan (direction r) ks' <-> k ∈ ks').
  { intros k. unfold scan. destruct (String.eqb _ _); [|reflexivity].
    rewrite !list_elem_of_In. symmetry. apply in_rev. }
  assert (Hscan_ok : forall k, k ∈ scan (direction r) ks' ->
            is_tree k /\ exists p, unpack2 (parts k) = Ok p /\ category k = Ok p.2).
  { intros k Hk. apply Hperm in Hk. rewrite Forall_forall in Htrees, Hcat.
    specialize (Htrees k Hk). specialize (Hcat k Hk). split; [assumption|].
    rewrite category_parts in * by assumption.
    destruct (unpack2 (parts k)) as [p|]; [|discriminate]. now exists p. }
  assert (Hpairs : exists pairs,
            mapM unpack2 (map parts (scan (direction r) ks')) = Ok pairs /\
            forall t, t ∈ map snd pairs <->
                      exists k, k ∈ scan (direction r) ks' /\ category k = Ok t).
  { apply unpack_children. intros k Hk. now apply Hscan_ok. }
  destruct Hpairs as (pairs & Hm & Hin).
  assert (Htc : is_tree c /\ exists p, unpack2 (parts c) = Ok p /\ category c = Ok p.2).
  { apply Hscan_ok. rewrite Hscan. apply elem_of_app. right. left. }
  destruct Htc as (Htc & [index tag'] & Hp & Hcp).
  rewrite Hc in Hcp. inversion Hcp; subst tag'. clear Hcp.
  exists index.
  assert (Hidx : head_index c = Ok index).
  { rewrite head_index_parts by assumption.
    destruct (parts c) as [|? [|? [|? ?]]]; try discriminate.
    now inversion Hp. }
  split; [exact Hidx|]. split.
  - apply mark_node_selected; try assumption.
    unfold select_head. rewrite Hrules, (try_rules_app _ _ _ Hpre). simpl.
    rewrite (sub_labels_of_scan _ _ Htrees), Htags. simpl bind.
    assert (Htry : try_tags (tpre ++ tag :: tpost) (map parts (scan (direction r) ks'))
                   = Ok (Some index)).
    { rewrite (try_tags_first tpre tag tpost _ pairs Hm).
      - rewrite Hscan, (next_index_first tag cpre c cpost index); [reflexivity| | |exact Hp].
        + apply Forall_forall. intros k Hk.
          destruct (Hscan_ok k) as (_ & p & Hpk & _).
          { rewrite Hscan. apply elem_of_app. now left. }
          now rewrite Hpk.
        + intros k Hk. rewrite <- category_parts; [now apply Hcpre|].
          apply Hscan_ok. rewrite Hscan. apply elem_of_app. now left.
      - intros t Ht Hmem. apply Hin in Hmem as (k & Hk & E).
        apply (Htpre t k); [assumption|now apply Hperm|assumption].
      - apply Hin. exists c. split; [|assumption].
        rewrite Hscan. apply elem_of_app. right. left. }
    destruct (tpre ++ tag :: tpost) as [|t0 ts] eqn:Et.
    { destruct tpre; discriminate. }
    now rewrite Htry.
  - apply label_index_head_label_clean. eapply head_index_clean, Hidx.
Qed.

(** A rule without tags takes the first child of its scan order. *)
Lemma first_child_in_scan label ks ks' pre r post c :
  _is_leaf (Tree label ks) = false ->
  mapM (mark_heads_iterate head_rules) ks = Ok ks' ->
  head_rules !! label = Some (pre ++ r :: post) ->
  try_rules pre ks' = Ok None ->
  tags r = [] ->
  head (scan (direction r) ks') = Some c ->
  exists index,
    head_index c = Ok index /\
    mark_heads_iterate head_rules (Tree label ks)
      = Ok (Tree (head_label index label) ks') /\
    head_index (Tree (head_label index label) ks') = Ok index.
Proof.
  intros Hleaf Hks Hrules Hpre Htags Hc.
  pose proof (marked_children_trees _ _ _ Hks) as Htrees.
  assert (Hin : c ∈ ks').
  { destruct (scan (direction r) ks') as [|c0 cs] eqn:Es; [discriminate|].
    simpl in Hc. inversion Hc; subst c0.
    assert (Hs : c ∈ scan (direction r) ks') by (rewrite Es; left).
    unfold scan in Hs. destruct (String.eqb _ _); [|exact Hs].
    apply list_elem_of_In, in_rev, list_elem_of_In. exact Hs. }
  assert (Hsl : item0 (map parts (scan (direction r) ks')) = Ok (parts c)).
  { destruct (scan (direction r) ks') as [|c0 cs]; [discriminate|].
    simpl in Hc. now inversion Hc. }
  rewrite Forall_forall in Htrees. pose proof (Htrees c Hin) as Htc.
  destruct c as [v|lc kc]; [contradiction|].
  exists (before "|"%char lc).
  split; [apply label_index_before|]. split.
  - apply mark_node_selected; try assumption.
    unfold select_head. rewrite Hrules, (try_rules_app _ _ _ Hpre). simpl.
    rewrite (sub_labels_of_scan _ _ (proj2 (Forall_forall _ _) Htrees)), Htags. simpl.
    rewrite Hsl. simpl. now rewrite item0_split_on.
  - apply label_index_head_label_clean, before_clean.
Qed.


End HeadRules.


(** ** Direction tokens *)

Section Directions.
Import Convertor.

Lemma sub_labels_of_normalize r ks :
  sub_labels_of (normalize r) ks = sub_labels_of r ks.
Proof.
  unfold sub_labels_of, normalize.
  destruct (String.eqb (direction r) "r") eqn:E; simpl; now rewrite ?E.
Qed.

Lemma tags_normalize r : tags (normalize r) = tags r.
Proof. unfold normalize. now destruct (String.eqb _ _). Qed.

Lemma try_rules_normalize rules ks :
  try_rules (map normalize rules) ks = try_rules rules ks.
Proof.
  induction rules as [|r rules IH]; simpl; [reflexivity|].
  rewrite sub_labels_of_normalize, tags_normalize.
  destruct (sub_labels_of r ks) as [sls|e]; simpl; [|reflexivity].
  destruct (tags r); [reflexivity|].
  destruct (try_tags _ _) as [[i|]|e]; simpl; auto.
Qed.

Lemma select_head_normalize (head_rules : table) label ks :
  select_head (map normalize <$> head_rules) label ks = select_head head_rules label ks.
Proof.
  unfold select_head. rewrite lookup_fmap.
  destruct (head_rules !! label) as [rules|]; simpl; [|reflexivity].
  apply try_rules_normalize.
Qed.

Lemma mark_heads_iterate_normalize (head_rules : table) t :
  mark_heads_iterate (map normalize <$> head_rules) t = mark_heads_iterate head_rules t.
Proof.
  induction t as [v|label ks IH] using tree_ind'; [reflexivity|].
  rewrite !mark_heads_iterate_eq.
  destruct (_is_leaf _); [reflexivity|].
  rewrite (mapM_ext _ _ _ IH).
  destruct (mapM _ ks) as [ks'|e]; simpl; [|reflexivity].
  now rewrite select_head_normalize.
Qed.

Lemma scan_left d (ks : list tree) : d <> "r" -> scan d ks = ks.
Proof.
  intros Hd. unfold scan. destruct (String.eqb_spec d "r"); [contradiction|reflexivity].
Qed.

Lemma scan_right (ks : list tree) : scan "r" ks = rev ks.
Proof. reflexivity. Qed.

Lemma trees_or_not (ks : list tree) : Forall is_tree ks \/ ~ Forall is_tree ks.
Proof.
  induction ks as [|k ks [IH|IH]].
  - left. constructor.
  - destruct k as [v|l kk].
    + right. intros H. inversion H; subst. contradiction.
    + left. constructor; [exact I|exact IH].
  - right. intros H. inversion H; subst. contradiction.
Qed.

Lemma sub_labels_of_token r ks :
  ~ Forall is_tree ks -> sub_labels_of r ks = Raise AttributeError.
Proof.
  intros Hn. unfold sub_labels_of.
  assert (E : mapM (fun t => l <- label_of t ;; Ok (split_on "|"%char l)) ks
              = Raise AttributeError).
  { induction ks as [|k ks IH]; [elim Hn; constructor|].
    destruct k as [v|l kk]; [reflexivity|]. simpl.
    rewrite IH; [reflexivity|]. intros H. apply Hn. constructor; [exact I|exact H]. }
  now rewrite E.
Qed.

Lemma scan_trees d (ks : list tree) : Forall is_tree (scan d ks) <-> Forall is_tree ks.
Proof.
  unfold scan. destruct (String.eqb d "r"); [|reflexivity].
  rewrite !Forall_forall. split; intros H k Hk; apply H.
  - apply list_elem_of_In, in_rev. rewrite rev_involutive. now apply list_elem_of_In.
  - apply list_elem_of_In, in_rev, list_elem_of_In. exact Hk.
Qed.

(** A rule reads the children as the rule with ['l'] reads them in the
    scan order. *)
Lemma sub_labels_of_scanned d tgs ks :
  sub_labels_of (Rule d tgs) ks = sub_labels_of (Rule "l" tgs) (scan d ks).
Proof.
  destruct (trees_or_not ks) as [H|H].
  - rewrite (sub_labels_of_scan _ _ H).
    now rewrite (sub_labels_of_scan _ _ (proj2 (scan_trees d ks) H)).
  - rewrite (sub_labels_of_token _ _ H). symmetry. apply sub_labels_of_token.
    now rewrite scan_trees.
Qed.

Lemma try_rule_scanned d tgs ks :
  try_rules [Rule d tgs] ks = try_rules [Rule "l" tgs] (scan d ks).
Proof.
  cbn [try_rules tags]. now rewrite sub_labels_of_scanned.
Qed.

(** C10. Only the direction token ['r'] reverses the scan. A rule with
    tags whose direction is any other token, ['l'] or one that is no
    direction at all, takes for its first tag that is the category of a
    child the leftmost child of that category; with ['r'] it takes the
    rightmost. A rule without tags takes the first child with any token
    but ['r'], and the last child with ['r']. In every case, exceptions
    included, a rule searches the children as the same rule with ['l']
    searches them in the scan order, which is their order but for ['r'],
    where it is the reverse. With any other token head
    marking gives what it gives with ['l'] in its place. The loader
    stores such a token as it finds it: with the line [S: right B] the
    first [B] of [(S (B x) (A y) (B z))] is the head, with [S: r B] the
    last. *)
Theorem only_r_scans_right_to_left :
  (forall (head_rules : table) label ks ks' pre r post tpre tag tpost cpre c cpost,
     direction r <> "r" ->
     _is_leaf (Tree label ks) = false ->
     mapM (mark_heads_iterate head_rules) ks = Ok ks' ->
     Forall (fun k => is_ok (category k) = true) ks' ->
     head_rules !! label = Some (pre ++ r :: post) ->
     try_rules pre ks' = Ok None ->
     tags r = tpre ++ tag :: tpost ->
     (forall t k, t ∈ tpre -> k ∈ ks' -> category k <> Ok t) ->
     ks' = cpre ++ c :: cpost ->
     category c = Ok tag ->
     (forall k, k ∈ cpre -> category k <> Ok tag) ->
     exists index,
       head_index c = Ok index /\
       mark_heads_iterate head_rules (Tree label ks)
         = Ok (Tree (head_label index label) ks')) /\
  (forall (head_rules : table) label ks ks' pre r post tpre tag tpost cpre c cpost,
     direction r = "r" ->
     _is_leaf (Tree label ks) = false ->
     mapM (mark_heads_iterate head_rules) ks = Ok ks' ->
     Forall (fun k => is_ok (category k) = true) ks' ->
     head_rules !! label = Some (pre ++ r :: post) ->
     try_rules pre ks' = Ok None ->
     tags r = tpre ++ tag :: tpost ->
     (forall t k, t ∈ tpre -> k ∈ ks' -> category k <> Ok t) ->
     ks' = cpre ++ c :: cpost ->
     category c = Ok tag ->
     (forall k, k ∈ cpost -> category k <> Ok tag) ->
     exists index,
       head_index c = Ok index /\
       mark_heads_iterate head_rules (Tree label ks)
         = Ok (Tree (head_label index label) ks')) /\
  (forall (head_rules : table) label ks ks' pre r post c,
     _is_leaf (Tree label ks) = false ->
     mapM (mark_heads_iterate head_rules) ks = Ok ks' ->
     head_rules !! label = Some (pre ++ r :: post) ->
     try_rules pre ks' = Ok None ->
     tags r = [] ->
     (direction r <> "r" /\ head ks' = Some c) \/
     (direction r = "r" /\ last ks' = Some c) ->
     exists index,
       head_index c = Ok index /\
       mark_heads_iterate head_rules (Tree label ks)
         = Ok (Tree (head_label index label) ks')) /\
  (forall d tgs ks,
     try_rules [Rule d tgs] ks = try_rules [Rule "l" tgs] (scan d ks)) /\
  (forall (head_rules : table) t,
     __mark_heads (map normalize <$> head_rules) t = __mark_heads head_rules t) /\
  (exists rules_right rules_r,
     _load_head_rules ["S: right B"] = Ok rules_right /\
     rules_right !! "S" = Some [Rule "right" ["B"]] /\
     _load_head_rules ["S: r B"] = Ok rules_r /\
     rules_r !! "S" = Some [Rule "r" ["B"]] /\
     __parse rules_right (Tree "S" [Tree "B" [Tok (PStr "x")];
                                    Tree "A" [Tok (PStr "y")];
                                    Tree "B" [Tok (PStr "z")]])
       = Ok [("1", Tok (PStr "x"), "B", PInt 0);
             ("2", Tok (PStr "y"), "A", PStr "1");
             ("3", Tok (PStr "z"), "B", PStr "1")] /\
     __parse rules_r (Tree "S" [Tree "B" [Tok (PStr "x")];
                                Tree "A" [Tok (PStr "y")];
                                Tree "B" [Tok (PStr "z")]])
       = Ok [("1", Tok (PStr "x"), "B", PStr "3");
             ("2", Tok (PStr "y"), "A", PStr "3");
             ("3", Tok (PStr "z"), "B", PInt 0)]).
Proof.
  split; [|split; [|split; [|split; [|split]]]].
  - intros head_rules label ks ks' pre r post tpre tag tpost cpre c cpost
      Hd Hleaf Hks Hcat Hrules Hpre Htags Htpre Hsplit Hc Hcpre.
    destruct (first_match_in_scan head_rules label ks ks' pre r post
                tpre tag tpost cpre c cpost) as (index & H1 & H2 & _);
      try assumption.
    + now rewrite (scan_left _ _ Hd).
    + now exists index.
  - intros head_rules label ks ks' pre r post tpre tag tpost cpre c cpost
      Hd Hleaf Hks Hcat Hrules Hpre Htags Htpre Hsplit Hc Hcpost.
    destruct (first_match_in_scan head_rules label ks ks' pre r post
                tpre tag tpost (rev cpost) c (rev cpre)) as (index & H1 & H2 & _);
      try assumption.
    + rewrite Hd, scan_right, Hsplit, rev_app_distr. simpl.
      now rewrite <- app_assoc.
    + intros k Hk. apply Hcpost.
      apply list_elem_of_In, in_rev, list_elem_of_In. exact Hk.
    + now exists index.
  - intros head_rules label ks ks' pre r post c Hleaf Hks Hrules Hpre Htags Hc.
    destruct (first_child_in_scan head_rules label ks ks' pre r post c)
      as (index & H1 & H2 & _); try assumption.
    + destruct Hc as [[Hd Hc]|[Hd Hc]].
      * now rewrite (scan_left _ _ Hd).
      * now rewrite Hd, scan_right, head_rev.
    + now exists index.
  - apply try_rule_scanned.
  - intros head_rules t. apply mark_heads_iterate_normalize.
  - eexists. eexists. split; [reflexivity|]. split; [vm_compute; reflexivity|].
    split; [reflexivity|]. split; [vm_compute; reflexivity|].
    split; vm_compute; reflexivity.
Qed.

End Directions.

(** ** Loading the rules *)

Lemma split_on_before_after c s :
  split_on c s
  = before c s :: (if contains c s then split_on c (after c s) else []).
Proof.
  induction s as [|a s IH]; simpl; [reflexivity|].
  destruct (Ascii.eqb a c); simpl; [reflexivity|].
  rewrite IH. reflexivity.
Qed.

Lemma count_char_contains c s : contains c s = negb (count_char c s =? 0).
Proof.
  induction s as [|a s IH]; simpl; [reflexivity|].
  destruct (Ascii.eqb a c); simpl; [reflexivity|exact IH].
Qed.

Lemma count_char_after c s :
  contains c s = true -> count_char c s = S (count_char c (after c s)).
Proof.
  induction s as [|a s IH]; simpl; [discriminate|].
  destruct (Ascii.eqb a c); simpl; [reflexivity|exact IH].
Qed.

Lemma split_colon line :
  match split_on ":"%char line with
  | [tag; rule] =>
      count_char ":" line = 1 /\ tag = line_tag line /\ rule = after ":"%char line
  | _ => count_char ":" line <> 1
  end.
Proof.
  rewrite split_on_before_after.
  destruct (contains ":" line) eqn:Hc.
  - rewrite (count_char_after _ _ Hc), split_on_before_after.
    destruct (contains ":" (after ":" line)) eqn:Hc'.
    + rewrite (count_char_after _ _ Hc').
      rewrite (split_on_before_after _ (after _ (after _ line))). lia.
    + rewrite count_char_contains in Hc'. apply negb_false_iff, Nat.eqb_eq in Hc'.
      rewrite (before_absent _ (after ":" line))
        by (rewrite count_char_contains, Hc'; reflexivity).
      now rewrite Hc'.
  - rewrite count_char_contains in Hc. apply negb_false_iff, Nat.eqb_eq in Hc. lia.
Qed.

Lemma sub_rules_of_pieces (wss : list (list string)) :
  mapM sub_rule_of wss =
  if forallb (fun ws => negb (bool_decide (ws = []))) wss
  then Ok (map (fun ws => Rule (default EmptyString (head ws)) (tail ws)) wss)
  else Raise IndexError.
Proof.
  induction wss as [|ws wss IH]; simpl; [reflexivity|].
  destruct ws as [|w ws]; simpl; [reflexivity|].
  rewrite IH. now destruct (forallb _ wss).
Qed.

Lemma forallb_fmap {A B} (f : B -> bool) (g : A -> B) l :
  forallb f (map g l) = forallb (fun x => f (g x)) l.
Proof. induction l as [|x l IH]; simpl; [reflexivity|]. now rewrite IH. Qed.

Lemma load_line_spec (rules : table) line :
  load_line rules line =
  if line_ok line then Ok (<[line_tag line := line_rules line]> rules)
  else Raise (if count_char ":" line =? 1 then IndexError else ValueError).
Proof.
  unfold load_line, line_ok, line_rules. pose proof (split_colon line) as H.
  destruct (split_on ":" line) as [|tag [|rule [|? ?]]].
  - apply Nat.eqb_neq in H. now rewrite H.
  - apply Nat.eqb_neq in H. now rewrite H.
  - destruct H as (-> & -> & ->). simpl.
    rewrite sub_rules_of_pieces, forallb_fmap.
    now destruct (forallb _ _).
  - apply Nat.eqb_neq in H. now rewrite H.
Qed.

(** The table after the loop has run over [lines]. *)
Lemma load_lines_ok lines : forall rules : table,
  forallb line_ok lines = true ->
  foldM load_line rules lines
  = Ok (fold_left (fun T line => <[line_tag line := line_rules line]> T) lines rules).
Proof.
  induction lines as [|line lines IH]; intros rules H; simpl; [reflexivity|].
  simpl in H. apply andb_true_iff in H as [Hl Hls].
  rewrite load_line_spec, Hl. simpl. now apply IH.
Qed.

Lemma load_lines_fail lines : forall rules : table,
  forallb line_ok lines = false ->
  is_ok (foldM load_line rules lines) = false.
Proof.
  induction lines as [|line lines IH]; intros rules H; simpl; [discriminate|].
  simpl in H. rewrite load_line_spec.
  destruct (line_ok line); simpl; [now apply IH|reflexivity].
Qed.

Lemma lookup_loaded lines : forall (rules : table) tag,
  fold_left (fun T line => <[line_tag line := line_rules line]> T) lines rules !! tag
  = match last (filter (fun l => line_tag l = tag) lines) with
    | Some l => Some (line_rules l)
    | None => rules !! tag
    end.
Proof.
  induction lines as [|line lines IH]; intros rules tag; simpl; [reflexivity|].
  rewrite IH, filter_cons.
  destruct (decide (line_tag line = tag)) as [E|E].
  - destruct (filter _ lines) as [|l ls] eqn:F; simpl.
    + rewrite E. apply lookup_insert_eq.
    + change (last (line :: l :: ls)) with (last (l :: ls)).
      destruct (last (l :: ls)) eqn:L; [reflexivity|].
      apply last_None in L. discriminate.
  - destruct (last (filter _ lines)); [reflexivity|].
    now apply lookup_insert_ne.
Qed.

(** C8 does not hold as it is stated: a rule whose first token is no
    direction is loaded like any other. *)
Lemma unknown_direction_is_loaded :
  is_ok (_load_head_rules ["S: up VP"]) = true /\
  exists rules,
    _load_head_rules ["S: up VP"] = Ok rules /\
    rules !! "S" = Some [Rule "up" ["VP"]].
Proof.
  split; [reflexivity|]. eexists. split; [reflexivity|]. vm_compute. reflexivity.
Qed.

(** C8, amended. Loading fails exactly when some line does not have
    exactly one [':'] or lists a rule without any token; so it fails on a
    line that lacks the separator, and on no direction token. A table
    that has been loaded maps each category to the rules, in their order,
    of the last line of that category. *)
Theorem load_head_rules_spec lines :
  is_ok (_load_head_rules lines) = forallb line_ok lines /\
  (forall line, line ∈ lines -> contains ":" line = false ->
     is_ok (_load_head_rules lines) = false) /\
  (forall rules tag, _load_head_rules lines = Ok rules ->
     rules !! tag
     = line_rules <$> last (filter (fun l => line_tag l = tag) lines)).
Proof.
  assert (Hok : is_ok (_load_head_rules lines) = forallb line_ok lines).
  { unfold _load_head_rules. destruct (forallb line_ok lines) eqn:E.
    - now rewrite load_lines_ok.
    - now apply load_lines_fail. }
  split; [exact Hok|]. split.
  - intros line Hin Hc. rewrite Hok. apply not_true_iff_false. intros Hall.
    rewrite forallb_forall in Hall. specialize (Hall line).
    rewrite <- list_elem_of_In in Hall. specialize (Hall Hin).
    unfold line_ok in Hall. apply andb_true_iff in Hall as [H1 _].
    apply Nat.eqb_eq in H1. rewrite count_char_contains, H1 in Hc. discriminate.
  - intros rules tag Hload.
    assert (Hall : forallb line_ok lines = true).
    { rewrite <- Hok, Hload. reflexivity. }
    unfold _load_head_rules in Hload. rewrite (load_lines_ok _ _ Hall) in Hload.
    inversion Hload; subst rules. rewrite lookup_loaded.
    destruct (last _); reflexivity.
Qed.

(** ** Preprocessing *)

Lemma valid_inv l ks :
  valid (Tree l ks) = true ->
  (exists s, ks = [Tok (PStr s)]) \/
  (ks <> [] /\ forallb valid ks = true /\ leaves (Tree l ks) = flat_map leaves ks).
Proof.
  destruct ks as [|k ks]; [discriminate|].
  destruct k as [[s|n]|lk kk].
  - destruct ks; [eauto|discriminate].
  - destruct ks; discriminate.
  - intros H. right. split; [discriminate|]. split; [exact H|reflexivity].
Qed.

Lemma valid_height t : valid t = true -> 2 <= height t.
Proof.
  destruct t as [v|l ks]; [discriminate|]. intros H.
  apply valid_inv in H as [(s & ->)|(Hne & Hall & _)]; [simpl; lia|].
  destruct ks as [|k ks]; [contradiction|]. simpl in *.
  apply andb_true_iff in Hall as [Hk _].
  destruct k as [v|lk kk]; [discriminate|]. simpl. lia.
Qed.

Lemma valid_node_not_leaf l ks :
  ks <> [] -> forallb valid ks = true -> _is_leaf (Tree l ks) = false.
Proof.
  intros Hne Hall. destruct ks as [|k ks]; [contradiction|].
  simpl in Hall. apply andb_true_iff in Hall as [Hk _].
  apply valid_height in Hk. unfold _is_leaf. apply Nat.eqb_neq. simpl. lia.
Qed.

Lemma preprosess_iterate_eq l ks i :
  preprosess_iterate (Tree l ks) i =
  (label' <- clean l ;;
   if _is_leaf (Tree l ks) then
     tok <- item0 ks ;;
     Ok (Tree label' (<[0 := Tok (PInt i)]> ks), [(label', tok)])
   else
     r <- preprosess_loop preprosess_iterate ks i ;;
     Ok (Tree label' r.1, r.2)).
Proof. reflexivity. Qed.

Lemma numbered_tree i n t : numbered i n t -> is_tree t.
Proof. now destruct 1. Qed.

Lemma preprosess_valid t :
  valid t = true ->
  forall i, exists t1,
    preprosess_iterate t i = Ok (t1, map item_of (leaves t)) /\
    numbered i (length (leaves t)) t1 /\
    shape t1 = shape t.
Proof.
  induction t as [v|l ks IH] using tree_ind'; [discriminate|].
  intros Hv i. rewrite preprosess_iterate_eq, clean_strip. simpl bind.
  apply valid_inv in Hv as [(s & ->)|(Hne & Hall & Hleaves)].
  - exists (Tree (strip l) [Tok (PInt i)]). repeat split. constructor.
  - rewrite (valid_node_not_leaf _ _ Hne Hall), Hleaves.
    assert (Hloop : forall i, exists ks1,
              preprosess_loop preprosess_iterate ks i
                = Ok (ks1, map item_of (flat_map leaves ks)) /\
              numbered_list i (length (flat_map leaves ks)) ks1 /\
              map shape ks1 = map shape ks).
    { clear Hne Hleaves. induction IH as [|k ks Hk _ IHks]; intros j.
      - exists []. repeat split. constructor.
      - simpl in Hall. apply andb_true_iff in Hall as [Hvk Hvks].
        destruct (Hk Hvk j) as (k1 & Ek & Nk & Sk).
        destruct (IHks Hvks (j + length (leaves k))) as (ks1 & Eks & Nks & Sks).
        exists (k1 :: ks1). simpl. rewrite Ek. simpl.
        rewrite length_map, Eks. simpl.
        rewrite map_app, length_app, Sk, Sks. repeat split.
        now constructor. }
    destruct (Hloop i) as (ks1 & E & N & S). rewrite E. simpl.
    exists (Tree (strip l) ks1). repeat split.
    + destruct ks1 as [|k1 ks1].
      * destruct ks; [contradiction|discriminate].
      * now constructor.
    + simpl. now rewrite S.
Qed.

Lemma numbered_leaves :
  (forall i n t, numbered i n t -> map snd (leaves t) = map PInt (seq i n)) /\
  (forall i n ks, numbered_list i n ks ->
     map snd (flat_map leaves ks) = map PInt (seq i n)).
Proof.
  apply numbered_mutind.
  - reflexivity.
  - intros i n l k ks Hks IH.
    inversion Hks as [|? ? ? ? ? Hk _]; subst.
    apply numbered_tree in Hk. destruct k; [contradiction|]. exact IH.
  - reflexivity.
  - intros i n m k ks _ IHk _ IHks. simpl.
    now rewrite map_app, IHk, IHks, seq_app, map_app.
Qed.

(** C6 does not hold as it is stated: the category that is returned for a
    leaf is the cleaned one, not the original. *)
Lemma yielded_category_is_cleaned :
  let t := Tree "NN-SHORT" [Tok (PStr "dog")] in
  valid t = true /\
  leaves t = [("NN-SHORT", PStr "dog")] /\
  (r <- _preprosess t ;; Ok r.2) = Ok [("NN", Tok (PStr "dog"))] /\
  (r <- _preprosess t ;; Ok r.2)
    <> Ok (map (fun leaf : string * pyval => (leaf.1, Tok leaf.2)) (leaves t)).
Proof. repeat split. discriminate. Qed.

(** C6, amended. On a tree of the data model with N leaves,
    [_preprosess] returns a tree of the same shape whose leaves hold, from
    left to right, the integers 1 to N, and the sequence, in the same
    order, of the pairs made of a leaf's category without its suffix
    after ['-'] and its original token. *)
Theorem preprosess_numbers_leaves t :
  valid t = true ->
  exists t1,
    _preprosess t = Ok (t1, map item_of (leaves t)) /\
    shape t1 = shape t /\
    map snd (leaves t1) = map PInt (seq 1 (length (leaves t))).
Proof.
  intros Hv. destruct (preprosess_valid t Hv 1) as (t1 & E & N & S).
  exists t1. split; [exact E|]. split; [exact S|].
  now apply numbered_leaves in N.
Qed.

(** ** Head marking of numbered trees *)

Section MarkNumbered.
Import Convertor.
Variable head_rules : table.

Lemma resolved_eq label ks :
  resolved head_rules (Tree label ks) =
  _is_leaf (Tree label ks) ||
  (forallb (resolved head_rules) ks &&
   match mapM (mark_heads_iterate head_rules) ks with
   | Ok ks' =>
       match select_head head_rules label ks' with
       | Ok (Some _) => true
       | _ => false
       end
   | Raise _ => false
   end).
Proof. reflexivity. Qed.

Lemma sub_labels_of_children r ks sls :
  sub_labels_of r ks = Ok sls ->
  forall sl, sl ∈ sls -> exists c, c ∈ ks /\ is_tree c /\ parts c = sl.
Proof.
  intros H.
  assert (Htrees : Forall is_tree ks).
  { unfold sub_labels_of in H. apply bind_ok in H as (ls & Hls & _).
    apply mapM_ok in Hls. clear -Hls.
    induction Hls as [|k l ks ls Hk _ IH]; constructor; [|exact IH].
    now destruct k. }
  rewrite (sub_labels_of_scan _ _ Htrees) in H. inversion H; subst sls.
  intros sl Hin. apply list_elem_of_fmap in Hin as (c & -> & Hc).
  exists c. split; [|split; [|reflexivity]].
  - unfold scan in Hc. destruct (String.eqb _ _); [|exact Hc].
    apply list_elem_of_In, in_rev, list_elem_of_In. exact Hc.
  - rewrite Forall_forall in Htrees. apply Htrees.
    unfold scan in Hc. destruct (String.eqb _ _); [|exact Hc].
    apply list_elem_of_In, in_rev, list_elem_of_In. exact Hc.
Qed.

Lemma next_index_some tag sls index :
  next_index tag sls = Ok index -> exists sl, sl ∈ sls /\ item0 sl = Ok index.
Proof.
  induction sls as [|sl sls IH]; simpl; [discriminate|].
  intros H. apply bind_ok in H as ([i t] & Hu & H). simpl in H.
  destruct (String.eqb tag t).
  - inversion H; subst i. exists sl. split; [left|].
    destruct sl as [|? [|? [|? ?]]]; try discriminate. now inversion Hu.
  - destruct (IH H) as (sl' & Hin & E). exists sl'. split; [now right|exact E].
Qed.

Lemma try_tags_some tgs sls index :
  try_tags tgs sls = Ok (Some index) -> exists sl, sl ∈ sls /\ item0 sl = Ok index.
Proof.
  induction tgs as [|tag tgs IH]; simpl; [discriminate|].
  intros H. apply bind_ok in H as (pairs & _ & H).
  destruct (bool_decide _); [|exact (IH H)].
  apply bind_ok in H as (i & Hn & [= <-]). eapply next_index_some, Hn.
Qed.

Lemma try_rules_some rules ks index :
  try_rules rules ks = Ok (Some index) ->
  exists c, c ∈ ks /\ head_index c = Ok index.
Proof.
  induction rules as [|r rules IH]; simpl; [discriminate|].
  intros H. apply bind_ok in H as (sls & Hsls & H).
  assert (Hchild : forall sl, sl ∈ sls -> item0 sl = Ok index ->
            exists c, c ∈ ks /\ head_index c = Ok index).
  { intros sl Hin E.
    destruct (sub_labels_of_children _ _ _ Hsls sl Hin) as (c & Hc & Ht & <-).
    exists c. split; [exact Hc|]. now rewrite head_index_parts. }
  destruct (tags r) as [|tg tgs].
  - apply bind_ok in H as (sl & Hsl & H). apply bind_ok in H as (i & Hi & [= <-]).
    apply (Hchild sl); [|exact Hi].
    destruct sls as [|sl0 sls]; [discriminate|]. inversion Hsl. left.
  - apply bind_ok in H as ([i|] & Ht & H).
    + inversion H; subst i. apply try_tags_some in Ht as (sl & Hin & E). eauto.
    + exact (IH H).
Qed.

(** The head selected for a phrase is the head of one of its children. *)
Lemma select_head_child label ks index :
  select_head head_rules label ks = Ok (Some index) ->
  exists c, c ∈ ks /\ head_index c = Ok index.
Proof.
  unfold select_head. destruct (head_rules !! label) as [rules|].
  - apply try_rules_some.
  - intros H. apply bind_ok in H as (c & Hc & H). exists c. split.
    + unfold item_last in Hc. destruct (last ks) as [c'|] eqn:L; [|discriminate].
      inversion Hc; subst c'. rewrite last_lookup in L.
      eapply list_elem_of_lookup_2, L.
    + unfold head_index. apply bind_ok in H as (l & -> & H). simpl.
      apply bind_ok in H as (i & -> & [= <-]). reflexivity.
Qed.

Lemma marked_head_index i n h t : marked i n h t -> head_index t = Ok (str_of_int h).
Proof. destruct 1; apply label_index_head_label. Qed.

Lemma marked_list_head_index i n hs ks :
  marked_list i n hs ks ->
  forall c index, c ∈ ks -> head_index c = Ok index ->
  exists h, h ∈ hs /\ index = str_of_int h.
Proof.
  induction 1 as [|i n m h hs k ks Hk _ IH]; intros c index Hin E.
  - inversion Hin.
  - apply elem_of_cons in Hin as [->|Hin].
    + exists h. split; [left|]. rewrite (marked_head_index _ _ _ _ Hk) in E.
      now inversion E.
    + destruct (IH c index Hin E) as (h' & Hh' & ->). exists h'. split; [now right|reflexivity].
Qed.

Lemma tree_height t : is_tree t -> 1 <= height t.
Proof. destruct t; [contradiction|]. simpl. lia. Qed.

Lemma node_not_leaf l k ks : 2 <= height k -> _is_leaf (Tree l (k :: ks)) = false.
Proof. intros H. unfold _is_leaf. apply Nat.eqb_neq. simpl. lia. Qed.

Lemma numbered_height i n t : numbered i n t -> 2 <= height t.
Proof.
  destruct 1 as [i l|i n l k ks Hks]; [simpl; lia|].
  inversion Hks as [|? ? ? ? ? Hk _]; subst.
  apply numbered_tree, tree_height in Hk. simpl. lia.
Qed.

Lemma mark_numbered :
  (forall i n t, numbered i n t -> resolved head_rules t = true ->
     exists t2 h, mark_heads_iterate head_rules t = Ok t2 /\ marked i n h t2) /\
  (forall i n ks, numbered_list i n ks -> forallb (resolved head_rules) ks = true ->
     exists ks2 hs, mapM (mark_heads_iterate head_rules) ks = Ok ks2 /\
                    marked_list i n hs ks2).
Proof.
  apply numbered_mutind.
  - intros i l _. exists (Tree (head_label (str_of_int i) l) [Tok (PInt i)]), i.
    split; [reflexivity|constructor].
  - intros i n l k ks Hks IH Hres.
    assert (Hleaf : _is_leaf (Tree l (k :: ks)) = false).
    { inversion Hks as [|? ? ? ? ? Hk _]; subst.
      eapply node_not_leaf, numbered_height, Hk. }
    rewrite resolved_eq, Hleaf, orb_false_l in Hres.
    apply andb_true_iff in Hres as [Hall Hsel].
    destruct (IH Hall) as (ks2 & hs & E & M). rewrite E in Hsel.
    destruct (select_head head_rules l ks2) as [[index|]|] eqn:S; try discriminate.
    destruct (select_head_child _ _ _ S) as (c & Hc & Hi).
    destruct (marked_list_head_index _ _ _ _ M c index Hc Hi) as (h & Hh & ->).
    exists (Tree (head_label (str_of_int h) l) ks2), h. split.
    + now apply mark_node_selected.
    + econstructor; eassumption.
  - intros i _. exists [], []. split; [reflexivity|constructor].
  - intros i n m k ks _ IHk _ IHks Hall. simpl in Hall.
    apply andb_true_iff in Hall as [Hk Hks].
    destruct (IHk Hk) as (k2 & h & Ek & Mk).
    destruct (IHks Hks) as (ks2 & hs & Eks & Mks).
    exists (k2 :: ks2), (h :: hs). split.
    + simpl. now rewrite Ek, Eks.
    + now constructor.
Qed.

End MarkNumbered.

(** ** Relations below a marked node *)

Lemma walk_mono ar ar' h d path :
  (forall r, r ∈ ar -> r ∈ ar') -> walk ar h d path -> walk ar' h d path.
Proof.
  intros Hsub. induction 1 as [|d p path Hin _ IH]; [constructor|].
  econstructor; [apply Hsub, Hin|exact IH].
Qed.

Lemma walk_snoc ar x h d path :
  walk ar x d path -> (x, h) ∈ ar -> walk ar h d (path ++ [x]).
Proof.
  intros Hw Hin. induction Hw as [|d p path Hdp _ IH]; simpl.
  - econstructor; [exact Hin|constructor].
  - econstructor; [exact Hdp|exact IH].
Qed.

Lemma in_span_seq i n x : x ∈ seq i n <-> in_span i n x.
Proof. apply elem_of_seq. Qed.

Lemma good_span i n h ar : good i n h ar -> in_span i n h.
Proof.
  intros [Hp _ _]. apply in_span_seq. rewrite <- Hp. left.
Qed.

Lemma in_span_left i n m x : in_span i n x -> in_span i (n + m) x.
Proof. unfold in_span. lia. Qed.

Lemma in_span_right i n m x : in_span (i + n) m x -> in_span i (n + m) x.
Proof. unfold in_span. lia. Qed.

Lemma in_span_split i n m x :
  in_span i (n + m) x -> in_span i n x \/ in_span (i + n) m x.
Proof. unfold in_span. lia. Qed.

Lemma marked_spans :
  (forall i n h t, marked i n h t -> in_span i n h) /\
  (forall i n hs ks, marked_list i n hs ks -> Forall (in_span i n) hs).
Proof.
  apply marked_mutind.
  - intros. unfold in_span. lia.
  - intros i n h hs l ks _ IH Hh. rewrite Forall_forall in IH. now apply IH.
  - constructor.
  - intros i n m h hs k ks _ Hh _ Hhs. constructor.
    + now apply in_span_left.
    + eapply Forall_impl; [exact Hhs|]. intros x. apply in_span_right.
Qed.

Ltac split6 := split; [|split; [|split; [|split; [|split]]]].

Lemma good_leaf i : good i 1 i [].
Proof.
  split.
  - reflexivity.
  - constructor.
  - intros d Hd. exists []. assert (d = i) as -> by (unfold in_span in Hd; lia).
    split; [constructor|]. split; [constructor|]. split; [inversion 1|].
    split; [constructor|]. simpl. lia.
Qed.

Lemma good_list_nil i h : good_list i 0 [] h [].
Proof.
  split.
  - simpl. destruct (decide (h ∈ [])) as [Hin|_]; [inversion Hin|reflexivity].
  - constructor.
  - intros d Hd. unfold in_span in Hd. lia.
Qed.

Lemma good_of_list i n hs h ar :
  good_list i n hs h ar -> h ∈ hs -> Forall (in_span i n) hs -> good i n h ar.
Proof.
  intros [Hp Hh Hw] Hin Hspan.
  assert (Hhs : in_span i n h) by (rewrite Forall_forall in Hspan; now apply Hspan).
  split.
  - rewrite decide_True in Hp by assumption.
    rewrite <- Hp. apply Permutation_cons_append.
  - eapply Forall_impl; [exact Hh|]. intros r [->|Hr]; assumption.
  - intros d Hd. destruct (Hw d Hd) as (path & W & ND & Hn & Hf & _ & Hlt).
    exists path. split; [|split; [|split; [|split]]]; auto.
Qed.

Lemma good_list_cons i n m h0 hs h ar_k ar_s :
  good i n h0 ar_k ->
  good_list (i + n) m hs h ar_s ->
  Forall (in_span (i + n) m) hs ->
  (h ∈ h0 :: hs \/ ~ in_span i (n + m) h) ->
  good_list i (n + m) (h0 :: hs) h
    ((if bool_decide (h0 = h) then [] else [(h0, h)]) ++ ar_k ++ ar_s).
Proof.
  intros Gk Gs Hspan Hcond.
  pose proof (good_span _ _ _ _ Gk) as Hh0.
  destruct Gk as [Pk Hk Wk]. destruct Gs as [Ps Hs Ws].
  rewrite Forall_forall in Hspan.
  assert (Hn : 1 <= n) by (unfold in_span in Hh0; lia).
  assert (Hhs : h ∈ hs -> in_span (i + n) m h) by apply Hspan.
  assert (Hnot_k : h0 <> h -> ~ in_span i n h).
  { intros Hne Hin. destruct Hcond as [Hc|Hc].
    - apply elem_of_cons in Hc as [->|Hc]; [congruence|].
      apply Hhs in Hc. unfold in_span in *. lia.
    - apply Hc. now apply in_span_left. }
  split.
  - rewrite seq_app, !map_app.
    destruct (bool_decide_reflect (h0 = h)) as [->|Hne].
    + rewrite decide_True by left.
      rewrite decide_False in Ps by (intros Hc; apply Hhs in Hc; unfold in_span in *; lia).
      rewrite app_nil_r in Ps. simpl.
      rewrite <- Permutation_cons_append.
      change (h :: map fst ar_k ++ map fst ar_s) with ((h :: map fst ar_k) ++ map fst ar_s).
      now apply Permutation_app.
    + simpl. rewrite <- app_assoc.
      change (h0 :: map fst ar_k ++ map fst ar_s ++ ?X)
        with ((h0 :: map fst ar_k) ++ map fst ar_s ++ X).
      apply Permutation_app; [exact Pk|].
      destruct (decide (h ∈ hs)) as [Hin|Hnin].
      * rewrite decide_True by now right. exact Ps.
      * rewrite decide_False; [exact Ps|].
        intros Hc. apply elem_of_cons in Hc as [->|Hc]; [congruence|contradiction].
  - apply Forall_app. split; [|apply Forall_app; split].
    + destruct (bool_decide (h0 = h)); repeat constructor.
    + eapply Forall_impl; [exact Hk|]. intros r Hr. right. now apply in_span_left.
    + eapply Forall_impl; [exact Hs|]. intros r [Hr|Hr]; [now left|right].
      now apply in_span_right.
  - intros d Hd. apply in_span_split in Hd as [Hd|Hd].
    + destruct (Wk d Hd) as (path & W & ND & Hn0 & Hf & Hlen).
      destruct (bool_decide_reflect (h0 = h)) as [->|Hne].
      * exists path. split6; auto.
        -- eapply walk_mono; [|exact W]. intros r Hr. simpl.
           apply elem_of_app. now left.
        -- eapply Forall_impl; [exact Hf|]. intros x. apply in_span_left.
        -- lia.
        -- lia.
      * exists (path ++ [h0]). split6.
        -- apply walk_snoc; [|left].
           eapply walk_mono; [|exact W]. intros r Hr. right.
           apply elem_of_app. now left.
        -- apply NoDup_app. split; [exact ND|]. split; [|apply NoDup_singleton].
           intros x Hx Hx'. apply list_elem_of_singleton in Hx'. now subst x.
        -- intros Hc. apply elem_of_app in Hc as [Hc|Hc].
           ++ rewrite Forall_forall in Hf. apply (Hnot_k Hne). now apply Hf.
           ++ apply list_elem_of_singleton in Hc. congruence.
        -- apply Forall_app. split.
           ++ eapply Forall_impl; [exact Hf|]. intros x. apply in_span_left.
           ++ repeat constructor; unfold in_span in *; lia.
        -- rewrite length_app. simpl. lia.
        -- intros Hc. rewrite length_app. simpl.
           apply elem_of_cons in Hc as [->|Hc]; [congruence|].
           apply Hhs in Hc. unfold in_span in Hc. lia.
    + destruct (Ws d Hd) as (path & W & ND & Hn0 & Hf & Hlen & _).
      exists path. split6; auto.
      * eapply walk_mono; [|exact W]. intros r Hr.
        apply elem_of_app. right. apply elem_of_app. now right.
      * eapply Forall_impl; [exact Hf|]. intros x. apply in_span_right.
      * lia.
      * lia.
Qed.

Lemma get_relations_iterate_eq is_root l ks :
  get_relations_iterate is_root (Tree l ks) =
  (parent_index <- label_index l ;;
   let root_rel := if is_root then [(parent_index, PInt 0)] else [] in
   if _is_leaf (Tree l ks) then Ok root_rel
   else
     rs <- mapM (relations_of_child (get_relations_iterate false) parent_index) ks ;;
     Ok (root_rel ++ concat rs)).
Proof. reflexivity. Qed.

(** At the root the generator first yields the relation to 0. *)
Lemma get_relations_iterate_root t :
  get_relations_iterate true t =
  (index <- head_index t ;;
   rs <- get_relations_iterate false t ;;
   Ok ((index, PInt 0) :: rs)).
Proof.
  destruct t as [v|l ks]; [reflexivity|].
  rewrite !get_relations_iterate_eq. unfold head_index. cbn [label_of bind].
  rewrite label_index_before. cbn [bind].
  destruct (_is_leaf _); [reflexivity|].
  now destruct (mapM _ ks).
Qed.

Lemma marked_height i n h t : marked i n h t -> 2 <= height t.
Proof.
  destruct 1 as [i l|i n h hs l ks Hks Hh]; [simpl; lia|].
  destruct Hks as [|i n m h0 hs k ks Hk _]; [inversion Hh|].
  destruct Hk; simpl; lia.
Qed.

Lemma relations_of_child_marked h h0 k ar :
  head_index k = Ok (str_of_int h0) ->
  get_relations_iterate false k = Ok (map enc ar) ->
  relations_of_child (get_relations_iterate false) (str_of_int h) k
  = Ok (map enc ((if bool_decide (h0 = h) then [] else [(h0, h)]) ++ ar)).
Proof.
  intros Hi Hr. destruct k as [v|l ks]; [discriminate|].
  unfold relations_of_child. unfold head_index in Hi. cbn [label_of bind] in *.
  rewrite Hi. cbn [bind]. rewrite Hr. cbn [bind]. rewrite str_of_int_eqb, map_app.
  now destruct (bool_decide (h0 = h)).
Qed.

Lemma relations_marked :
  (forall i n h t, marked i n h t ->
     exists ar, get_relations_iterate false t = Ok (map enc ar) /\ good i n h ar) /\
  (forall i n hs ks, marked_list i n hs ks ->
     forall h, h ∈ hs \/ ~ in_span i n h ->
     exists ar,
       (rs <- mapM (relations_of_child (get_relations_iterate false) (str_of_int h)) ks ;;
        Ok (concat rs)) = Ok (map enc ar) /\
       good_list i n hs h ar).
Proof.
  apply marked_mutind.
  - intros i l. exists []. split; [|apply good_leaf].
    rewrite get_relations_iterate_eq, label_index_head_label. reflexivity.
  - intros i n h hs l ks Hks IH Hh.
    destruct (IH h (or_introl Hh)) as (ar & E & G).
    exists ar. split.
    + rewrite get_relations_iterate_eq, label_index_head_label. simpl bind.
      assert (Hleaf : _is_leaf (Tree (head_label (str_of_int h) l) ks) = false).
      { destruct Hks as [|i n m h0 hs k ks Hk _]; [inversion Hh|].
        eapply node_not_leaf, marked_height, Hk. }
      rewrite Hleaf.
      destruct (mapM _ ks) as [rs|e]; [|discriminate]. exact E.
    + eapply good_of_list; [exact G|exact Hh|].
      now apply (proj2 marked_spans) in Hks.
  - intros i h _. exists []. split; [reflexivity|apply good_list_nil].
  - intros i n m h0 hs k ks Hk IHk Hks IHks h Hcond.
    destruct IHk as (ar_k & Ek & Gk).
    pose proof (proj2 marked_spans _ _ _ _ Hks) as Hspan.
    pose proof (good_span _ _ _ _ Gk) as Hh0.
    assert (Hcond' : h ∈ hs \/ ~ in_span (i + n) m h).
    { destruct Hcond as [Hc|Hc].
      - apply elem_of_cons in Hc as [->|Hc]; [right|now left].
        unfold in_span in *. lia.
      - right. intros Hin. apply Hc. now apply in_span_right. }
    destruct (IHks h Hcond') as (ar_s & Es & Gs).
    exists ((if bool_decide (h0 = h) then [] else [(h0, h)]) ++ ar_k ++ ar_s).
    split; [|now apply good_list_cons].
    simpl mapM.
    rewrite (relations_of_child_marked h h0 k ar_k (marked_head_index _ _ _ _ Hk) Ek).
    simpl bind.
    destruct (mapM _ ks) as [rs|e]; [|discriminate].
    simpl in *. inversion Es as [Hc]. rewrite Hc.
    now rewrite !map_app, app_assoc.
Qed.

(** ** Sorting by key *)

Section Sorting.
Context {A : Type}.

Lemma insert_keyed_perm (x : nat * A) l : insert_keyed x l ≡ₚ x :: l.
Proof.
  induction l as [|y l IH]; simpl; [reflexivity|].
  destruct (x.1 <=? y.1); [reflexivity|].
  rewrite IH. apply perm_swap.
Qed.

Lemma sort_keyed_perm (l : list (nat * A)) : sort_keyed l ≡ₚ l.
Proof.
  induction l as [|x l IH]; simpl; [reflexivity|].
  now rewrite insert_keyed_perm, IH.
Qed.

Lemma insert_keyed_hd (x y : nat * A) l :
  HdRel key_le y l -> key_le y x -> HdRel key_le y (insert_keyed x l).
Proof.
  intros Hl Hx. destruct l as [|z l]; simpl; [now constructor|].
  destruct (x.1 <=? z.1); constructor; [assumption|].
  now inversion Hl.
Qed.

Lemma insert_keyed_sorted (x : nat * A) l :
  Sorted key_le l -> Sorted key_le (insert_keyed x l).
Proof.
  induction 1 as [|y l Hs IH Hh]; simpl; [repeat constructor|].
  destruct (Nat.leb_spec x.1 y.1) as [Hle|Hlt].
  - repeat constructor; assumption.
  - constructor; [exact IH|]. apply insert_keyed_hd; [exact Hh|].
    unfold key_le. lia.
Qed.

Lemma sort_keyed_sorted (l : list (nat * A)) : Sorted key_le (sort_keyed l).
Proof.
  induction l as [|x l IH]; simpl; [constructor|].
  now apply insert_keyed_sorted.
Qed.

Lemma sorted_keys (l : list (nat * A)) : Sorted le (map fst l) <-> Sorted key_le l.
Proof.
  induction l as [|x l IH]; simpl; [split; constructor|].
  split; inversion 1 as [|? ? Hs Hh]; subst; constructor; try now apply IH.
  - destruct l; simpl in *; constructor. now inversion Hh.
  - destruct l; simpl in *; constructor. now inversion Hh.
Qed.

End Sorting.

Lemma seq_sorted i n : Sorted le (seq i n).
Proof.
  revert i. induction n as [|n IH]; intros i; simpl; constructor; [apply IH|].
  destruct n; simpl; constructor. lia.
Qed.

(** A list of keys sorted by [sort_keyed] that holds the numbers from [i]
    on holds them in order. *)
Lemma sort_keyed_seq {A} (l : list (nat * A)) i n :
  map fst l ≡ₚ seq i n -> map fst (sort_keyed l) = seq i n.
Proof.
  intros Hp. apply (Sorted_unique le).
  - apply sorted_keys, sort_keyed_sorted.
  - apply seq_sorted.
  - rewrite <- Hp. apply Permutation_map, sort_keyed_perm.
Qed.

(** ** The relations of a converted tree *)

Lemma keys_enc ar :
  mapM (fun r : relation => int_of_str r.1) (map enc ar) = Ok (map fst ar).
Proof.
  induction ar as [|r ar IH]; simpl; [reflexivity|].
  now rewrite int_of_str_of_int, IH.
Qed.

Lemma zip_keys_enc ar :
  zip (map fst ar) (map enc ar) = map (fun r => (r.1, enc r)) ar.
Proof. induction ar as [|r ar IH]; simpl; [reflexivity|]. now rewrite IH. Qed.

Lemma keyed_indices (l : list (nat * relation)) :
  Forall keyed l -> map fst (map snd l) = map str_of_int (map fst l).
Proof.
  induction 1 as [|x l Hx _ IH]; simpl; [reflexivity|]. now rewrite Hx, IH.
Qed.

Lemma sorted_relations h ar N :
  h :: map fst ar ≡ₚ seq 1 N ->
  exists rels,
    (keys <- mapM (fun r : relation => int_of_str r.1) (enc_root h :: map enc ar) ;;
     Ok (map snd (sort_keyed (zip keys (enc_root h :: map enc ar))))) = Ok rels /\
    rels ≡ₚ enc_root h :: map enc ar /\
    map fst rels = map str_of_int (seq 1 N).
Proof.
  intros Hp. simpl mapM. rewrite int_of_str_of_int. cbn [bind enc_root fst].
  rewrite keys_enc. cbn [bind].
  change (zip (h :: map fst ar) (enc_root h :: map enc ar))
    with ((h, enc_root h) :: zip (map fst ar) (map enc ar)).
  rewrite zip_keys_enc.
  set (L := (h, enc_root h) :: map (fun r => (r.1, enc r)) ar).
  assert (HL1 : map fst L = h :: map fst ar).
  { unfold L. simpl. f_equal. rewrite map_map. reflexivity. }
  assert (HL2 : map snd L = enc_root h :: map enc ar).
  { unfold L. simpl. f_equal. rewrite map_map. reflexivity. }
  assert (HLk : Forall keyed L).
  { unfold L. constructor; [reflexivity|].
    apply Forall_forall. intros x Hx. apply list_elem_of_fmap in Hx as (r & -> & _).
    reflexivity. }
  exists (map snd (sort_keyed L)). split; [reflexivity|]. split.
  - rewrite <- HL2. apply Permutation_map, sort_keyed_perm.
  - rewrite keyed_indices.
    + f_equal. apply sort_keyed_seq. now rewrite HL1.
    + apply Forall_forall. intros x Hx. rewrite sort_keyed_perm in Hx.
      rewrite Forall_forall in HLk. now apply HLk.
Qed.

(** The whole pipeline on a tree of the data model whose heads are all
    resolved. *)
Lemma pipeline (head_rules : table) t :
  valid t = true ->
  resolves head_rules t = true ->
  exists t1 t2 h ar rels,
    _preprosess t = Ok (t1, map item_of (leaves t)) /\
    Convertor.__mark_heads head_rules t1 = Ok t2 /\
    _get_relations t2 = Ok rels /\
    good 1 (length (leaves t)) h ar /\
    rels ≡ₚ enc_root h :: map enc ar /\
    map fst rels = map str_of_int (seq 1 (length (leaves t))).
Proof.
  intros Hv Hres.
  destruct (preprosess_valid t Hv 1) as (t1 & E1 & N1 & _).
  unfold resolves, _preprosess in *. rewrite E1 in Hres. simpl in Hres.
  destruct (proj1 (mark_numbered head_rules) _ _ _ N1 Hres) as (t2 & h & E2 & M2).
  destruct (proj1 relations_marked _ _ _ _ M2) as (ar & E3 & G).
  destruct (sorted_relations h ar _ (good_perm _ _ _ _ G)) as (rels & E4 & P & I).
  exists t1, t2, h, ar, rels.
  split; [exact E1|]. split; [exact E2|].
  split; [|split; [exact G|split; [exact P|exact I]]].
  unfold _get_relations. rewrite get_relations_iterate_root.
  rewrite (marked_head_index _ _ _ _ M2), E3. exact E4.
Qed.

#[local] Instance str_of_int_Inj : Inj (=) (=) str_of_int.
Proof. intros n m. apply str_of_int_inj. Qed.


Lemma head_of_in (rels : list relation) d v :
  NoDup (map fst rels) -> (d, v) ∈ rels -> head_of rels d = Some v.
Proof.
  unfold head_of. induction rels as [|r rels IH]; intros Hnd Hin; [inversion Hin|].
  simpl in Hnd. apply NoDup_cons in Hnd as [Hr Hnd]. simpl.
  destruct (String.eqb_spec r.1 d) as [E|E].
  - apply elem_of_cons in Hin as [<-|Hin]; [reflexivity|].
    exfalso. apply Hr. rewrite E.
    apply list_elem_of_fmap. exists (d, v). split; [reflexivity|assumption].
  - apply elem_of_cons in Hin as [<-|Hin]; [now elim E|].
    now apply IH.
Qed.

Lemma chain_walk (rels : list relation) ar h :
  (forall d p, (d, p) ∈ ar ->
     head_of rels (str_of_int d) = Some (PStr (str_of_int p))) ->
  head_of rels (str_of_int h) = Some (PInt 0) ->
  forall d path, walk ar h d path ->
  forall fuel, length path < fuel ->
  chain rels fuel (str_of_int d) = Some (map str_of_int (path ++ [h])).
Proof.
  intros Hlink Hroot d path W.
  induction W as [|d p path Hin _ IH]; intros [|fuel] Hlen; simpl in Hlen; try lia.
  - simpl. now rewrite Hroot.
  - simpl. rewrite (Hlink _ _ Hin), (IH fuel) by lia. reflexivity.
Qed.


(** ** The conversion *)

(** C1. On a tree of the data model with N leaves whose heads are all
    resolved, [_get_relations] returns N relations whose dependents are,
    in this order, the indices 1 to N (as they are printed), and so does
    the conversion. The tree [(NN dog)] gives the single relation from 1
    to 0, and one row. *)
Theorem one_relation_per_leaf :
  (forall (head_rules : table) t,
     valid t = true ->
     resolves head_rules t = true ->
     exists t1 seqs t2 rels rows,
       _preprosess t = Ok (t1, seqs) /\
       Convertor.__mark_heads head_rules t1 = Ok t2 /\
       _get_relations t2 = Ok rels /\
       length rels = length (leaves t) /\
       map fst rels = map str_of_int (seq 1 (length (leaves t))) /\
       Convertor.__parse head_rules t = Ok rows /\
       map (fun row : string * tree * string * pyval => row.1.1.1) rows
         = map str_of_int (seq 1 (length (leaves t)))) /\
  (forall head_rules : table,
     (r <- _preprosess (Tree "NN" [Tok (PStr "dog")]) ;;
      t2 <- Convertor.__mark_heads head_rules r.1 ;;
      _get_relations t2) = Ok [("1", PInt 0)] /\
     Convertor.__parse head_rules (Tree "NN" [Tok (PStr "dog")])
       = Ok [("1", Tok (PStr "dog"), "NN", PInt 0)] /\
     Convertor.convert head_rules (Tree "NN" [Tok (PStr "dog")])
       = Ok (String.concat Convertor.tab
               ["1"; "dog"; "_"; "_"; "NN"; "_"; "0"; "X"; "_"; "_"]
             +:+ Convertor.newline)).
Proof.
  split; [|repeat split; reflexivity].
  intros head_rules t Hv Hres.
  destruct (pipeline head_rules t Hv Hres) as (t1 & t2 & h & ar & rels & E1 & E2 & E3 & G & P & I).
  assert (Hlen : length rels = length (leaves t)).
  { pose proof (f_equal length I) as HI. rewrite !length_map, length_seq in HI.
    exact HI. }
  exists t1, (map item_of (leaves t)), t2, rels.
  eexists. split; [exact E1|]. split; [exact E2|]. split; [exact E3|].
  split; [exact Hlen|]. split; [exact I|].
  unfold Convertor.__parse. rewrite E1. cbn [bind fst snd]. rewrite E2. cbn [bind].
  rewrite E3. cbn [bind]. split; [reflexivity|].
  rewrite map_map. cbn [fst snd]. rewrite <- I.
  rewrite <- (snd_zip (map item_of (leaves t)) rels) at 2
    by (rewrite length_map; lia).
  now rewrite map_map.
Qed.


(** ** Writes stay within the copies *)

Section Frame.
Variable base : nat.

Lemma frame_refl s : Store.frame base s s.
Proof. now intros a _. Qed.

Lemma frame_trans s1 s2 s3 :
  Store.frame base s1 s2 -> Store.frame base s2 s3 -> Store.frame base s1 s3.
Proof. intros H12 H23 a Ha. now rewrite H23, H12. Qed.

Lemma safe_ret {A} (x : A) (Q : A -> Prop) : Q x -> Store.safe base (Store.ret x) Q.
Proof.
  intros Hx s Hs Hc. simpl. split; [apply frame_refl|]. split; [exact Hc|].
  split; [lia|]. now intros y [= <-].
Qed.

Lemma safe_throw {A} e (Q : A -> Prop) : Store.safe base (Store.throw e) Q.
Proof.
  intros s Hs Hc. simpl. split; [apply frame_refl|]. split; [exact Hc|].
  split; [lia|]. discriminate.
Qed.

Lemma safe_stuck {A} (Q : A -> Prop) : Store.safe base Store.stuck Q.
Proof.
  intros s Hs Hc. simpl. split; [apply frame_refl|]. split; [exact Hc|].
  split; [lia|]. discriminate.
Qed.

Lemma safe_lift {A} (r : result A) : Store.safe base (Store.lift r) (fun x => r = Ok x).
Proof. destruct r; [now apply safe_ret|apply safe_throw]. Qed.

Lemma safe_bind {A B} (m : Store.M A) (k : A -> Store.M B) Q Q' :
  Store.safe base m Q ->
  (forall x, Q x -> Store.safe base (k x) Q') ->
  Store.safe base (Store.mbind m k) Q'.
Proof.
  intros Hm Hk s Hs Hc. destruct (Hm s Hs Hc) as (F & C & L & R).
  unfold Store.mbind. destruct (m s) as [s1 [x|e|]]; simpl in *.
  - destruct (Hk x (R x eq_refl) s1) as (F' & C' & L' & R'); [lia|exact C|].
    split; [eapply frame_trans; eassumption|]. split; [exact C'|].
    split; [lia|exact R'].
  - repeat split; try assumption. discriminate.
  - repeat split; try assumption. discriminate.
Qed.

Lemma safe_weaken {A} (m : Store.M A) (Q Q' : A -> Prop) :
  Store.safe base m Q -> (forall x, Q x -> Q' x) -> Store.safe base m Q'.
Proof.
  intros Hm HQ s Hs Hc. destruct (Hm s Hs Hc) as (F & C & L & R).
  repeat split; try assumption. intros x Hx. apply HQ, R, Hx.
Qed.

Lemma safe_mapM {A B} (f : A -> Store.M B) (Q : B -> Prop) l :
  Forall (fun x => Store.safe base (f x) Q) l ->
  Store.safe base (Store.mapM f l) (Forall Q).
Proof.
  induction 1 as [|x l Hx _ IH]; simpl.
  - apply safe_ret. constructor.
  - eapply safe_bind; [exact Hx|]. intros y Hy.
    eapply safe_bind; [exact IH|]. intros ys Hys.
    apply safe_ret. now constructor.
Qed.

Lemma safe_read a :
  Store.safe base (Store.read a)
    (fun o => base <= a -> Forall (Store.fresh base) (Store.items o)).
Proof.
  intros s Hs Hc. unfold Store.read. cbv beta.
  destruct (s !! a) as [o|] eqn:E; simpl.
  - split; [apply frame_refl|]. split; [exact Hc|]. split; [lia|].
    intros x [= <-] Ha. eapply Hc; eassumption.
  - split; [apply frame_refl|]. split; [exact Hc|]. split; [lia|]. discriminate.
Qed.

Lemma safe_write a (f : Store.object -> Store.object) :
  base <= a ->
  (forall o, Forall (Store.fresh base) (Store.items o) ->
             Forall (Store.fresh base) (Store.items (f o))) ->
  Store.safe base (Store.write a f) (fun _ => True).
Proof.
  intros Ha Hf s Hs Hc. unfold Store.write. cbv beta.
  destruct (s !! a) as [o|] eqn:E; simpl.
  - split; [|split; [|split]].
    + intros b Hb. apply list_lookup_insert_ne. lia.
    + intros b o' Hb Ho'. destruct (decide (a = b)) as [<-|Hne].
      * rewrite list_lookup_insert_eq in Ho' by (eapply lookup_lt_Some, E).
        inversion Ho'; subst o'. eapply Hf, Hc; eassumption.
      * rewrite list_lookup_insert_ne in Ho' by assumption.
        eapply Hc; eassumption.
    + now rewrite length_insert.
    + trivial.
  - split; [apply frame_refl|]. split; [exact Hc|]. split; [lia|]. discriminate.
Qed.

Lemma safe_alloc o :
  Forall (Store.fresh base) (Store.items o) ->
  Store.safe base (Store.alloc o) (fun a => base <= a).
Proof.
  intros Ho s Hs Hc. unfold Store.alloc. simpl. split; [|split; [|split]].
  - intros b Hb. apply lookup_app_l. lia.
  - intros b o' Hb Ho'. destruct (decide (b < length s)) as [Hlt|Hge].
    + rewrite lookup_app_l in Ho' by assumption. eapply Hc; eassumption.
    + rewrite lookup_app_r in Ho' by lia.
      destruct (b - length s) as [|n]; [|now destruct n].
      simpl in Ho'. now inversion Ho'; subst o'.
  - rewrite length_app. simpl. lia.
  - intros a [= <-]. exact Hs.
Qed.

Lemma safe_set_label a l :
  base <= a -> Store.safe base (Store.set_label a l) (fun _ => True).
Proof. intros Ha. apply safe_write; [exact Ha|]. now intros o. Qed.

Lemma safe_set_parent p it :
  Store.fresh base it -> Store.safe base (Store.set_parent p it) (fun _ => True).
Proof.
  destruct it as [c|v]; simpl; intros Hc.
  - apply safe_write; [exact Hc|]. now intros o.
  - now apply safe_ret.
Qed.

Lemma fresh_item0 its it :
  Forall (Store.fresh base) its -> item0 its = Ok it -> Store.fresh base it.
Proof. destruct 1; [discriminate|]. now intros [= <-]. Qed.

Lemma safe_set_item0 a v :
  base <= a -> Store.safe base (Store.set_item0 a v) (fun _ => True).
Proof.
  intros Ha. unfold Store.set_item0.
  eapply safe_bind; [apply safe_read|]. intros o Ho.
  eapply safe_bind; [apply safe_lift|]. intros old Hold.
  eapply safe_bind.
  { eapply safe_set_parent, (fresh_item0 (Store.items o)); [apply Ho, Ha|exact Hold]. }
  intros _ _.
  apply safe_write; [exact Ha|]. intros o' Ho'. simpl.
  destruct (Store.items o') as [|it its]; [constructor|].
  inversion Ho'; subst. now constructor.
Qed.

Lemma safe_height fuel : forall a, Store.safe base (Store.height fuel a) (fun _ => True).
Proof.
  induction fuel as [|fuel IH]; intros a; simpl; [apply safe_stuck|].
  eapply safe_bind; [apply safe_read|]. intros o _.
  eapply safe_bind; [|intros; now apply safe_ret].
  apply (safe_mapM _ (fun _ => True)), Forall_forall. intros [c|v] _.
  - apply IH.
  - now apply safe_ret.
Qed.

Lemma safe_is_leaf fuel a : Store.safe base (Store._is_leaf fuel a) (fun _ => True).
Proof.
  eapply safe_bind; [apply safe_height|]. intros; now apply safe_ret.
Qed.

(** A deep copy only allocates, and what it returns lies in the part of
    the store it has allocated. *)
Lemma safe_copy fuel : forall a, Store.safe base (Store.copy fuel a) (fun a' => base <= a').
Proof.
  induction fuel as [|fuel IH]; intros a; simpl; [apply safe_stuck|].
  eapply safe_bind; [apply safe_read|]. intros o _.
  eapply safe_bind.
  { apply (safe_mapM _ (Store.fresh base)), Forall_forall. intros [c|v] _.
    - eapply safe_bind; [apply IH|]. intros c' Hc'. now apply safe_ret.
    - now apply safe_ret. }
  intros children Hch.
  eapply safe_bind; [now apply safe_alloc|]. intros a' Ha'.
  eapply safe_bind; [|intros; now apply safe_ret].
  apply (safe_mapM _ (fun _ => True)).
  eapply Forall_impl; [exact Hch|]. intros it. apply safe_set_parent.
Qed.

Lemma safe_preprosess_iterate fuel : forall a index,
  base <= a ->
  Store.safe base (Store.preprosess_iterate fuel a index) (fun _ => True).
Proof.
  induction fuel as [|fuel IH]; intros a index Ha; simpl; [apply safe_stuck|].
  eapply safe_bind; [apply safe_read|]. intros o Ho. specialize (Ho Ha).
  eapply safe_bind; [apply safe_lift|]. intros label' _.
  eapply safe_bind.
  { destruct (contains _ _); [now apply safe_set_label|now apply (safe_ret tt (fun _ => True))]. }
  intros _ _.
  eapply safe_bind; [apply safe_is_leaf|]. intros [|] _.
  - eapply safe_bind; [apply safe_lift|]. intros tok _.
    eapply safe_bind; [now apply safe_set_item0|]. intros; now apply safe_ret.
  - clear -IH Ho. revert index. induction Ho as [|it its Hit _ IHits]; intros index; simpl.
    + now apply safe_ret.
    + eapply safe_bind with (Q := fun _ => True).
      * destruct it as [c|v]; [now apply IH|apply safe_throw].
      * intros r _. eapply safe_bind; [apply IHits|]. intros; now apply safe_ret.
Qed.

Lemma safe_child_view it : Store.safe base (Store.child_view it) (fun _ => True).
Proof.
  destruct it as [c|v]; simpl; [|now apply safe_ret].
  eapply safe_bind; [apply safe_read|]. intros; now apply safe_ret.
Qed.

Lemma safe_mark_heads_iterate head_rules fuel : forall a,
  base <= a ->
  Store.safe base (Store.mark_heads_iterate head_rules fuel a) (fun _ => True).
Proof.
  induction fuel as [|fuel IH]; intros a Ha; simpl; [apply safe_stuck|].
  eapply safe_bind; [apply safe_read|]. intros o Ho. specialize (Ho Ha).
  eapply safe_bind; [apply safe_is_leaf|]. intros [|] _.
  - eapply safe_bind; [apply safe_lift|]. intros tok _.
    eapply safe_bind with (Q := fun _ => True).
    + destruct tok; [apply safe_throw|now apply safe_ret].
    + intros. now apply safe_set_label.
  - eapply safe_bind with (Q := fun _ => True).
    { eapply safe_weaken; [|trivial].
      apply (safe_mapM _ (fun _ => True)).
      eapply Forall_impl; [exact Ho|]. intros [c|v] Hf; [now apply IH|apply safe_throw]. }
    intros _ _. eapply safe_bind with (Q := fun _ => True).
    { eapply safe_weaken; [|trivial].
      apply (safe_mapM _ (fun _ => True)), Forall_forall. intros it _.
      apply safe_child_view. }
    intros ks _. eapply safe_bind; [apply safe_lift|].
    intros [index|] _; [now apply safe_set_label|now apply safe_ret].
Qed.

Lemma safe_reify fuel : forall a, Store.safe base (Store.reify fuel a) (fun _ => True).
Proof.
  induction fuel as [|fuel IH]; intros a; simpl; [apply safe_stuck|].
  eapply safe_bind; [apply safe_read|]. intros o _.
  eapply safe_bind; [|intros; now apply safe_ret].
  apply (safe_mapM _ (fun _ => True)), Forall_forall. intros [c|v] _.
  - apply IH.
  - now apply safe_ret.
Qed.

Lemma safe_preprosess fuel root :
  Store.safe base (Store._preprosess fuel root) (fun r => base <= r.1).
Proof.
  unfold Store._preprosess.
  eapply safe_bind; [apply safe_copy|]. intros root' Hroot'.
  eapply safe_bind; [now apply safe_preprosess_iterate|]. intros; now apply safe_ret.
Qed.

Lemma safe_mark_heads head_rules fuel root :
  Store.safe base (Store.__mark_heads head_rules fuel root) (fun root' => base <= root').
Proof.
  unfold Store.__mark_heads.
  eapply safe_bind; [apply safe_copy|]. intros root' Hroot'.
  eapply safe_bind; [now apply safe_mark_heads_iterate|]. intros; now apply safe_ret.
Qed.

Lemma safe_parse head_rules fuel tree0 :
  Store.safe base (Store.__parse head_rules fuel tree0) (fun _ => True).
Proof.
  unfold Store.__parse.
  eapply safe_bind; [apply safe_preprosess|]. intros r _.
  eapply safe_bind; [apply safe_mark_heads|]. intros tree2 _.
  eapply safe_bind; [apply safe_reify|]. intros t _.
  eapply safe_bind; [apply safe_lift|]. intros; now apply safe_ret.
Qed.

End Frame.

Lemma closed_at_end s : Store.closed (length s) s.
Proof.
  intros a o Ha Ho. apply lookup_lt_Some in Ho. lia.
Qed.

(** ** The store embedding computes what the embedding on values computes *)

Lemma mbind_Return {A B} (m : Store.M A) (k : A -> Store.M B) s s1 x :
  m s = (s1, Store.Return x) -> Store.mbind m k s = k x s1.
Proof. intros H. unfold Store.mbind. now rewrite H. Qed.

Lemma mbind_Throw {A B} (m : Store.M A) (k : A -> Store.M B) s s1 e :
  m s = (s1, Store.Throw e) -> Store.mbind m k s = (s1, Store.Throw e).
Proof. intros H. unfold Store.mbind. now rewrite H. Qed.

Lemma read_ok (s : list Store.object) a o :
  s !! a = Some o -> Store.read a s = (s, Store.Return o).
Proof. intros H. unfold Store.read. now rewrite H. Qed.

Lemma write_ok (s : list Store.object) a o f :
  s !! a = Some o -> Store.write a f s = (<[a := f o]> s, Store.Return tt).
Proof. intros H. unfold Store.write. now rewrite H. Qed.

Lemma rep_bounds :
  (forall s lo hi it t, rep s lo hi it t -> lo <= hi) /\
  (forall s lo hi its ks, reps s lo hi its ks -> lo <= hi).
Proof.
  split; intros s.
  - apply (rep_min s (fun lo hi _ _ => lo <= hi) (fun lo hi _ _ => lo <= hi)); intros; lia.
  - apply (reps_min s (fun lo hi _ _ => lo <= hi) (fun lo hi _ _ => lo <= hi)); intros; lia.
Qed.

Lemma keeps_sub lo hi lo' hi' s s' :
  keeps lo hi s s' -> lo <= lo' -> hi' <= hi -> keeps lo' hi' s s'.
Proof. intros H Hlo Hhi a o Ha. apply H. lia. Qed.

Lemma rep_keeps s s' :
  (forall lo hi it t, rep s lo hi it t -> keeps lo hi s s' -> rep s' lo hi it t) /\
  (forall lo hi its ks, reps s lo hi its ks -> keeps lo hi s s' -> reps s' lo hi its ks).
Proof.
  apply rep_mutind.
  - intros. now constructor.
  - intros lo hi a o ks Ho Ha Hks IH K.
    destruct (K a o Ha Ho) as (o' & Ho' & <- & Ei).
    econstructor; [exact Ho'|exact Ha|]. rewrite Ei. apply IH.
    eapply keeps_sub; [exact K| |]; lia.
  - intros. now constructor.
  - intros lo mid hi it its k ks Hk IHk Hks IHks K.
    pose proof (proj1 rep_bounds _ _ _ _ _ Hk).
    pose proof (proj2 rep_bounds _ _ _ _ _ Hks).
    econstructor.
    + apply IHk. eapply keeps_sub; [exact K| |]; lia.
    + apply IHks. eapply keeps_sub; [exact K| |]; lia.
Qed.


Lemma height_S fuel a :
  Store.height (S fuel) a =
  Store.mbind (Store.read a) (fun o =>
  Store.mbind (Store.mapM (fun it => match it with
                                     | Store.Ref c => Store.height fuel c
                                     | Store.Val _ => Store.ret 1
                                     end) (Store.items o)) (fun hs =>
  Store.ret (S (max_list hs)))).
Proof. reflexivity. Qed.

Lemma max_list_le (l : list nat) x : x ∈ l -> x <= max_list l.
Proof.
  induction 1 as [x l|x y l _ IH]; simpl; lia.
Qed.

Lemma child_height (k : tree) ks fuel :
  max_list (map height (k :: ks)) <= fuel ->
  height k <= fuel /\ max_list (map height ks) <= fuel.
Proof. simpl. lia. Qed.

(** Reading the height of a tree in the store. *)
Lemma height_rep fuel : forall s lo hi a t,
  rep s lo hi (Store.Ref a) t -> height t <= fuel ->
  Store.height fuel a s = (s, Store.Return (height t)).
Proof.
  induction fuel as [|fuel IH]; intros s lo hi a t Hrep Hfuel.
  { inversion Hrep; subst. simpl in Hfuel. lia. }
  inversion Hrep as [|? ? ? o ks Ho Ha Hks]; subst.
  rewrite height_S, (mbind_Return _ _ _ _ _ (read_ok _ _ _ Ho)).
  assert (Hch : Store.mapM (fun it => match it with
                                     | Store.Ref c => Store.height fuel c
                                     | Store.Val _ => Store.ret 1
                                     end) (Store.items o) s
                = (s, Store.Return (map height ks))).
  { simpl in Hfuel. apply le_S_n in Hfuel. clear -IH Hks Hfuel.
    induction Hks as [|lo mid hi it its k ks Hk Hks IHks]; [reflexivity|].
    apply child_height in Hfuel as [Hk' Hks'].
    simpl Store.mapM.
    assert (E : match it with
                | Store.Ref c => Store.height fuel c
                | Store.Val _ => Store.ret 1
                end s = (s, Store.Return (height k))).
    { destruct Hk; [reflexivity|]. eapply IH; [|exact Hk'].
      econstructor; eassumption. }
    rewrite (mbind_Return _ _ _ _ _ E), (mbind_Return _ _ _ _ _ (IHks Hks')).
    reflexivity. }
  rewrite (mbind_Return _ _ _ _ _ Hch). reflexivity.
Qed.

Lemma is_leaf_rep fuel s lo hi a t :
  rep s lo hi (Store.Ref a) t -> height t <= fuel ->
  Store._is_leaf fuel a s = (s, Store.Return (_is_leaf t)).
Proof.
  intros Hrep Hfuel. unfold Store._is_leaf.
  rewrite (mbind_Return _ _ _ _ _ (height_rep _ _ _ _ _ _ Hrep Hfuel)). reflexivity.
Qed.

Lemma reify_S fuel a :
  Store.reify (S fuel) a =
  Store.mbind (Store.read a) (fun o =>
  Store.mbind (Store.mapM (fun it => match it with
                                     | Store.Ref c => Store.reify fuel c
                                     | Store.Val v => Store.ret (Tok v)
                                     end) (Store.items o)) (fun ks =>
  Store.ret (Tree (Store.label o) ks))).
Proof. reflexivity. Qed.

(** Reading back the tree at an address. *)
Lemma reify_rep fuel : forall s lo hi a t,
  rep s lo hi (Store.Ref a) t -> height t <= fuel ->
  Store.reify fuel a s = (s, Store.Return t).
Proof.
  induction fuel as [|fuel IH]; intros s lo hi a t Hrep Hfuel.
  { inversion Hrep; subst. simpl in Hfuel. lia. }
  inversion Hrep as [|? ? ? o ks Ho Ha Hks]; subst.
  rewrite reify_S, (mbind_Return _ _ _ _ _ (read_ok _ _ _ Ho)).
  assert (Hch : Store.mapM (fun it => match it with
                                     | Store.Ref c => Store.reify fuel c
                                     | Store.Val v => Store.ret (Tok v)
                                     end) (Store.items o) s
                = (s, Store.Return ks)).
  { simpl in Hfuel. apply le_S_n in Hfuel. clear -IH Hks Hfuel.
    induction Hks as [|lo mid hi it its k ks Hk Hks IHks]; [reflexivity|].
    apply child_height in Hfuel as [Hk' Hks'].
    simpl Store.mapM.
    assert (E : match it with
                | Store.Ref c => Store.reify fuel c
                | Store.Val v => Store.ret (Tok v)
                end s = (s, Store.Return k)).
    { destruct Hk; [reflexivity|]. eapply IH; [|exact Hk'].
      econstructor; eassumption. }
    rewrite (mbind_Return _ _ _ _ _ E), (mbind_Return _ _ _ _ _ (IHks Hks')).
    reflexivity. }
  rewrite (mbind_Return _ _ _ _ _ Hch). reflexivity.
Qed.

Lemma keeps_refl lo hi s : keeps lo hi s s.
Proof. intros a o _ Ho. eauto. Qed.

Lemma keeps_trans lo hi s1 s2 s3 :
  keeps lo hi s1 s2 -> keeps lo hi s2 s3 -> keeps lo hi s1 s3.
Proof.
  intros H12 H23 a o Ha Ho.
  destruct (H12 a o Ha Ho) as (o2 & Ho2 & El & Ei).
  destruct (H23 a o2 Ha Ho2) as (o3 & Ho3 & El' & Ei').
  exists o3. split; [exact Ho3|]. split; congruence.
Qed.

Lemma frame_keeps lo hi (s s' : list Store.object) :
  Store.frame (length s) s s' -> keeps lo hi s s'.
Proof.
  intros F a o _ Ho. exists o. split; [|auto].
  rewrite F; [exact Ho|]. eapply lookup_lt_Some, Ho.
Qed.

Lemma only_within_keeps lo hi lo' hi' s s' :
  only_within lo hi s s' -> (hi' <= lo \/ hi <= lo') -> keeps lo' hi' s s'.
Proof.
  intros [_ H] Hd a o Ha Ho. exists o. split; [|auto].
  rewrite H; [exact Ho|]. lia.
Qed.

(** Setting the parent of some objects changes no label and no item. *)
Lemma set_parents_run p its : forall s : list Store.object,
  Forall (fun it => match it with Store.Ref c => c < length s | Store.Val _ => True end) its ->
  exists s' us,
    Store.mapM (Store.set_parent p) its s = (s', Store.Return us) /\
    length s' = length s /\
    keeps 0 (length s) s s' /\
    forall a, Forall (fun it => it <> Store.Ref a) its -> s' !! a = s !! a.
Proof.
  induction its as [|it its IH]; intros s Hall.
  - exists s, []. split; [reflexivity|]. split; [reflexivity|].
    split; [apply keeps_refl|]. reflexivity.
  - inversion Hall as [|? ? Hit Hits]; subst.
    assert (H1 : exists s1,
              Store.set_parent p it s = (s1, Store.Return tt) /\
              length s1 = length s /\ keeps 0 (length s) s s1 /\
              forall a, it <> Store.Ref a -> s1 !! a = s !! a).
    { destruct it as [c|v].
      - destruct (lookup_lt_is_Some_2 _ _ Hit) as [o Ho].
        exists (<[c := Store.Object (Store.label o) (Store.items o) p]> s).
        split.
        { exact (write_ok s c o
                   (fun o => Store.Object (Store.label o) (Store.items o) p) Ho). }
        split; [apply length_insert|]. split.
        + intros a o' _ Ho'. destruct (decide (c = a)) as [<-|Hne].
          * rewrite list_lookup_insert_eq by assumption.
            rewrite Ho in Ho'. inversion Ho'; subst o'. eauto.
          * rewrite list_lookup_insert_ne by assumption. eauto.
        + intros a Ha. apply list_lookup_insert_ne. congruence.
      - exists s. split; [reflexivity|]. split; [reflexivity|].
        split; [apply keeps_refl|]. reflexivity. }
    destruct H1 as (s1 & E1 & L1 & K1 & F1).
    destruct (IH s1) as (s2 & us & E2 & L2 & K2 & F2).
    { eapply Forall_impl; [exact Hits|]. intros [c|v]; [|trivial]. lia. }
    exists s2, (tt :: us). simpl Store.mapM.
    rewrite (mbind_Return _ _ _ _ _ E1), (mbind_Return _ _ _ _ _ E2).
    split; [reflexivity|]. split; [lia|]. split.
    + eapply keeps_trans; [exact K1|]. rewrite <- L1. exact K2.
    + intros a Ha. inversion Ha; subst. rewrite F2, F1; auto.
Qed.

Lemma copy_S fuel a :
  Store.copy (S fuel) a =
  Store.mbind (Store.read a) (fun o =>
  Store.mbind (Store.mapM (fun it => match it with
                                     | Store.Ref c =>
                                         Store.mbind (Store.copy fuel c)
                                           (fun c' => Store.ret (Store.Ref c'))
                                     | Store.Val v => Store.ret (Store.Val v)
                                     end) (Store.items o)) (fun children =>
  Store.mbind (Store.alloc (Store.Object (Store.label o) children None)) (fun a' =>
  Store.mbind (Store.mapM (Store.set_parent (Some a')) children) (fun _ =>
  Store.ret a')))).
Proof. reflexivity. Qed.

Lemma reps_below s :
  (forall lo hi it t, rep s lo hi it t -> below hi it /\ Store.fresh lo it) /\
  (forall lo hi its ks, reps s lo hi its ks ->
     Forall (below hi) its /\ Forall (Store.fresh lo) its).
Proof.
  apply rep_mutind.
  - intros. split; exact I.
  - intros lo hi a o ks _ Ha _ _. simpl. lia.
  - intros. split; constructor.
  - intros lo mid hi it its k ks Hk [Bk Fk] Hks [Bks Fks].
    pose proof (proj1 rep_bounds _ _ _ _ _ Hk).
    pose proof (proj2 rep_bounds _ _ _ _ _ Hks).
    split; constructor.
    + destruct it; simpl in *; lia.
    + exact Bks.
    + exact Fk.
    + eapply Forall_impl; [exact Fks|]. intros [c|v]; simpl; lia.
Qed.

Lemma rep_allocated s lo hi a t : rep s lo hi (Store.Ref a) t -> a < length s.
Proof. inversion 1; subst. eapply lookup_lt_Some. eassumption. Qed.

(** A deep copy lays the same tree out in the new part of the store. *)
Lemma copy_rep fuel : forall s lo hi a t,
  rep s lo hi (Store.Ref a) t -> height t <= fuel ->
  exists s' a',
    Store.copy fuel a s = (s', Store.Return a') /\
    Store.frame (length s) s s' /\
    length s <= length s' /\
    rep s' (length s) (length s') (Store.Ref a') t.
Proof.
  induction fuel as [|fuel IH]; intros s lo hi a t Hrep Hfuel.
  { inversion Hrep; subst. simpl in Hfuel. lia. }
  inversion Hrep as [|? ? ? o ks Ho Ha Hks]; subst.
  rewrite copy_S, (mbind_Return _ _ _ _ _ (read_ok _ _ _ Ho)).
  simpl in Hfuel. apply le_S_n in Hfuel.
  assert (Hch : forall its ks lo hi (s1 : list Store.object),
            reps s1 lo hi its ks -> max_list (map height ks) <= fuel ->
            exists s2 its',
              Store.mapM (fun it => match it with
                                    | Store.Ref c =>
                                        Store.mbind (Store.copy fuel c)
                                          (fun c' => Store.ret (Store.Ref c'))
                                    | Store.Val v => Store.ret (Store.Val v)
                                    end) its s1 = (s2, Store.Return its') /\
              Store.frame (length s1) s1 s2 /\
              length s1 <= length s2 /\
              reps s2 (length s1) (length s2) its' ks).
  { clear -IH. intros its. induction its as [|it its IHits]; intros ks lo hi s1 Hr Hf.
    - inversion Hr; subst. exists s1, []. split; [reflexivity|].
      split; [apply frame_refl|]. split; [lia|]. constructor. lia.
    - inversion Hr as [|? mid ? ? ? k ks' Hk Hks']; subst.
      apply child_height in Hf as [Hfk Hfks].
      assert (H1 : exists s2 it',
                match it with
                | Store.Ref c =>
                    Store.mbind (Store.copy fuel c) (fun c' => Store.ret (Store.Ref c'))
                | Store.Val v => Store.ret (Store.Val v)
                end s1 = (s2, Store.Return it') /\
                Store.frame (length s1) s1 s2 /\ length s1 <= length s2 /\
                rep s2 (length s1) (length s2) it' k).
      { destruct it as [c|v].
        - destruct (IH _ _ _ _ _ Hk Hfk) as (s2 & c' & E & F & L & R).
          exists s2, (Store.Ref c'). rewrite (mbind_Return _ _ _ _ _ E).
          split; [reflexivity|]. auto.
        - inversion Hk; subst. exists s1, (Store.Val v).
          split; [reflexivity|]. split; [apply frame_refl|]. split; [lia|].
          constructor. lia. }
      destruct H1 as (s2 & it' & E1 & F1 & L1 & R1).
      assert (Hks2 : reps s2 mid hi its ks').
      { eapply (proj2 (rep_keeps s1 s2)); [exact Hks'|]. now apply frame_keeps. }
      destruct (IHits _ _ _ _ Hks2 Hfks) as (s3 & its' & E2 & F2 & L2 & R2).
      exists s3, (it' :: its'). simpl Store.mapM.
      rewrite (mbind_Return _ _ _ _ _ E1), (mbind_Return _ _ _ _ _ E2).
      split; [reflexivity|]. split.
      { intros b Hb. rewrite F2 by lia. now apply F1. }
      split; [lia|]. econstructor; [|exact R2].
      eapply (proj1 (rep_keeps s2 s3)); [exact R1|]. now apply frame_keeps. }
  destruct (Hch _ _ _ _ _ Hks Hfuel) as (s2 & its' & E & F & L & R).
  rewrite (mbind_Return _ _ _ _ _ E).
  set (o' := Store.Object (Store.label o) its' None).
  assert (Ealloc : Store.alloc o' s2 = (s2 ++ [o'], Store.Return (length s2)))
    by reflexivity.
  rewrite (mbind_Return _ _ _ _ _ Ealloc).
  destruct (set_parents_run (Some (length s2)) its' (s2 ++ [o'])) as (s3 & us & E3 & L3 & K3 & F3).
  { eapply Forall_impl; [exact (proj1 (proj2 (reps_below s2) _ _ _ _ R))|].
    intros [c|v]; simpl; [|trivial]. rewrite length_app. simpl. lia. }
  rewrite (mbind_Return _ _ _ _ _ E3).
  rewrite length_app in L3. simpl in L3.
  exists s3, (length s2). split; [reflexivity|]. split; [|split; [lia|]].
  - intros b Hb. rewrite F3.
    + rewrite lookup_app_l by lia. now apply F.
    + eapply Forall_impl; [exact (proj2 (proj2 (reps_below s2) _ _ _ _ R))|].
      intros [c|v]; simpl; [|discriminate]. intros Hc [= ->]. lia.
  - assert (Hnew : (s2 ++ [o']) !! length s2 = Some o').
    { rewrite lookup_app_r by lia. now rewrite Nat.sub_diag. }
    destruct (K3 (length s2) o') as (o3 & Ho3 & El & Ei).
    { rewrite length_app. simpl. lia. }
    { exact Hnew. }
    replace (Store.label o) with (Store.label o3) by (rewrite El; reflexivity).
    econstructor; [exact Ho3|lia|]. rewrite Ei. simpl.
    eapply (proj2 (rep_keeps s2 s3)); [exact R|].
    intros b ob Hb Hob. apply (K3 b ob).
    + rewrite length_app. simpl. lia.
    + rewrite lookup_app_l; [exact Hob|]. eapply lookup_lt_Some, Hob.
Qed.

Lemma build_Tree l ks :
  Store.build (Tree l ks) =
  Store.mbind (Store.mapM Store.build ks) (fun children =>
  Store.mbind (Store.alloc (Store.Object l children None)) (fun a =>
  Store.mbind (Store.mapM (Store.set_parent (Some a)) children) (fun _ =>
  Store.ret (Store.Ref a)))).
Proof. reflexivity. Qed.

(** The objects that are built for a tree lay it out. *)
Lemma build_rep t : forall s : list Store.object,
  exists s' it,
    Store.build t s = (s', Store.Return it) /\
    Store.frame (length s) s s' /\
    length s <= length s' /\
    rep s' (length s) (length s') it t.
Proof.
  induction t as [v|l ks IH] using tree_ind'; intros s.
  { exists s, (Store.Val v). split; [reflexivity|]. split; [apply frame_refl|].
    split; [lia|]. constructor. lia. }
  assert (Hch : forall s1 : list Store.object,
            exists s2 its,
              Store.mapM Store.build ks s1 = (s2, Store.Return its) /\
              Store.frame (length s1) s1 s2 /\
              length s1 <= length s2 /\
              reps s2 (length s1) (length s2) its ks).
  { induction IH as [|k ks Hk _ IHks]; intros s1.
    - exists s1, []. split; [reflexivity|]. split; [apply frame_refl|].
      split; [lia|]. constructor. lia.
    - destruct (Hk s1) as (s2 & it & E1 & F1 & L1 & R1).
      destruct (IHks s2) as (s3 & its & E2 & F2 & L2 & R2).
      exists s3, (it :: its). simpl Store.mapM.
      rewrite (mbind_Return _ _ _ _ _ E1), (mbind_Return _ _ _ _ _ E2).
      split; [reflexivity|]. split.
      { intros b Hb. rewrite F2 by lia. now apply F1. }
      split; [lia|]. econstructor; [|exact R2].
      eapply (proj1 (rep_keeps s2 s3)); [exact R1|]. now apply frame_keeps. }
  destruct (Hch s) as (s2 & its & E & F & L & R).
  rewrite build_Tree, (mbind_Return _ _ _ _ _ E).
  set (o' := Store.Object l its None).
  assert (Ealloc : Store.alloc o' s2 = (s2 ++ [o'], Store.Return (length s2)))
    by reflexivity.
  rewrite (mbind_Return _ _ _ _ _ Ealloc).
  destruct (set_parents_run (Some (length s2)) its (s2 ++ [o'])) as (s3 & us & E3 & L3 & K3 & F3).
  { eapply Forall_impl; [exact (proj1 (proj2 (reps_below s2) _ _ _ _ R))|].
    intros [c|v]; simpl; [|trivial]. rewrite length_app. simpl. lia. }
  rewrite (mbind_Return _ _ _ _ _ E3).
  rewrite length_app in L3. simpl in L3.
  exists s3, (Store.Ref (length s2)). split; [reflexivity|]. split; [|split; [lia|]].
  - intros b Hb. rewrite F3.
    + rewrite lookup_app_l by lia. now apply F.
    + eapply Forall_impl; [exact (proj2 (proj2 (reps_below s2) _ _ _ _ R))|].
      intros [c|v]; simpl; [|discriminate]. intros Hc [= ->]. lia.
  - assert (Hnew : (s2 ++ [o']) !! length s2 = Some o').
    { rewrite lookup_app_r by lia. now rewrite Nat.sub_diag. }
    destruct (K3 (length s2) o') as (o3 & Ho3 & El & Ei).
    { rewrite length_app. simpl. lia. }
    { exact Hnew. }
    replace l with (Store.label o3) by (rewrite El; reflexivity).
    econstructor; [exact Ho3|lia|]. rewrite Ei. simpl.
    eapply (proj2 (rep_keeps s2 s3)); [exact R|].
    intros b ob Hb Hob. apply (K3 b ob).
    + rewrite length_app. simpl. lia.
    + rewrite lookup_app_l; [exact Hob|]. eapply lookup_lt_Some, Hob.
Qed.

Lemma only_within_refl lo hi s : only_within lo hi s s.
Proof. split; [reflexivity|]. reflexivity. Qed.

Lemma only_within_trans lo hi lo1 hi1 lo2 hi2 s s1 s2 :
  only_within lo1 hi1 s s1 -> only_within lo2 hi2 s1 s2 ->
  lo <= lo1 -> hi1 <= hi -> lo <= lo2 -> hi2 <= hi ->
  only_within lo hi s s2.
Proof.
  intros [L1 H1] [L2 H2] ? ? ? ?. split; [lia|].
  intros a Ha. rewrite H2, H1; [reflexivity|lia|lia].
Qed.

Lemma only_within_insert (s : list Store.object) a o :
  only_within a (S a) s (<[a := o]> s).
Proof.
  split; [apply length_insert|]. intros b Hb. apply list_lookup_insert_ne. lia.
Qed.

Lemma height_pos t : 1 <= height t.
Proof. destruct t; simpl; lia. Qed.

Lemma full_tree_height l ks : full (Tree l ks) = true -> 2 <= height (Tree l ks).
Proof.
  simpl. intros H. apply andb_true_iff in H as [Hne _].
  destruct ks as [|k ks]; [discriminate|].
  pose proof (height_pos k). simpl. lia.
Qed.

(** A full tree of height 2 holds tokens only, and at least one. *)
Lemma full_leaf l ks :
  full (Tree l ks) = true -> _is_leaf (Tree l ks) = true ->
  exists v ks0, ks = Tok v :: ks0.
Proof.
  intros Hf Hl. unfold _is_leaf in Hl. apply Nat.eqb_eq in Hl.
  simpl in Hf. apply andb_true_iff in Hf as [Hne Hall].
  destruct ks as [|k ks]; [discriminate|].
  simpl in Hall. apply andb_true_iff in Hall as [Hk _].
  destruct k as [v|lk kk]; [eauto|].
  apply full_tree_height in Hk. simpl in *. lia.
Qed.

Lemma preprosess_iterate_S fuel a index :
  Store.preprosess_iterate (S fuel) a index =
  Store.mbind (Store.read a) (fun o =>
  Store.mbind (Store.lift (clean (Store.label o))) (fun label' =>
  Store.mbind (if contains "-"%char (Store.label o)
               then Store.set_label a label' else Store.ret tt) (fun _ =>
  Store.mbind (Store._is_leaf fuel a) (fun leaf =>
  if leaf : bool then
    Store.mbind (Store.lift (item0 (Store.items o))) (fun tok =>
    Store.mbind (Store.set_item0 a (PInt index)) (fun _ =>
    Store.ret [(label', tok)]))
  else
    Store.preprosess_loop (Store.preprosess_iterate fuel) (Store.items o) index)))).
Proof. reflexivity. Qed.

Lemma preprosess_loop_rep fuel :
  (forall s lo hi a t index,
     rep s lo hi (Store.Ref a) t -> full t = true -> height t < fuel ->
     preprosess_post lo hi (Store.Ref a) t index s
       (Store.preprosess_iterate fuel a index s)) ->
  forall ks its lo hi s index,
    reps s lo hi its ks -> forallb full ks = true ->
    max_list (map height ks) < fuel ->
    preprosess_loop_post lo hi its ks index s
      (Store.preprosess_loop (Store.preprosess_iterate fuel) its index s).
Proof.
  intros IH ks. induction ks as [|k ks IHks]; intros its lo hi s index Hr Hf Hh.
  { inversion Hr; subst. split; [apply only_within_refl|]. simpl.
    split; [reflexivity|]. now constructor. }
  inversion Hr as [|? mid ? it its' ? ? Hk Hks]; subst.
  simpl in Hf. apply andb_true_iff in Hf as [Hfk Hfks].
  assert (Hhk : height k < fuel /\ max_list (map height ks) < fuel)
    by (simpl in Hh; lia).
  destruct Hhk as [Hhk Hhks].
  pose proof (proj1 rep_bounds _ _ _ _ _ Hk) as Hb1.
  pose proof (proj2 rep_bounds _ _ _ _ _ Hks) as Hb2.
  unfold preprosess_loop_post. simpl Store.preprosess_loop. simpl preprosess_loop.
  destruct it as [c|v].
  2: { (* a token among the children of a phrase *)
       inversion Hk; subst. simpl. split; [apply only_within_refl|reflexivity]. }
  destruct (IH s lo mid c k index Hk Hfk Hhk) as [W1 P1].
  destruct (Store.preprosess_iterate fuel c index s) as [s1 r1] eqn:E1.
  cbn [fst snd] in W1, P1.
  destruct (preprosess_iterate k index) as [[k' seqs]|e] eqn:Ek.
  - destruct P1 as [-> Rk']. cbn [bind fst snd].
    rewrite (mbind_Return _ _ _ _ _ E1).
    assert (Hks1 : reps s1 mid hi its' ks).
    { eapply (proj2 (rep_keeps s s1)); [exact Hks|].
      eapply only_within_keeps; [exact W1|]. lia. }
    specialize (IHks its' mid hi s1 (index + length (map to_item seqs)) Hks1 Hfks Hhks).
    destruct IHks as [W2 P2]. rewrite length_map in *.
    destruct (Store.preprosess_loop _ its' _ s1) as [s2 r2] eqn:E2.
    cbn [fst snd] in W2, P2.
    destruct (preprosess_loop preprosess_iterate ks (index + length seqs))
      as [[ks' seqs']|e] eqn:Eks.
    + destruct P2 as [-> Rks']. rewrite (mbind_Return _ _ _ _ _ E2).
      cbn [bind fst snd Store.ret].
      split; [apply (only_within_trans lo hi lo mid mid hi s s1 s2); auto; lia|].
      split; [now rewrite map_app|].
      econstructor; [|exact Rks'].
      eapply (proj1 (rep_keeps s1 s2)); [exact Rk'|].
      eapply only_within_keeps; [exact W2|]. lia.
    + subst r2. rewrite (mbind_Throw _ _ _ _ _ E2). cbn [bind fst snd].
      split; [apply (only_within_trans lo hi lo mid mid hi s s1 s2); auto; lia|].
      reflexivity.
  - subst r1. cbn [bind]. rewrite (mbind_Throw _ _ _ _ _ E1). cbn [fst snd].
    split; [|reflexivity].
    apply (only_within_trans lo hi lo mid mid hi s s1 s1); auto; try lia.
    apply only_within_refl.
Qed.

Lemma reps_token s lo hi its v ks :
  reps s lo hi its (Tok v :: ks) ->
  exists its0 mid, its = Store.Val v :: its0 /\ lo <= mid /\ reps s mid hi its0 ks.
Proof.
  inversion 1 as [|? mid ? it its0 ? ? Hk Hks]; subst.
  inversion Hk; subst. exists its0, mid. auto.
Qed.

(** Preprocessing in the store does what preprocessing on values does. *)
Lemma preprosess_rep fuel : forall s lo hi a t index,
  rep s lo hi (Store.Ref a) t -> full t = true -> height t < fuel ->
  preprosess_post lo hi (Store.Ref a) t index s
    (Store.preprosess_iterate fuel a index s).
Proof.
  induction fuel as [|fuel IH]; intros s lo hi a t index Hrep Hfull Hfuel; [lia|].
  inversion Hrep as [|? ? ? o ks Ho Ha Hks]; subst.
  set (l := Store.label o) in *.
  unfold preprosess_post.
  rewrite preprosess_iterate_S, (mbind_Return _ _ _ _ _ (read_ok _ _ _ Ho)).
  rewrite preprosess_iterate_eq, !clean_strip. fold l. cbn [Store.lift bind].
  rewrite (mbind_Return _ _ s s (strip l)) by reflexivity.
  (* the label is cleaned in place *)
  assert (H1 : exists s1 o1,
            (if contains "-" l then Store.set_label a (strip l) else Store.ret tt) s
              = (s1, Store.Return tt) /\
            s1 !! a = Some o1 /\ Store.label o1 = strip l /\
            Store.items o1 = Store.items o /\ only_within a (S a) s s1).
  { destruct (contains "-" l) eqn:Ec.
    - exists (<[a := Store.Object (strip l) (Store.items o) (Store.parent o)]> s).
      eexists. split; [exact (write_ok s a o _ Ho)|].
      split; [apply list_lookup_insert_eq; eapply lookup_lt_Some, Ho|].
      split; [reflexivity|]. split; [reflexivity|]. apply only_within_insert.
    - exists s, o. split; [reflexivity|]. split; [exact Ho|].
      split; [unfold strip; now rewrite before_absent|].
      split; [reflexivity|apply only_within_refl]. }
  destruct H1 as (s1 & o1 & E1 & Ho1 & El1 & Ei1 & W1).
  rewrite (mbind_Return _ _ _ _ _ E1).
  assert (Hks1 : reps s1 lo a (Store.items o1) ks).
  { rewrite Ei1. eapply (proj2 (rep_keeps s s1)); [exact Hks|].
    eapply only_within_keeps; [exact W1|]. lia. }
  assert (Hrep1 : rep s1 lo hi (Store.Ref a) (Tree (strip l) ks)).
  { rewrite <- El1. econstructor; eassumption. }
  assert (Hh : height (Tree (strip l) ks) <= fuel) by (simpl in *; lia).
  rewrite (mbind_Return _ _ _ _ _ (is_leaf_rep _ _ _ _ _ _ Hrep1 Hh)).
  change (_is_leaf (Tree (strip l) ks)) with (_is_leaf (Tree l ks)).
  destruct (_is_leaf (Tree l ks)) eqn:Hleaf.
  - (* a leaf: its token is replaced *)
    destruct (full_leaf _ _ Hfull Hleaf) as (v & ks0 & ->).
    destruct (reps_token _ _ _ _ _ _ Hks1) as (its0 & mid & Eits & Hmid & Hks0).
    rewrite <- Ei1, Eits. cbn [item0 Store.lift bind].
    rewrite (mbind_Return _ _ s1 s1 (Store.Val v)) by reflexivity.
    set (o2 := Store.Object (Store.label o1)
                 (<[0 := Store.Val (PInt index)]> (Store.items o1)) (Store.parent o1)).
    assert (E2 : Store.set_item0 a (PInt index) s1 = (<[a := o2]> s1, Store.Return tt)).
    { unfold Store.set_item0.
      rewrite (mbind_Return _ _ _ _ _ (read_ok _ _ _ Ho1)), Eits.
      cbn [item0 Store.lift].
      rewrite (mbind_Return _ _ s1 s1 (Store.Val v)) by reflexivity.
      cbn [Store.set_parent].
      rewrite (mbind_Return _ _ s1 s1 tt) by reflexivity.
      rewrite (write_ok _ _ _ _ Ho1). unfold o2. now rewrite Eits. }
    rewrite (mbind_Return _ _ _ _ _ E2). cbn [Store.ret fst snd].
    split; [|split; [reflexivity|]].
    + apply (only_within_trans lo hi a (S a) a (S a) s s1 (<[a := o2]> s1));
        auto using only_within_insert; lia.
    + replace (strip l) with (Store.label o2) by (simpl; exact El1).
      econstructor.
      * apply list_lookup_insert_eq. eapply lookup_lt_Some, Ho1.
      * exact Ha.
      * unfold o2. cbn [Store.items]. rewrite Eits. simpl.
        econstructor; [constructor; exact Hmid|].
        eapply (proj2 (rep_keeps s1 _)); [exact Hks0|].
        eapply only_within_keeps; [apply only_within_insert|]. lia.
  - (* a phrase: the children are preprocessed in turn *)
    assert (Hfks : forallb full ks = true).
    { simpl in Hfull. now apply andb_true_iff in Hfull as [_ ?]. }
    assert (Hhks : max_list (map height ks) < fuel) by (simpl in Hfuel; lia).
    rewrite <- Ei1.
    destruct (preprosess_loop_rep fuel IH ks (Store.items o1) lo a s1 index Hks1 Hfks Hhks)
      as [W2 P2].
    destruct (Store.preprosess_loop _ _ _ s1) as [s2 r2].
    cbn [fst snd] in *.
    split.
    { apply (only_within_trans lo hi a (S a) lo a s s1 s2); auto; lia. }
    destruct (preprosess_loop preprosess_iterate ks index) as [[ks' seqs]|e];
      cbn [bind fst snd]; [|exact P2].
    destruct P2 as [-> R2]. split; [reflexivity|].
    destruct W2 as [_ W2].
    rewrite <- El1. econstructor; [|exact Ha|exact R2].
    rewrite W2 by lia. exact Ho1.
Qed.

Lemma sub_labels_of_labels r views ks :
  Forall2 same_label views ks ->
  Convertor.sub_labels_of r views = Convertor.sub_labels_of r ks.
Proof.
  intros H. unfold Convertor.sub_labels_of. f_equal.
  induction H as [|v k views ks Hvk _ IH]; simpl; [reflexivity|].
  unfold same_label in Hvk. now rewrite Hvk, IH.
Qed.

Lemma try_rules_labels rules views ks :
  Forall2 same_label views ks ->
  Convertor.try_rules rules views = Convertor.try_rules rules ks.
Proof.
  intros H. induction rules as [|r rules IH]; simpl; [reflexivity|].
  rewrite (sub_labels_of_labels r views ks H).
  destruct (Convertor.sub_labels_of r ks) as [sls|e]; simpl; [|reflexivity].
  destruct (tags r); [reflexivity|].
  destruct (Convertor.try_tags _ _) as [[i|]|e]; simpl; auto.
Qed.

Lemma last_labels views ks :
  Forall2 same_label views ks ->
  match last views, last ks with
  | Some v, Some k => same_label v k
  | None, None => True
  | _, _ => False
  end.
Proof.
  induction 1 as [|v k views ks Hvk Hrest IH]; [exact I|].
  destruct Hrest as [|v' k' views ks Hvk' Hrest]; [exact Hvk|].
  exact IH.
Qed.

Lemma select_head_labels (head_rules : table) l views ks :
  Forall2 same_label views ks ->
  Convertor.select_head head_rules l views = Convertor.select_head head_rules l ks.
Proof.
  intros H. unfold Convertor.select_head.
  destruct (head_rules !! l) as [rules|]; [now apply try_rules_labels|].
  unfold item_last. pose proof (last_labels _ _ H) as HL.
  destruct (last views) as [v|], (last ks) as [k|]; try contradiction; [|reflexivity].
  simpl. unfold same_label in HL. now rewrite HL.
Qed.

Lemma child_views_rep s :
  forall lo hi its ks, reps s lo hi its ks ->
  exists views,
    Store.mapM Store.child_view its s = (s, Store.Return views) /\
    Forall2 same_label views ks.
Proof.
  intros lo hi its ks H.
  induction H as [|lo mid hi it its k ks Hk Hks IH].
  - exists []. split; [reflexivity|constructor].
  - destruct IH as (views & E & F).
    assert (H1 : exists v, Store.child_view it s = (s, Store.Return v) /\ same_label v k).
    { destruct Hk as [lo mid v _|lo mid c o kk Ho _ _].
      - exists (Tok v). split; reflexivity.
      - exists (Tree (Store.label o) []). split; [|reflexivity].
        unfold Store.child_view.
        now rewrite (mbind_Return _ _ _ _ _ (read_ok _ _ _ Ho)). }
    destruct H1 as (v & Ev & Sv).
    exists (v :: views). simpl Store.mapM.
    rewrite (mbind_Return _ _ _ _ _ Ev), (mbind_Return _ _ _ _ _ E).
    split; [reflexivity|now constructor].
Qed.

Section MarkStore.
Variable head_rules : table.

Lemma mark_heads_iterate_S fuel a :
  Store.mark_heads_iterate head_rules (S fuel) a =
  Store.mbind (Store.read a) (fun o =>
  Store.mbind (Store._is_leaf fuel a) (fun leaf =>
  if leaf : bool then
    Store.mbind (Store.lift (item0 (Store.items o))) (fun tok =>
    Store.mbind (match tok with
                 | Store.Val v => Store.ret (Convertor.str_of_pyval v)
                 | Store.Ref _ => Store.throw NotModelled
                 end) (fun s =>
    Store.set_label a (head_label s (Store.label o))))
  else
    Store.mbind (Store.mapM (fun it => match it with
                                       | Store.Ref c =>
                                           Store.mark_heads_iterate head_rules fuel c
                                       | Store.Val _ => Store.throw AttributeError
                                       end) (Store.items o)) (fun _ =>
    Store.mbind (Store.mapM Store.child_view (Store.items o)) (fun ks =>
    Store.mbind (Store.lift (Convertor.select_head head_rules (Store.label o) ks))
      (fun sel =>
    match sel with
    | Some index => Store.set_label a (head_label index (Store.label o))
    | None => Store.ret tt
    end))))).
Proof. reflexivity. Qed.

Lemma mark_children_rep fuel :
  (forall s lo hi a t,
     rep s lo hi (Store.Ref a) t -> height t < fuel ->
     mark_post head_rules lo hi (Store.Ref a) t s (Store.mark_heads_iterate head_rules fuel a s)) ->
  forall ks its lo hi s,
    reps s lo hi its ks -> max_list (map height ks) < fuel ->
    mark_children_post head_rules lo hi its ks s
      (Store.mapM (fun it => match it with
                             | Store.Ref c => Store.mark_heads_iterate head_rules fuel c
                             | Store.Val _ => Store.throw AttributeError
                             end) its s).
Proof.
  intros IH ks. induction ks as [|k ks IHks]; intros its lo hi s Hr Hh.
  { inversion Hr; subst. split; [apply only_within_refl|]. simpl.
    split; [eauto|]. now constructor. }
  inversion Hr as [|? mid ? it its' ? ? Hk Hks]; subst.
  assert (Hhk : height k < fuel /\ max_list (map height ks) < fuel)
    by (simpl in Hh; lia).
  destruct Hhk as [Hhk Hhks].
  pose proof (proj1 rep_bounds _ _ _ _ _ Hk) as Hb1.
  pose proof (proj2 rep_bounds _ _ _ _ _ Hks) as Hb2.
  unfold mark_children_post. simpl Store.mapM. simpl mapM.
  destruct it as [c|v].
  2: { inversion Hk; subst. simpl. split; [apply only_within_refl|reflexivity]. }
  destruct (IH s lo mid c k Hk Hhk) as [W1 P1].
  destruct (Store.mark_heads_iterate head_rules fuel c s) as [s1 r1] eqn:E1.
  cbn [fst snd] in W1, P1.
  destruct (Convertor.mark_heads_iterate head_rules k) as [k'|e] eqn:Ek.
  - destruct P1 as [-> Rk']. cbn [bind].
    rewrite (mbind_Return _ _ _ _ _ E1).
    assert (Hks1 : reps s1 mid hi its' ks).
    { eapply (proj2 (rep_keeps s s1)); [exact Hks|].
      eapply only_within_keeps; [exact W1|]. lia. }
    destruct (IHks its' mid hi s1 Hks1 Hhks) as [W2 P2].
    destruct (Store.mapM _ its' s1) as [s2 r2] eqn:E2.
    cbn [fst snd] in W2, P2.
    destruct (mapM (Convertor.mark_heads_iterate head_rules) ks) as [ks'|e] eqn:Eks.
    + destruct P2 as [[us ->] Rks']. rewrite (mbind_Return _ _ _ _ _ E2).
      cbn [bind fst snd Store.ret].
      split; [apply (only_within_trans lo hi lo mid mid hi s s1 s2); auto; lia|].
      split; [eauto|].
      econstructor; [|exact Rks'].
      eapply (proj1 (rep_keeps s1 s2)); [exact Rk'|].
      eapply only_within_keeps; [exact W2|]. lia.
    + subst r2. rewrite (mbind_Throw _ _ _ _ _ E2). cbn [bind fst snd].
      split; [apply (only_within_trans lo hi lo mid mid hi s s1 s2); auto; lia|].
      reflexivity.
  - subst r1. cbn [bind]. rewrite (mbind_Throw _ _ _ _ _ E1). cbn [fst snd].
    split; [|reflexivity].
    apply (only_within_trans lo hi lo mid mid hi s s1 s1); auto; try lia.
    apply only_within_refl.
Qed.

Lemma set_label_rep (s : list Store.object) lo hi a o l ks :
  s !! a = Some o -> lo <= a < hi -> reps s lo a (Store.items o) ks ->
  exists s',
    Store.set_label a l s = (s', Store.Return tt) /\
    only_within a (S a) s s' /\
    rep s' lo hi (Store.Ref a) (Tree l ks).
Proof.
  intros Ho Ha Hks.
  set (o' := Store.Object l (Store.items o) (Store.parent o)).
  exists (<[a := o']> s). split; [exact (write_ok s a o _ Ho)|].
  split; [apply only_within_insert|].
  change l with (Store.label o'). econstructor.
  - apply list_lookup_insert_eq. eapply lookup_lt_Some, Ho.
  - exact Ha.
  - simpl. eapply (proj2 (rep_keeps s _)); [exact Hks|].
    eapply only_within_keeps; [apply only_within_insert|]. lia.
Qed.

(** Head marking in the store does what head marking on values does. *)
Lemma mark_heads_rep fuel : forall s lo hi a t,
  rep s lo hi (Store.Ref a) t -> height t < fuel ->
  mark_post head_rules lo hi (Store.Ref a) t s (Store.mark_heads_iterate head_rules fuel a s).
Proof.
  induction fuel as [|fuel IH]; intros s lo hi a t Hrep Hfuel; [lia|].
  inversion Hrep as [|? ? ? o ks Ho Ha Hks]; subst.
  set (l := Store.label o) in *.
  unfold mark_post.
  rewrite mark_heads_iterate_S, (mbind_Return _ _ _ _ _ (read_ok _ _ _ Ho)).
  assert (Hh : height (Tree l ks) <= fuel) by lia.
  rewrite (mbind_Return _ _ _ _ _ (is_leaf_rep _ _ _ _ _ _ Hrep Hh)).
  rewrite mark_heads_iterate_eq. fold l.
  destruct (_is_leaf (Tree l ks)) eqn:Hleaf.
  - (* a leaf *)
    destruct (Store.items o) as [|it its] eqn:Eits.
    { inversion Hks; subst. cbn [item0 Store.lift bind].
      split; [apply only_within_refl|reflexivity]. }
    inversion Hks as [|? mid ? ? ? k ks0 Hk Hks']; subst.
    cbn [item0 Store.lift bind].
    rewrite (mbind_Return _ _ s s it) by reflexivity.
    destruct Hk as [lo mid v Hlm|lo mid c oc kk Hoc Hc Hkk].
    + assert (Es : str_of (Tok v) = Ok (Convertor.str_of_pyval v)) by now destruct v.
      rewrite Es. cbn [bind].
      rewrite (mbind_Return _ _ s s (Convertor.str_of_pyval v)) by reflexivity.
      destruct (set_label_rep s lo hi a o
                  (head_label (Convertor.str_of_pyval v) l) (Tok v :: ks0) Ho Ha)
        as (s' & E & W & R).
      { rewrite Eits. econstructor; [constructor; exact Hlm|exact Hks']. }
      rewrite E. cbn [fst snd]. split; [|split; [reflexivity|exact R]].
      apply (only_within_trans lo hi a (S a) a (S a) s s' s');
        auto using only_within_refl; lia.
    + cbn [str_of bind]. rewrite (mbind_Throw _ _ s s NotModelled) by reflexivity.
      split; [apply only_within_refl|reflexivity].
  - (* a phrase *)
    assert (Hhks : max_list (map height ks) < fuel) by (simpl in Hfuel; lia).
    destruct (mark_children_rep fuel IH ks (Store.items o) lo a s Hks Hhks) as [W1 P1].
    destruct (Store.mapM _ (Store.items o) s) as [s1 r1] eqn:E1.
    cbn [fst snd] in W1, P1.
    destruct (mapM (Convertor.mark_heads_iterate head_rules) ks) as [ks'|e] eqn:Eks.
    2: { subst r1. rewrite (mbind_Throw _ _ _ _ _ E1). cbn [bind fst snd].
         split; [|reflexivity].
         apply (only_within_trans lo hi lo a lo a s s1 s1);
           auto using only_within_refl; lia. }
    destruct P1 as [[us ->] R1]. rewrite (mbind_Return _ _ _ _ _ E1). cbn [bind].
    destruct (child_views_rep s1 _ _ _ _ R1) as (views & Ev & Fv).
    rewrite (mbind_Return _ _ _ _ _ Ev), (select_head_labels _ _ _ _ Fv).
    assert (Ho1 : s1 !! a = Some o).
    { destruct W1 as [_ W1]. rewrite W1 by lia. exact Ho. }
    destruct (Convertor.select_head head_rules l ks') as [[index|]|e] eqn:Es;
      cbn [Store.lift bind].
    + rewrite (mbind_Return _ _ s1 s1 (Some index)) by reflexivity.
      destruct (set_label_rep s1 lo hi a o (head_label index l) ks' Ho1 Ha R1)
        as (s2 & E & W & R).
      rewrite E. cbn [fst snd]. split; [|split; [reflexivity|exact R]].
      apply (only_within_trans lo hi lo a a (S a) s s1 s2); auto; lia.
    + rewrite (mbind_Return _ _ s1 s1 None) by reflexivity.
      cbn [Store.ret fst snd]. split; [|split; [reflexivity|]].
      * apply (only_within_trans lo hi lo a lo a s s1 s1);
          auto using only_within_refl; lia.
      * unfold l. econstructor; eassumption.
    + rewrite (mbind_Throw _ _ s1 s1 e) by reflexivity. cbn [fst snd].
      split; [|reflexivity].
      apply (only_within_trans lo hi lo a lo a s s1 s1);
        auto using only_within_refl; lia.
Qed.

End MarkStore.

(** Neither preprocessing nor head marking changes the height of a tree. *)
Lemma preprosess_height t : forall index r,
  preprosess_iterate t index = Ok r -> height r.1 = height t.
Proof.
  induction t as [v|l ks IH] using tree_ind'; intros index r; [discriminate|].
  rewrite preprosess_iterate_eq, clean_strip. cbn [bind].
  destruct (_is_leaf (Tree l ks)) eqn:Hleaf.
  - destruct ks as [|k ks]; [discriminate|]. cbn [item0 bind]. intros [= <-].
    unfold _is_leaf in Hleaf. apply Nat.eqb_eq in Hleaf.
    pose proof (height_pos k). simpl in *. lia.
  - intros H. apply bind_ok in H as (rs & Hloop & [= <-]). simpl. f_equal. f_equal.
    clear Hleaf. revert index rs Hloop.
    induction IH as [|k ks Hk _ IHks]; intros index rs Hloop.
    + inversion Hloop. reflexivity.
    + simpl in Hloop. apply bind_ok in Hloop as (rk & Ek & Hloop).
      apply bind_ok in Hloop as (rks & Eks & [= <-]). simpl.
      now rewrite (Hk _ _ Ek), (IHks _ _ Eks).
Qed.

Lemma mark_heads_height (head_rules : table) t : forall t',
  Convertor.mark_heads_iterate head_rules t = Ok t' -> height t' = height t.
Proof.
  induction t as [v|l ks IH] using tree_ind'; intros t'; [discriminate|].
  rewrite mark_heads_iterate_eq.
  destruct (_is_leaf (Tree l ks)).
  - intros H. apply bind_ok in H as (tok & _ & H).
    apply bind_ok in H as (s & _ & [= <-]). reflexivity.
  - intros H. apply bind_ok in H as (ks' & Hks & H).
    assert (Hh : map height ks' = map height ks).
    { apply mapM_ok in Hks. clear H.
      induction Hks as [|k k' ks ks' Hk _ IHks]; [reflexivity|].
      inversion IH as [|? ? IHk IHrest]; subst. simpl.
      now rewrite (IHk _ Hk), (IHks IHrest). }
    apply bind_ok in H as ([i|] & _ & [= <-]); simpl; now rewrite Hh.
Qed.

(** The run of [Store.__parse] on the objects built for a tree returns what
    the functions on values return, and raises what they raise. *)
Lemma parse_rep (head_rules : table) l ks (s : list Store.object) fuel :
  full (Tree l ks) = true ->
  height (Tree l ks) < fuel ->
  exists s0 a,
    Store.build (Tree l ks) s = (s0, Store.Return (Store.Ref a)) /\
    (Store.__parse head_rules fuel a s0).2
      = outcome_of (parse_values head_rules (Tree l ks)).
Proof.
  intros Hfull Hfuel. set (t := Tree l ks) in *.
  destruct (build_rep t s) as (s0 & it & Eb & _ & _ & R0).
  assert (Hit : exists a, it = Store.Ref a) by (inversion R0; eauto).
  destruct Hit as (a & ->).
  exists s0, a. split; [exact Eb|].
  destruct (copy_rep fuel s0 _ _ a t R0) as (s1 & a1 & Ec1 & _ & _ & R1); [lia|].
  destruct (preprosess_rep fuel s1 _ _ a1 t 1 R1 Hfull Hfuel) as [_ P2].
  unfold Store.__parse, Store._preprosess, Store.__mark_heads, parse_values, _preprosess,
    Convertor.__mark_heads, Store.mbind, Store.ret.
  rewrite Ec1. cbv beta iota.
  destruct (Store.preprosess_iterate fuel a1 1 s1) as [s2 r2] eqn:E2.
  cbn [fst snd] in P2.
  destruct (preprosess_iterate t 1) as [[t1 seqs]|e] eqn:Ep.
  2: { subst r2. reflexivity. }
  destruct P2 as [-> R2]. cbn [fst snd bind] in *.
  pose proof (preprosess_height t 1 _ Ep) as Hh1. cbn [fst] in Hh1.
  destruct (copy_rep fuel s2 _ _ a1 t1 R2) as (s3 & a2 & Ec2 & _ & _ & R3); [lia|].
  destruct (mark_heads_rep head_rules fuel s3 _ _ a2 t1 R3) as [_ P4]; [lia|].
  rewrite Ec2. cbv beta iota.
  destruct (Store.mark_heads_iterate head_rules fuel a2 s3) as [s4 r4] eqn:E4.
  cbn [fst snd] in P4.
  destruct (Convertor.mark_heads_iterate head_rules t1) as [t2|e] eqn:Em.
  2: { subst r4. reflexivity. }
  destruct P4 as [-> R4]. cbn [bind].
  pose proof (mark_heads_height head_rules t1 _ Em) as Hh2.
  rewrite (reify_rep fuel s4 _ _ a2 t2 R4 ltac:(lia)). cbv beta iota.
  destruct (_get_relations t2) as [rels|e]; reflexivity.
Qed.

Lemma frame_take (s s' : list Store.object) :
  Store.frame (length s) s s' -> length s <= length s' -> take (length s) s' = s.
Proof.
  intros F L. apply list_eq. intros i.
  destruct (decide (i < length s)) as [Hi|Hi].
  - rewrite lookup_take_lt by assumption. now apply F.
  - rewrite lookup_take_ge by lia. symmetry. apply lookup_ge_None_2. lia.
Qed.

(** C7. A conversion changes no object that existed before it: whatever
    the store, the address and the fuel, and however the run ends, every
    object of the initial store is the same afterwards. [_preprosess] and
    [__mark_heads] each return a root that lies in the newly allocated
    part of the store, and that part refers to nothing outside itself.
    On the objects built for a tree without empty brackets, and with fuel
    above its height, the run ends as the functions on values do, and
    the objects of the input are the first objects of the final store,
    unchanged. *)
Theorem conversion_leaves_input_unchanged :
  (forall (head_rules : table) fuel root (s : list Store.object) a,
     a < length s ->
     (Store.__parse head_rules fuel root s).1 !! a = s !! a) /\
  (forall fuel root (s : list Store.object),
     Store.frame (length s) s (Store._preprosess fuel root s).1 /\
     Store.closed (length s) (Store._preprosess fuel root s).1 /\
     forall r, (Store._preprosess fuel root s).2 = Store.Return r -> length s <= r.1) /\
  (forall (head_rules : table) fuel root (s : list Store.object),
     Store.frame (length s) s (Store.__mark_heads head_rules fuel root s).1 /\
     Store.closed (length s) (Store.__mark_heads head_rules fuel root s).1 /\
     forall r, (Store.__mark_heads head_rules fuel root s).2 = Store.Return r ->
               length s <= r) /\
  (forall (head_rules : table) l ks (s : list Store.object) fuel,
     full (Tree l ks) = true ->
     height (Tree l ks) < fuel ->
     exists s0 a,
       Store.build (Tree l ks) s = (s0, Store.Return (Store.Ref a)) /\
       (Store.__parse head_rules fuel a s0).2
         = outcome_of (parse_values head_rules (Tree l ks)) /\
       take (length s0) (Store.__parse head_rules fuel a s0).1 = s0).
Proof.
  split; [|split; [|split]].
  - intros head_rules fuel root s a Ha.
    destruct (safe_parse (length s) head_rules fuel root s (le_n _) (closed_at_end s))
      as (F & _). now apply F.
  - intros fuel root s.
    destruct (safe_preprosess (length s) fuel root s (le_n _) (closed_at_end s))
      as (F & C & _ & R). auto.
  - intros head_rules fuel root s.
    destruct (safe_mark_heads (length s) head_rules fuel root s (le_n _) (closed_at_end s))
      as (F & C & _ & R). auto.
  - intros head_rules l ks s fuel Hfull Hfuel.
    destruct (parse_rep head_rules l ks s fuel Hfull Hfuel) as (s0 & a & Eb & Ep).
    exists s0, a. split; [exact Eb|]. split; [exact Ep|].
    destruct (safe_parse (length s0) head_rules fuel a s0 (le_n _) (closed_at_end s0))
      as (F & _ & L & _). now apply frame_take.
Qed.

(** ** A phrase that no rule resolves *)

Section Unresolved.
Import Convertor.
Variable head_rules : table.

Lemma try_tags_none tgs sls pairs :
  mapM unpack2 sls = Ok pairs ->
  (forall t, t ∈ tgs -> t ∉ map snd pairs) ->
  try_tags tgs sls = Ok None.
Proof.
  intros Hp Hno. induction tgs as [|t tgs IH]; simpl; [reflexivity|].
  rewrite Hp. simpl. rewrite bool_decide_eq_false_2 by (apply Hno; left).
  apply IH. intros t' Ht'. apply Hno. now right.
Qed.

(** When every rule of the category has tags and none of them is the
    category of a child, the loops end without a head. *)
Lemma no_rule_matches rules ks :
  Forall is_tree ks ->
  Forall (fun k => is_ok (category k) = true) ks ->
  Forall (fun r => tags r <> []) rules ->
  (forall r t k, r ∈ rules -> t ∈ tags r -> k ∈ ks -> category k <> Ok t) ->
  try_rules rules ks = Ok None.
Proof.
  intros Htrees Hcat Htags Hno.
  induction rules as [|r rules IH]; simpl; [reflexivity|].
  inversion Htags as [|? ? Hr Hrest]; subst.
  rewrite (sub_labels_of_scan _ _ Htrees). simpl.
  assert (Hperm : forall k, k ∈ scan (direction r) ks <-> k ∈ ks).
  { intros k. unfold scan. destruct (String.eqb _ _); [|reflexivity].
    rewrite !list_elem_of_In. symmetry. apply in_rev. }
  destruct (unpack_children (scan (direction r) ks)) as (pairs & Hp & Hin).
  { intros k Hk. apply Hperm in Hk. rewrite Forall_forall in Htrees, Hcat.
    specialize (Htrees k Hk). specialize (Hcat k Hk).
    rewrite category_parts in * by assumption.
    destruct (unpack2 (parts k)) as [p|]; [|discriminate]. now exists p. }
  rewrite (try_tags_none (tags r) _ pairs Hp).
  - destruct (tags r); [contradiction|]. simpl. apply IH; [exact Hrest|].
    intros r' t k Hr' Ht Hk. apply (Hno r' t k); [now right|exact Ht|exact Hk].
  - intros t Ht Hmem. apply Hin in Hmem as (k & Hk & E).
    apply (Hno r t k); [left|exact Ht|now apply Hperm|exact E].
Qed.

(** Such a phrase keeps its label as it was, and nothing is raised. *)
Lemma unresolved_node_keeps_label label ks ks' :
  _is_leaf (Tree label ks) = false ->
  mapM (mark_heads_iterate head_rules) ks = Ok ks' ->
  select_head head_rules label ks' = Ok None ->
  mark_heads_iterate head_rules (Tree label ks) = Ok (Tree label ks').
Proof.
  intros Hleaf Hks Hsel. rewrite mark_heads_iterate_eq, Hleaf, Hks. simpl.
  now rewrite Hsel.
Qed.

End Unresolved.

(** C9. The code has no such error. With the line [2: l C] and the tree
    [(2 (A x) (B y))], the category 2 has a rule and no child matches it:
    head marking returns the node with its label as it was, and the
    conversion prints rows in which the label 2 is read as a head index.
    With [S] in place of [2] the conversion does stop, but only in the
    sort, on [int('S')]; and below a phrase whose rule has tags it stops
    on the unpacking of the unmarked label. Both are [ValueError]s that
    come from elsewhere. *)
Theorem unresolved_head_is_not_reported :
  exists rules,
    _load_head_rules ["2: l C"] = Ok rules /\
    rules !! "2" = Some [Rule "l" ["C"]] /\
    Convertor.select_head rules "2"
      [Tree "1|A" [Tok (PInt 1)]; Tree "2|B" [Tok (PInt 2)]] = Ok None /\
    Convertor.__mark_heads rules
      (Tree "2" [Tree "A" [Tok (PInt 1)]; Tree "B" [Tok (PInt 2)]])
      = Ok (Tree "2" [Tree "1|A" [Tok (PInt 1)]; Tree "2|B" [Tok (PInt 2)]]) /\
    Convertor.__parse rules (Tree "2" [Tree "A" [Tok (PStr "x")]; Tree "B" [Tok (PStr "y")]])
      = Ok [("1", Tok (PStr "x"), "A", PStr "2"); ("2", Tok (PStr "y"), "B", PInt 0)] /\
    is_ok (Convertor.convert rules
             (Tree "2" [Tree "A" [Tok (PStr "x")]; Tree "B" [Tok (PStr "y")]])) = true /\
    Convertor.__mark_heads {[ "S" := [Rule "l" ["C"]] ]}
      (Tree "S" [Tree "A" [Tok (PInt 1)]; Tree "B" [Tok (PInt 2)]])
      = Ok (Tree "S" [Tree "1|A" [Tok (PInt 1)]; Tree "2|B" [Tok (PInt 2)]]) /\
    Convertor.convert {[ "S" := [Rule "l" ["C"]] ]}
      (Tree "S" [Tree "A" [Tok (PStr "x")]; Tree "B" [Tok (PStr "y")]])
      = Raise ValueError /\
    Convertor.__mark_heads {[ "X" := [Rule "l" ["C"]]; "S" := [Rule "l" ["B"]] ]}
      (Tree "S" [Tree "X" [Tree "A" [Tok (PInt 1)]]; Tree "B" [Tok (PInt 2)]])
      = Raise ValueError.
Proof.
  eexists. split; [reflexivity|]. repeat split; vm_compute; reflexivity.
Qed.

(** The run on [(S (NP-SBJ (NN dog)) (VP (VBZ barks)))]: the five objects
    of the input are followed by the five of the preprocessed copy and
    the five of the marked copy. *)
Example dog_barks_in_store :
  exists s0 s1,
    Store.build dog_barks [] = (s0, Store.Return (Store.Ref 4)) /\
    Store.__parse dog_rules 5 4 s0
      = (s1, Store.Return ([("NN", Store.Val (PStr "dog"));
                            ("VBZ", Store.Val (PStr "barks"))],
                           [("1", PStr "2"); ("2", PInt 0)])) /\
    length s0 = 5 /\ length s1 = 15 /\ take 5 s1 = s0 /\
    Store.label <$> s1 !! 4 = Some "S" /\
    Store.label <$> s1 !! 6 = Some "NP" /\
    Store.label <$> s1 !! 14 = Some "2|S".
Proof.
  eexists. eexists. split; [vm_compute; reflexivity|].
  split; [vm_compute; reflexivity|]. repeat split.
Qed.

(** * Further properties *)

(** ** Leaves *)

Lemma flat_height k : flat k = true <-> height k = 1.
Proof.
  destruct k as [v|l ks]; simpl; [tauto|].
  rewrite bool_decide_eq_true. split; [now intros ->|].
  destruct ks as [|k ks]; [reflexivity|].
  pose proof (height_pos k). simpl. lia.
Qed.

Lemma max_list_flat ks :
  max_list (map height ks) = 1 <-> ks <> [] /\ forallb flat ks = true.
Proof.
  induction ks as [|k ks IH]; simpl; [split; [lia|now intros [? _]]|].
  pose proof (height_pos k) as Hk. rewrite andb_true_iff, flat_height.
  destruct ks as [|k' ks'].
  - simpl in *. split; [intros H; split; [discriminate|lia]|lia].
  - split.
    + intros H. split; [discriminate|].
      assert (Hm : max_list (map height (k' :: ks')) = 1).
      { pose proof (height_pos k'). simpl in *. lia. }
      apply IH in Hm as [_ Hm]. split; [lia|exact Hm].
    + intros [_ [H1 H2]].
      assert (Hm : max_list (map height (k' :: ks')) = 1)
        by (apply IH; split; [discriminate|exact H2]).
      lia.
Qed.

Lemma is_leaf_flat l ks :
  _is_leaf (Tree l ks) = negb (bool_decide (ks = [])) && forallb flat ks.
Proof.
  apply eq_true_iff_eq. unfold _is_leaf.
  rewrite Nat.eqb_eq, andb_true_iff, negb_true_iff, bool_decide_eq_false.
  simpl. rewrite <- max_list_flat. lia.
Qed.

(** X1. A node is a leaf exactly when it has a child and each of its
    children is a token or a tree without children: such a tree counts
    like a token. *)
Theorem leaf_children_are_flat l ks :
  _is_leaf (Tree l ks) = true <->
  ks <> [] /\
  forall k, k ∈ ks -> (exists v, k = Tok v) \/ (exists l', k = Tree l' []).
Proof.
  rewrite is_leaf_flat, andb_true_iff, negb_true_iff, bool_decide_eq_false.
  rewrite forallb_forall. split; intros [Hne H]; (split; [exact Hne|]).
  - intros k Hk. apply list_elem_of_In, H in Hk.
    destruct k as [v|l' kk]; [left; eauto|right].
    apply bool_decide_eq_true in Hk. subst kk. eauto.
  - intros k Hk. apply list_elem_of_In, H in Hk.
    destruct Hk as [(v & ->)|(l' & ->)]; reflexivity.
Qed.

(** ** The rule file, again *)

(** Whether a blank starts a text is decided by its first bytes. *)
Lemma blank_len_prefix v r : blank_len (v +:+ r) = 0 -> blank_len v = 0.
Proof.
  destruct v as [|a [|b [|c v]]]; [reflexivity|..];
    rewrite ?append_cons, ?append_nil; unfold blank_len.
  - destruct (blank1 _); [discriminate|reflexivity].
  - destruct (blank1 _); [discriminate|].
    destruct (blank2 _ _); [discriminate|reflexivity].
  - exact (fun H => H).
Qed.

Lemma blank_len_le s : blank_len s <= String.length s.
Proof.
  destruct s as [|a [|b [|c s]]]; unfold blank_len; simpl String.length;
    repeat match goal with
           | |- context [if ?b then _ else _] => destruct b
           end; lia.
Qed.

(** The word at the head of a text is a prefix of it, no blank starts
    in it, and the words after it are words. *)
Lemma split_ws_aux_words s : forall skip,
  no_blank (split_ws_aux s skip).1 = true /\
  (skip = 0 -> exists rest, s = (split_ws_aux s skip).1 +:+ rest) /\
  Forall (fun w => word w = true) (split_ws_aux s skip).2.
Proof.
  induction s as [|a s IH]; intros skip.
  - split; [reflexivity|]. split; [now exists EmptyString|constructor].
  - cbn [split_ws_aux].
    destruct (match skip with 0 => blank_len (String a s) | S _ => skip end)
      as [|n] eqn:E.
    + destruct (IH 0) as (H1 & H2 & H3).
      destruct (split_ws_aux s 0) as [w ws]. cbn [fst snd] in *.
      destruct (H2 eq_refl) as (rest & Hrest).
      assert (Hb : blank_len (String a s) = 0) by (destruct skip; [exact E|discriminate]).
      split; [|split; [|exact H3]].
      * cbn [no_blank]. rewrite H1, andb_true_r. apply Nat.eqb_eq.
        apply (blank_len_prefix (String a w) rest).
        rewrite append_cons, <- Hrest. exact Hb.
      * intros _. exists rest. now rewrite append_cons, <- Hrest.
    + destruct (IH n) as (H1 & _ & H3).
      destruct (split_ws_aux s n) as [w ws]. cbn [fst snd] in *.
      split; [reflexivity|]. split; [intros _; now exists (String a s)|].
      destruct w as [|b w]; [exact H3|].
      constructor; [|exact H3]. unfold word. now rewrite H1.
Qed.

Lemma split_ws_words s : Forall (fun w => word w = true) (split_ws s).
Proof.
  unfold split_ws. pose proof (split_ws_aux_words s 0) as (H1 & _ & H2).
  destruct (split_ws_aux s 0) as [w ws]. cbn [fst snd] in *.
  destruct w as [|b w]; [exact H2|].
  constructor; [|exact H2]. unfold word. now rewrite H1.
Qed.

Lemma foldM_invariant {A S} (f : S -> A -> result S) (P : S -> Prop) l :
  (forall s x s', P s -> f s x = Ok s' -> P s') ->
  forall s s', P s -> foldM f s l = Ok s' -> P s'.
Proof.
  intros Hf. induction l as [|x l IH]; intros s s' Hs; simpl.
  - now intros [= <-].
  - intros H. apply bind_ok in H as (s1 & H1 & H). eapply IH; [|exact H].
    eapply Hf; eassumption.
Qed.

Lemma line_rules_words line :
  line_ok line = true ->
  line_rules line <> [] /\
  Forall (fun r => word (direction r) = true /\
                   Forall (fun tg => word tg = true) (tags r))
         (line_rules line).
Proof.
  unfold line_ok, line_rules. intros H. apply andb_true_iff in H as [_ H].
  split.
  - pose proof (split_on_nonempty ";" (after ":" line)).
    destruct (split_on ";" (after ":" line)); [contradiction|discriminate].
  - rewrite forallb_forall in H. apply Forall_forall. intros r Hr.
    apply list_elem_of_fmap in Hr as (ws & -> & Hws).
    apply list_elem_of_fmap in Hws as (piece & -> & Hp).
    apply list_elem_of_In, H in Hp. apply negb_true_iff, bool_decide_eq_false in Hp.
    pose proof (split_ws_words piece) as Hw.
    destruct (split_ws piece) as [|w ws]; [contradiction|].
    inversion Hw; subst. simpl. split; assumption.
Qed.

(** X2. In a table that has been loaded every category has at least
    one rule, and the direction and the tags of every rule are words:
    not empty, and without any of the blanks at which [str.split()]
    cuts, those beyond ASCII included. *)
Theorem loaded_rules_are_words lines (rules : table) tag rs :
  _load_head_rules lines = Ok rules ->
  rules !! tag = Some rs ->
  rs <> [] /\
  Forall (fun r => word (direction r) = true /\
                   Forall (fun tg => word tg = true) (tags r)) rs.
Proof.
  unfold _load_head_rules. intros Hload. revert tag rs.
  refine (foldM_invariant load_line
            (fun T : table => forall tag rs, T !! tag = Some rs -> _ /\ _)
            lines _ ∅ rules _ Hload).
  - intros T line T' HT. rewrite load_line_spec.
    destruct (line_ok line) eqn:Hok; [|discriminate]. intros [= <-] tag rs.
    destruct (decide (line_tag line = tag)) as [<-|Hne].
    + rewrite lookup_insert_eq. intros [= <-]. now apply line_rules_words.
    + rewrite lookup_insert_ne by exact Hne. apply HT.
  - intros tag rs. rewrite lookup_empty. discriminate.
Qed.

(** The rules are cut at every blank of [str.split()]: an ideographic
    space separates a direction from a tag as a space does, and a rule
    made of nothing else has no token. *)
Example rules_are_cut_at_every_blank :
  split_ws ("l" +:+ ideographic_space +:+ "VP") = ["l"; "VP"] /\
  (exists rules,
     _load_head_rules ["S: l" +:+ ideographic_space +:+ "VP"] = Ok rules /\
     rules !! "S" = Some [Rule "l" ["VP"]]) /\
  line_ok ("S: l VP;" +:+ ideographic_space) = false /\
  _load_head_rules ["S: l VP;" +:+ ideographic_space] = Raise IndexError.
Proof.
  split; [reflexivity|]. split; [|split; reflexivity].
  eexists. split; [reflexivity|]. vm_compute. reflexivity.
Qed.

Lemma count_char_app c s t : count_char c (s +:+ t) = count_char c s + count_char c t.
Proof.
  induction s as [|a s IH]; [reflexivity|].
  rewrite append_cons. simpl. rewrite IH. lia.
Qed.

Lemma before_app c s t : contains c s = true -> before c (s +:+ t) = before c s.
Proof.
  induction s as [|a s IH]; [discriminate|].
  rewrite append_cons. simpl. destruct (Ascii.eqb a c); [reflexivity|].
  simpl. intros H. now rewrite IH.
Qed.

Lemma after_app c s t : contains c s = true -> after c (s +:+ t) = after c s +:+ t.
Proof.
  induction s as [|a s IH]; [discriminate|].
  rewrite append_cons. simpl. destruct (Ascii.eqb a c); [reflexivity|].
  simpl. exact IH.
Qed.

Lemma blank2_line_end x : blank2 x 10 = false.
Proof. unfold blank2. apply andb_false_r. Qed.

Lemma blank3_line_end x y : blank3 x y 10 = false.
Proof.
  unfold blank3.
  generalize (x =? 225) (y =? 154) (x =? 226) (y =? 128) (y =? 129) (x =? 227).
  intros [] [] [] [] [] []; reflexivity.
Qed.

(** A line end completes no blank of several bytes. *)
Lemma blank_len_line_end a s :
  blank_len (String a (s +:+ Convertor.newline)) = blank_len (String a s).
Proof.
  destruct s as [|b [|c s]]; rewrite ?append_cons, ?append_nil;
    unfold blank_len, Convertor.newline;
    change (nat_of_ascii (ascii_of_nat 10)) with 10.
  - now rewrite blank2_line_end.
  - now rewrite blank3_line_end.
  - reflexivity.
Qed.

(** A line end after the last rule is a blank like another. *)
Lemma split_ws_aux_line_end s : forall skip,
  skip <= String.length s ->
  split_ws_aux (s +:+ Convertor.newline) skip = split_ws_aux s skip.
Proof.
  induction s as [|a s IH]; intros skip Hskip.
  - simpl in Hskip. assert (skip = 0) as -> by lia. reflexivity.
  - rewrite append_cons. cbn [split_ws_aux]. rewrite blank_len_line_end.
    simpl String.length in Hskip.
    destruct (match skip with 0 => blank_len (String a s) | S _ => skip end)
      as [|n] eqn:E.
    + now rewrite (IH 0) by lia.
    + rewrite (IH n); [reflexivity|].
      destruct skip as [|k]; [|inversion E; lia].
      pose proof (blank_len_le (String a s)) as Hle. simpl String.length in Hle. lia.
Qed.

Lemma split_ws_line_end s : split_ws (s +:+ Convertor.newline) = split_ws s.
Proof. unfold split_ws. now rewrite split_ws_aux_line_end by lia. Qed.

(** The line end goes to the last piece. *)
Lemma split_on_line_end c s :
  Ascii.eqb (ascii_of_nat 10) c = false ->
  exists init last,
    split_on c s = init ++ [last] /\
    split_on c (s +:+ Convertor.newline) = init ++ [last +:+ Convertor.newline].
Proof.
  intros Hc. induction s as [|a s (init & last & E1 & E2)].
  - exists [], EmptyString. split; [reflexivity|].
    rewrite !append_nil. unfold Convertor.newline. cbn in Hc |- *.
    rewrite Hc. reflexivity.
  - rewrite append_cons. simpl split_on. rewrite E1, E2.
    destruct (Ascii.eqb a c).
    + exists (EmptyString :: init), last. split; reflexivity.
    + destruct init as [|w init]; simpl.
      * exists [], (String a last). split; reflexivity.
      * exists (String a w :: init), last. split; reflexivity.
Qed.

Lemma split_ws_pieces_line_end c s :
  Ascii.eqb (ascii_of_nat 10) c = false ->
  map split_ws (split_on c (s +:+ Convertor.newline)) = map split_ws (split_on c s).
Proof.
  intros Hc. destruct (split_on_line_end c s Hc) as (init & last & -> & ->).
  now rewrite !map_app, (map_cons split_ws), split_ws_line_end.
Qed.

Lemma line_ok_pieces line :
  line_ok line =
  (count_char ":" line =? 1) &&
  forallb (fun ws => negb (bool_decide (ws = [])))
          (map split_ws (split_on ";"%char (after ":"%char line))).
Proof. unfold line_ok. now rewrite forallb_fmap. Qed.

Lemma load_line_end (rules : table) line :
  load_line rules (line +:+ Convertor.newline) = load_line rules line.
Proof.
  rewrite !load_line_spec, !line_ok_pieces.
  assert (Hcount : count_char ":" (line +:+ Convertor.newline) = count_char ":" line).
  { rewrite count_char_app. simpl. lia. }
  rewrite Hcount.
  destruct (count_char ":" line =? 1) eqn:E; [|reflexivity].
  assert (Hc : contains ":" line = true).
  { rewrite count_char_contains. apply Nat.eqb_eq in E. now rewrite E. }
  unfold line_tag, line_rules.
  rewrite (before_app _ _ _ Hc), (after_app _ _ _ Hc).
  now rewrite (split_ws_pieces_line_end ";" (after ":" line) eq_refl).
Qed.

(** X3. The line ends that come with the lines of the file make no
    difference: with and without them the loader returns the same table,
    or raises the same exception. *)
Theorem load_ignores_line_ends lines :
  _load_head_rules (map (fun line => line +:+ Convertor.newline) lines)
  = _load_head_rules lines.
Proof.
  unfold _load_head_rules. generalize (∅ : table).
  induction lines as [|line lines IH]; intros rules; simpl; [reflexivity|].
  rewrite load_line_end. destruct (load_line rules line); simpl; [apply IH|reflexivity].
Qed.

(** ** Preprocessing, on all trees *)

Lemma preprosess_loop_cons {X} (iterate : tree -> nat -> result (tree * list X)) k ks i :
  preprosess_loop iterate (k :: ks) i =
  (r <- iterate k i ;;
   rs <- preprosess_loop iterate ks (i + length r.2) ;;
   Ok (r.1 :: rs.1, r.2 ++ rs.2)).
Proof. reflexivity. Qed.

(** Preprocessing either succeeds, on a segregated tree, or raises
    [AttributeError]. *)
Lemma preprosess_outcome t : forall i,
  match preprosess_iterate t i with
  | Ok _ => segregated t = true
  | Raise e => segregated t = false /\ e = AttributeError
  end.
Proof.
  induction t as [v|l ks IH] using tree_ind'; intros i; [now split|].
  rewrite preprosess_iterate_eq, clean_strip. cbn [bind].
  simpl segregated. rewrite is_leaf_flat.
  destruct (negb (bool_decide (ks = [])) && forallb flat ks) eqn:Hleaf.
  - destruct ks as [|k ks]; [discriminate|]. reflexivity.
  - cbn [orb].
    assert (Hloop : forall j,
              match preprosess_loop preprosess_iterate ks j with
              | Ok _ => forallb segregated ks = true
              | Raise e => forallb segregated ks = false /\ e = AttributeError
              end).
    { clear Hleaf. induction IH as [|k ks Hk _ IHks]; intros j; [reflexivity|].
      rewrite preprosess_loop_cons. specialize (Hk j).
      destruct (preprosess_iterate k j) as [r|e]; cbn [bind forallb].
      - rewrite Hk. cbn [andb]. specialize (IHks (j + length r.2)).
        now destruct (preprosess_loop preprosess_iterate ks (j + length r.2)).
      - destruct Hk as [-> ->]. now split. }
    specialize (Hloop i).
    now destruct (preprosess_loop preprosess_iterate ks i).
Qed.

(** X4. Preprocessing succeeds exactly on the trees in which no token
    stands beside a subtree that has children; on the others, and on a
    root that is a token, it raises [AttributeError], and it raises
    nothing else. *)
Theorem preprosess_fails_on_mixed_children t :
  is_ok (_preprosess t) = segregated t /\
  forall e, _preprosess t = Raise e -> e = AttributeError.
Proof.
  unfold _preprosess. pose proof (preprosess_outcome t 1) as H.
  destruct (preprosess_iterate t 1) as [r|e].
  - split; [now rewrite H|discriminate].
  - destruct H as [-> ->]. split; [reflexivity|]. now intros e [= <-].
Qed.

Lemma full_flat_token k : full k = true -> flat k = true -> exists v, k = Tok v.
Proof.
  destruct k as [v|l ks]; [eauto|]. simpl.
  intros Hf Hk. apply bool_decide_eq_true in Hk. subst ks. discriminate.
Qed.

Lemma full_leaf_tokens l ks :
  full (Tree l ks) = true -> _is_leaf (Tree l ks) = true ->
  Forall (fun k => exists v, k = Tok v) ks.
Proof.
  rewrite is_leaf_flat. simpl. intros Hf Hl.
  apply andb_true_iff in Hf as [_ Hf]. apply andb_true_iff in Hl as [_ Hl].
  rewrite forallb_forall in Hf, Hl. apply Forall_forall. intros k Hk.
  apply list_elem_of_In in Hk. apply full_flat_token; auto.
Qed.

Lemma tokens_no_labels ks :
  Forall (fun k => exists v, k = Tok v) ks -> flat_map labels ks = [].
Proof.
  induction 1 as [|k ks (v & ->) _ IH]; [reflexivity|exact IH].
Qed.

Lemma preprosess_labels t : forall i r,
  full t = true ->
  preprosess_iterate t i = Ok r ->
  Forall (fun l => contains "-" l = false) (labels r.1) /\
  Forall (fun x : string * tree => contains "-" x.1 = false) r.2.
Proof.
  induction t as [v|l ks IH] using tree_ind'; intros i r Hf; [discriminate|].
  rewrite preprosess_iterate_eq, clean_strip. cbn [bind].
  destruct (_is_leaf (Tree l ks)) eqn:Hleaf.
  - pose proof (full_leaf_tokens _ _ Hf Hleaf) as Htok.
    destruct ks as [|k ks]; [discriminate|]. cbn [item0 bind]. intros [= <-].
    cbn [fst snd labels]. split.
    + rewrite tokens_no_labels.
      * constructor; [apply before_clean|constructor].
      * inversion Htok; subst. constructor; eauto.
    + constructor; [apply before_clean|constructor].
  - intros H. apply bind_ok in H as (rs & Hloop & [= <-]). cbn [fst snd labels].
    simpl in Hf. apply andb_true_iff in Hf as [_ Hf].
    assert (Hall : Forall (fun l => contains "-" l = false) (flat_map labels rs.1) /\
                   Forall (fun x : string * tree => contains "-" x.1 = false) rs.2).
    { clear Hleaf. revert i rs Hloop.
      induction IH as [|k ks Hk _ IHks]; intros i rs Hloop.
      - inversion Hloop. split; constructor.
      - rewrite preprosess_loop_cons in Hloop.
        apply bind_ok in Hloop as (rk & Ek & Hloop).
        apply bind_ok in Hloop as (rks & Eks & [= <-]).
        simpl in Hf. apply andb_true_iff in Hf as [Hfk Hfks].
        destruct (Hk _ _ Hfk Ek) as [H1 H2].
        destruct (IHks Hfks _ _ Eks) as [H3 H4].
        cbn [fst snd flat_map]. split; apply Forall_app; split; assumption. }
    destruct Hall as [H1 H2]. split; [|exact H2].
    constructor; [apply before_clean|exact H1].
Qed.

(** X5. After the preprocessing of a tree without empty brackets no
    label holds a ['-']: neither a label of the returned tree nor a
    category of the returned sequence. *)
Theorem preprosess_leaves_no_dash t t1 seqs :
  full t = true ->
  _preprosess t = Ok (t1, seqs) ->
  Forall (fun l => contains "-" l = false) (labels t1) /\
  Forall (fun x : string * tree => contains "-" x.1 = false) seqs.
Proof.
  intros Hf H. exact (preprosess_labels t 1 (t1, seqs) Hf H).
Qed.

(** ** Head marking, on all trees *)

Section MarkAll.
Import Convertor.
Variable head_rules : table.

Lemma prefixed_refl t : prefixed t t.
Proof.
  induction t as [v|l ks IH] using tree_ind'; constructor.
  induction IH; constructor; assumption.
Qed.

Lemma mark_heads_prefixed t : forall t',
  mark_heads_iterate head_rules t = Ok t' -> prefixed t t'.
Proof.
  induction t as [v|l ks IH] using tree_ind'; intros t'; [discriminate|].
  rewrite mark_heads_iterate_eq. destruct (_is_leaf (Tree l ks)).
  - intros H. apply bind_ok in H as (tok & _ & H).
    apply bind_ok in H as (s & _ & [= <-]). constructor.
    clear. induction ks; constructor; [apply prefixed_refl|assumption].
  - intros H. apply bind_ok in H as (ks' & Hks & H).
    assert (Hall : Forall2 prefixed ks ks').
    { apply mapM_ok in Hks. clear H.
      induction Hks as [|k k' ks ks' Hk _ IHks]; constructor.
      - inversion IH; subst. auto.
      - inversion IH; subst. auto. }
    apply bind_ok in H as ([index|] & _ & [= <-]); now constructor.
Qed.

(** X6. Head marking changes nothing but labels, and a label only by
    writing an index and ['|'] in front of it: the nodes, their order,
    the tokens and the categories behind the ['|'] are those of the
    argument. *)
Theorem mark_heads_only_prefixes_labels t t' :
  __mark_heads head_rules t = Ok t' -> prefixed t t'.
Proof. apply mark_heads_prefixed. Qed.

(** X7. The head of a phrase comes from one of its children: when head
    marking succeeds on a node that is no leaf, the node either keeps its
    label or is given the head index of one of its marked children, and
    that index is then read back from its label. *)
Theorem head_is_the_head_of_a_child l ks t' :
  _is_leaf (Tree l ks) = false ->
  mark_heads_iterate head_rules (Tree l ks) = Ok t' ->
  exists ks',
    mapM (mark_heads_iterate head_rules) ks = Ok ks' /\
    (t' = Tree l ks' \/
     exists c index,
       c ∈ ks' /\ head_index c = Ok index /\
       t' = Tree (head_label index l) ks' /\
       head_index t' = Ok index).
Proof.
  intros Hleaf. rewrite mark_heads_iterate_eq, Hleaf.
  intros H. apply bind_ok in H as (ks' & Hks & H).
  exists ks'. split; [exact Hks|].
  apply bind_ok in H as ([index|] & Hsel & [= <-]); [right|now left].
  destruct (select_head_child _ _ _ _ Hsel) as (c & Hc & Hi).
  exists c, index. split; [exact Hc|]. split; [exact Hi|]. split; [reflexivity|].
  unfold head_index. cbn [label_of bind].
  apply label_index_head_label_clean. eapply head_index_clean, Hi.
Qed.

Lemma try_rules_live rules ks : try_rules (live rules) ks = try_rules rules ks.
Proof.
  induction rules as [|r rules IH]; [reflexivity|].
  simpl live. destruct (tags r) as [|tg tgs] eqn:Et.
  - simpl. rewrite Et. reflexivity.
  - cbn [try_rules]. rewrite Et.
    destruct (sub_labels_of r ks) as [sls|e]; cbn [bind]; [|reflexivity].
    destruct (try_tags (tg :: tgs) sls) as [[i|]|e]; cbn [bind];
      [reflexivity|exact IH|reflexivity].
Qed.

Lemma mark_heads_iterate_live t :
  mark_heads_iterate (live <$> head_rules) t = mark_heads_iterate head_rules t.
Proof.
  induction t as [v|label ks IH] using tree_ind'; [reflexivity|].
  rewrite !mark_heads_iterate_eq.
  destruct (_is_leaf _); [reflexivity|].
  rewrite (mapM_ext _ _ _ IH).
  destruct (mapM _ ks) as [ks'|e]; simpl; [|reflexivity].
  unfold select_head. rewrite lookup_fmap.
  destruct (head_rules !! label) as [rules|]; simpl; [|reflexivity].
  now rewrite try_rules_live.
Qed.

(** X8. A rule without tags is the last rule that counts: the rules
    listed after it in the same line are never tried, and head marking
    gives the same result, or raises the same exception, without them. *)
Theorem rules_after_a_rule_without_tags_are_dead t :
  __mark_heads (live <$> head_rules) t = __mark_heads head_rules t.
Proof. apply mark_heads_iterate_live. Qed.

Lemma unpack2_length sl : is_ok (unpack2 sl) = bool_decide (length sl = 2).
Proof. destruct sl as [|? [|? [|? ?]]]; reflexivity. Qed.

Lemma unpack2_raises sl e : unpack2 sl = Raise e -> e = ValueError.
Proof. destruct sl as [|? [|? [|? ?]]]; simpl; congruence. Qed.

Lemma mapM_unpack2_bad sls sl :
  sl ∈ sls -> length sl <> 2 -> mapM unpack2 sls = Raise ValueError.
Proof.
  intros Hin Hlen. induction Hin as [sl sls|sl sl' sls _ IH]; simpl.
  - pose proof (unpack2_length sl) as H.
    rewrite bool_decide_eq_false_2 in H by exact Hlen.
    destruct (unpack2 sl) as [p|e] eqn:E; [discriminate|].
    apply unpack2_raises in E. now subst e.
  - destruct (unpack2 sl') as [p|e] eqn:E; simpl.
    + now rewrite IH.
    + apply unpack2_raises in E. now subst e.
Qed.

(** X9. A rule with tags unpacks the label of every child into an index
    and a category before it looks for a tag. When the first rule of a
    category has tags and the label of some child does not split at
    ['|'] into exactly two parts (the child has no head, or its category
    holds a ['|']), the selection raises [ValueError]. *)
Theorem rule_with_tags_needs_two_part_labels label r rules ks c :
  head_rules !! label = Some (r :: rules) ->
  tags r <> [] ->
  Forall is_tree ks ->
  c ∈ ks ->
  length (parts c) <> 2 ->
  select_head head_rules label ks = Raise ValueError.
Proof.
  intros Hrules Htags Htrees Hc Hlen. unfold select_head. rewrite Hrules.
  simpl. rewrite (sub_labels_of_scan _ _ Htrees). cbn [bind].
  destruct (tags r) as [|tg tgs]; [contradiction|]. simpl.
  rewrite (mapM_unpack2_bad _ (parts c)); [reflexivity| |exact Hlen].
  apply list_elem_of_fmap. exists c. split; [reflexivity|].
  unfold scan. destruct (String.eqb _ _); [|exact Hc].
  apply list_elem_of_In, in_rev. rewrite rev_involutive.
  now apply list_elem_of_In.
Qed.

Lemma try_tags_nil tgs : try_tags tgs [] = Ok None.
Proof. induction tgs as [|tg tgs IH]; simpl; [reflexivity|exact IH]. Qed.

Lemma try_rules_nil rules :
  try_rules rules [] =
  if forallb (fun r => negb (bool_decide (tags r = []))) rules
  then Ok None else Raise IndexError.
Proof.
  induction rules as [|r rules IH]; [reflexivity|].
  cbn [try_rules forallb]. unfold sub_labels_of. cbn [mapM bind].
  replace (if String.eqb (direction r) "r" then rev [] else [])
    with (@nil (list string)) by (now destruct (String.eqb _ _)).
  destruct (tags r) as [|tg tgs]; [reflexivity|].
  rewrite (try_tags_nil (tg :: tgs)). cbn [bind].
  rewrite bool_decide_eq_false_2 by discriminate. exact IH.
Qed.

(** X10. An empty bracket is no leaf. Head marking raises [IndexError]
    on it when its category has no rules, or has a rule without tags;
    when all its rules have tags it is returned as it is, without a
    head. *)
Theorem empty_phrase_has_no_head label :
  mark_heads_iterate head_rules (Tree label []) =
  match head_rules !! label with
  | None => Raise IndexError
  | Some rules =>
      if forallb (fun r => negb (bool_decide (tags r = []))) rules
      then Ok (Tree label [])
      else Raise IndexError
  end.
Proof.
  rewrite mark_heads_iterate_eq. change (_is_leaf (Tree label [])) with false.
  cbn [mapM bind]. unfold select_head.
  destruct (head_rules !! label) as [rules|]; [|reflexivity].
  rewrite try_rules_nil. now destruct (forallb _ rules).
Qed.

End MarkAll.

(** ** The exceptions of the conversion *)

Lemma mapM_raise {A B} (f : A -> result B) l e :
  mapM f l = Raise e -> exists x, x ∈ l /\ f x = Raise e.
Proof.
  induction l as [|x l IH]; simpl; [discriminate|].
  destruct (f x) as [y|e'] eqn:E; simpl.
  - destruct (mapM f l) as [ys|e'']; simpl; [discriminate|].
    intros [= <-]. destruct (IH eq_refl) as (x' & Hin & Hx').
    exists x'. split; [now right|exact Hx'].
  - intros [= <-]. exists x. split; [left|exact E].
Qed.

Lemma mapM_total {A B} (f : A -> result B) l :
  Forall (fun x => exists y, f x = Ok y) l -> exists ys, mapM f l = Ok ys.
Proof.
  induction 1 as [|x l (y & Hy) _ (ys & Hys)]; simpl; [eauto|].
  rewrite Hy, Hys. simpl. eauto.
Qed.

Section Exceptions.
Import Convertor.
Variable head_rules : table.

(** [next] is only called for a tag that some child carries. *)
Lemma next_index_found tag sls : forall pairs,
  mapM unpack2 sls = Ok pairs ->
  tag ∈ map snd pairs ->
  exists index, next_index tag sls = Ok index.
Proof.
  induction sls as [|sl sls IH]; intros pairs; simpl.
  - intros [= <-] Hin. inversion Hin.
  - intros H. apply bind_ok in H as (p & Hp & H).
    apply bind_ok in H as (ps & Hps & [= <-]). rewrite Hp. simpl.
    intros Hin. destruct (String.eqb_spec tag p.2) as [E|E]; [eauto|].
    apply elem_of_cons in Hin as [Hin|Hin]; [contradiction|].
    eapply IH; eassumption.
Qed.

Lemma try_tags_raises tgs sls e : try_tags tgs sls = Raise e -> e = ValueError.
Proof.
  induction tgs as [|tg tgs IH]; simpl; [discriminate|].
  destruct (mapM unpack2 sls) as [pairs|e'] eqn:E; simpl.
  - destruct (bool_decide (tg ∈ map snd pairs)) eqn:D; [|exact IH].
    apply bool_decide_eq_true in D.
    destruct (next_index_found _ _ _ E D) as (index & ->). discriminate.
  - intros [= <-]. apply mapM_raise in E as (sl & _ & E).
    eapply unpack2_raises, E.
Qed.

Lemma sub_labels_of_trees r ks sls :
  sub_labels_of r ks = Ok sls ->
  Forall is_tree ks /\ length sls = length ks /\ Forall (fun sl => sl <> []) sls.
Proof.
  intros H.
  assert (Htrees : Forall is_tree ks).
  { unfold sub_labels_of in H. apply bind_ok in H as (ls & Hls & _).
    apply mapM_ok in Hls. clear -Hls.
    induction Hls as [|k l ks ls Hk _ IH]; constructor; [|exact IH].
    now destruct k. }
  split; [exact Htrees|].
  rewrite (sub_labels_of_scan _ _ Htrees) in H. inversion H; subst sls.
  split.
  - rewrite length_map. unfold scan. destruct (String.eqb _ _); [|reflexivity].
    apply length_rev.
  - apply Forall_forall. intros sl Hsl.
    apply list_elem_of_fmap in Hsl as (c & -> & Hc).
    assert (Hin : c ∈ ks).
    { unfold scan in Hc. destruct (String.eqb _ _); [|exact Hc].
      apply list_elem_of_In, in_rev, list_elem_of_In. exact Hc. }
    rewrite Forall_forall in Htrees. specialize (Htrees c Hin).
    destruct c as [v|l kk]; [contradiction|]. apply split_on_nonempty.
Qed.

Lemma sub_labels_of_raises r ks e :
  sub_labels_of r ks = Raise e -> e = AttributeError /\ ~ Forall is_tree ks.
Proof.
  intros H. split.
  - unfold sub_labels_of in H.
    destruct (mapM _ ks) as [ls|e'] eqn:E; simpl in H; [discriminate|].
    inversion H; subst e'. apply mapM_raise in E as (k & _ & E).
    destruct k; simpl in E; congruence.
  - intros Htrees. rewrite (sub_labels_of_scan _ _ Htrees) in H. discriminate.
Qed.

(** What the selection of a head can raise, and on which children. *)
Lemma try_rules_raises rules ks e :
  try_rules rules ks = Raise e ->
  (e = AttributeError /\ ~ Forall is_tree ks) \/
  (e = IndexError /\ ks = []) \/
  e = ValueError.
Proof.
  induction rules as [|r rules IH]; simpl; [discriminate|].
  destruct (sub_labels_of r ks) as [sls|e'] eqn:E; simpl.
  - destruct (sub_labels_of_trees _ _ _ E) as (_ & Hlen & Hne).
    destruct (tags r) as [|tg tgs].
    + destruct sls as [|sl sls]; simpl.
      * intros [= <-]. right. left. split; [reflexivity|].
        destruct ks; [reflexivity|discriminate].
      * inversion Hne; subst. destruct sl; [contradiction|discriminate].
    + destruct (try_tags (tg :: tgs) sls) as [[i|]|e''] eqn:T; simpl;
        [discriminate|exact IH|].
      intros [= <-]. right. right. eapply try_tags_raises, T.
  - intros [= <-]. left. eapply sub_labels_of_raises, E.
Qed.

Lemma select_head_raises label ks e :
  select_head head_rules label ks = Raise e ->
  (e = AttributeError /\ ~ Forall is_tree ks) \/
  (e = IndexError /\ ks = []) \/
  e = ValueError.
Proof.
  unfold select_head. destruct (head_rules !! label) as [rules|];
    [apply try_rules_raises|].
  unfold item_last. destruct (last ks) as [c|] eqn:L; simpl.
  - destruct c as [v|l kk]; simpl.
    + intros [= <-]. left. split; [reflexivity|]. intros Htrees.
      rewrite Forall_forall in Htrees.
      apply (Htrees (Tok v)). rewrite last_lookup in L.
      eapply list_elem_of_lookup_2, L.
    + rewrite label_index_before. discriminate.
  - intros [= <-]. right. left. split; [reflexivity|]. now apply last_None in L.
Qed.

Lemma segregated_children l ks :
  segregated (Tree l ks) = true -> _is_leaf (Tree l ks) = false ->
  forallb segregated ks = true.
Proof.
  simpl segregated. rewrite is_leaf_flat. intros H E. now rewrite E in H.
Qed.

(** What head marking can raise, and on which trees. *)
Lemma mark_heads_raises t : forall e,
  mark_heads_iterate head_rules t = Raise e ->
  (e = AttributeError \/ e = IndexError \/ e = ValueError \/ e = NotModelled) /\
  (segregated t = true -> e <> AttributeError) /\
  (full t = true -> segregated t = true -> e = ValueError).
Proof.
  induction t as [v|l ks IH] using tree_ind'; intros e.
  - intros [= <-]. split; [auto|]. split; discriminate.
  - rewrite mark_heads_iterate_eq. destruct (_is_leaf (Tree l ks)) eqn:Hleaf.
    + destruct ks as [|k ks]; [discriminate|]. cbn [item0 bind].
      destruct k as [[s|n]|lk kk]; simpl; try discriminate.
      intros [= <-]. split; [auto|]. split; [discriminate|].
      intros Hf _.
      destruct (full_leaf l (Tree lk kk :: ks) Hf Hleaf) as (v & ks0 & [=]).
    + destruct (mapM (mark_heads_iterate head_rules) ks) as [ks'|e'] eqn:Hks;
        cbn [bind].
      * destruct (select_head head_rules l ks') as [[i|]|e'] eqn:Hsel;
          cbn [bind]; try discriminate.
        intros [= <-]. apply select_head_raises in Hsel.
        pose proof (marked_children_trees _ _ _ Hks) as Htrees.
        destruct Hsel as [[_ Hn]|[[-> Hnil]| ->]]; [contradiction| |].
        -- split; [auto|]. split; [discriminate|]. intros Hf _. subst ks'.
           apply mapM_length in Hks. destruct ks; [discriminate|discriminate].
        -- split; [auto|]. split; [discriminate|reflexivity].
      * intros [= <-]. apply mapM_raise in Hks as (k & Hk & Ek).
        rewrite Forall_forall in IH. destruct (IH k Hk _ Ek) as (Ha & Hb & Hc).
        split; [exact Ha|]. split.
        -- intros Hs. apply Hb.
           pose proof (segregated_children _ _ Hs Hleaf) as Hall.
           rewrite forallb_forall in Hall. apply Hall. now apply list_elem_of_In.
        -- intros Hf Hs. apply Hc.
           ++ simpl in Hf. apply andb_true_iff in Hf as [_ Hf].
              rewrite forallb_forall in Hf. apply Hf. now apply list_elem_of_In.
           ++ pose proof (segregated_children _ _ Hs Hleaf) as Hall.
              rewrite forallb_forall in Hall. apply Hall. now apply list_elem_of_In.
Qed.

End Exceptions.

(** The tree that preprocessing returns is segregated; it has no empty
    bracket when the argument has none, and the items that are yielded
    for such a tree hold tokens. *)
Lemma preprosess_keeps_kind t : forall i r,
  preprosess_iterate t i = Ok r ->
  segregated r.1 = true /\
  (full t = true ->
   full r.1 = true /\ Forall (fun x : string * tree => exists v, x.2 = Tok v) r.2).
Proof.
  induction t as [v|l ks IH] using tree_ind'; intros i r; [discriminate|].
  rewrite preprosess_iterate_eq, clean_strip. cbn [bind].
  destruct (_is_leaf (Tree l ks)) eqn:Hleaf.
  - destruct ks as [|k ks]; [discriminate|]. cbn [item0 bind]. intros [= <-].
    cbn [fst snd]. rewrite is_leaf_flat in Hleaf. simpl in Hleaf. split.
    + simpl. apply andb_true_iff in Hleaf as [_ Hleaf]. now rewrite Hleaf.
    + intros Hf. simpl in Hf. apply andb_true_iff in Hf as [Hfk Hfks].
      apply andb_true_iff in Hleaf as [Hk _]. split; [exact Hfks|].
      constructor; [|constructor]. now apply full_flat_token.
  - intros H. apply bind_ok in H as (rs & Hloop & [= <-]). cbn [fst snd].
    assert (Hall : forallb segregated rs.1 = true /\ length rs.1 = length ks /\
                   (forallb full ks = true ->
                    forallb full rs.1 = true /\
                    Forall (fun x : string * tree => exists v, x.2 = Tok v) rs.2)).
    { clear Hleaf. revert i rs Hloop.
      induction IH as [|k ks Hk _ IHks]; intros i rs Hloop.
      - inversion Hloop. repeat split; constructor.
      - rewrite preprosess_loop_cons in Hloop.
        apply bind_ok in Hloop as (rk & Ek & Hloop).
        apply bind_ok in Hloop as (rks & Eks & [= <-]).
        destruct (Hk _ _ Ek) as [H1 H2].
        destruct (IHks _ _ Eks) as (H3 & H4 & H5).
        cbn [fst snd forallb length]. rewrite H1, H3, H4.
        split; [reflexivity|]. split; [reflexivity|].
        intros Hf. apply andb_true_iff in Hf as [Hfk Hfks].
        destruct (H2 Hfk) as [-> H6]. destruct (H5 Hfks) as [-> H7].
        split; [reflexivity|]. apply Forall_app. now split. }
    destruct Hall as (H1 & H2 & H3). split.
    + simpl. rewrite H1. apply orb_true_r.
    + simpl. intros Hf. apply andb_true_iff in Hf as [Hne Hf].
      destruct (H3 Hf) as [-> H4]. split; [|exact H4].
      rewrite andb_true_r. destruct ks; [discriminate|].
      destruct rs.1; [discriminate|reflexivity].
Qed.

(** ** Relations, on all trees *)

Lemma label_index_total l : exists index, label_index l = Ok index.
Proof. rewrite label_index_before. eauto. Qed.

(** Once head marking has returned a tree, the traversal of
    [_get_relations] raises nothing on it. *)
Lemma relations_after_marking (head_rules : table) t : forall t' is_root,
  Convertor.mark_heads_iterate head_rules t = Ok t' ->
  exists rels, get_relations_iterate is_root t' = Ok rels.
Proof.
  induction t as [v|l ks IH] using tree_ind'; intros t' is_root Hm; [discriminate|].
  pose proof (mark_heads_height _ _ _ Hm) as Hh.
  assert (Hleaf' : _is_leaf t' = _is_leaf (Tree l ks))
    by (unfold _is_leaf; now rewrite Hh).
  rewrite mark_heads_iterate_eq in Hm.
  destruct (_is_leaf (Tree l ks)) eqn:Hleaf.
  - apply bind_ok in Hm as (tok & _ & Hm). apply bind_ok in Hm as (s & _ & [= <-]).
    rewrite get_relations_iterate_eq, Hleaf', label_index_before. cbn [bind]. eauto.
  - apply bind_ok in Hm as (ks' & Hks & Hm).
    assert (Hall : forall p, exists rs,
              mapM (relations_of_child (get_relations_iterate false) p) ks' = Ok rs).
    { intros p. apply mapM_total. apply mapM_ok in Hks. clear -Hks IH.
      induction Hks as [|k k' ks ks' Hk _ IHks]; constructor.
      - inversion IH as [|? ? IHk _]; subst.
        destruct (IHk _ false Hk) as (rels & Hrels).
        pose proof (mark_heads_iterate_tree _ _ _ Hk) as Htree.
        destruct k' as [v|l' kk']; [contradiction|].
        unfold relations_of_child. cbn [label_of bind].
        rewrite label_index_before. cbn [bind]. rewrite Hrels. cbn [bind]. eauto.
      - inversion IH; subst. auto. }
    apply bind_ok in Hm as (o & _ & Hm).
    assert (Et : exists l', t' = Tree l' ks')
      by (destruct o; inversion Hm; eauto).
    destruct Et as (l' & ->).
    rewrite get_relations_iterate_eq, Hleaf', label_index_before. cbn [bind].
    destruct (Hall (before "|" l')) as (rs & ->). cbn [bind]. eauto.
Qed.

Lemma int_of_str_raises s e : int_of_str s = Raise e -> e = ValueError.
Proof. unfold int_of_str. destruct (NilZero.uint_of_string s); congruence. Qed.

Lemma get_relations_after_marking (head_rules : table) t t' e :
  Convertor.mark_heads_iterate head_rules t = Ok t' ->
  _get_relations t' = Raise e -> e = ValueError.
Proof.
  intros Hm. destruct (relations_after_marking _ _ _ true Hm) as (rels & Hrels).
  unfold _get_relations. rewrite Hrels. cbn [bind].
  destruct (mapM _ rels) as [keys|e'] eqn:E; cbn [bind]; [discriminate|].
  intros [= <-]. apply mapM_raise in E as (r & _ & E). eapply int_of_str_raises, E.
Qed.

(** ** The exceptions of [convert] *)

Lemma format_row_raises args e :
  Convertor.format_row args = Raise e ->
  e = NotModelled /\ forall v, args.1.1.2 <> Tok v.
Proof.
  unfold Convertor.format_row. destruct args.1.1.2 as [[s|n]|l ks]; simpl;
    try discriminate.
  intros [= <-]. split; [reflexivity|discriminate].
Qed.

Lemma zip_fst_elem {A B} (l : list A) (k : list B) x : x ∈ zip l k -> x.1 ∈ l.
Proof.
  revert k. induction l as [|a l IH]; intros [|b k] H; simpl in H;
    try solve [inversion H].
  apply elem_of_cons in H as [->|H]; [left|right; eapply IH, H].
Qed.

(** Where each exception of the conversion comes from. *)
Lemma convert_raises (head_rules : table) t e :
  Convertor.convert head_rules t = Raise e ->
  (e = AttributeError /\ segregated t = false) \/
  e = ValueError \/
  ((e = IndexError \/ e = NotModelled) /\ full t = false).
Proof.
  unfold Convertor.convert, Convertor.__parse, _preprosess, Convertor.__mark_heads.
  pose proof (preprosess_outcome t 1) as Hp.
  destruct (preprosess_iterate t 1) as [r|e1] eqn:E1; cbn [bind].
  - destruct (preprosess_keeps_kind _ _ _ E1) as [Hseg Hfull].
    destruct (Convertor.mark_heads_iterate head_rules r.1) as [t2|e2] eqn:E2;
      cbn [bind].
    + destruct (_get_relations t2) as [rels|e3] eqn:E3; cbn [bind].
      * destruct (mapM Convertor.format_row _) as [lines|e4] eqn:E4; cbn [bind];
          [discriminate|].
        intros [= <-]. apply mapM_raise in E4 as (row & Hrow & E4).
        apply format_row_raises in E4 as [-> Hv]. right. right.
        split; [now right|]. destruct (full t) eqn:Hf; [|reflexivity].
        destruct (Hfull eq_refl) as [_ Htok]. exfalso.
        apply list_elem_of_fmap in Hrow as (x & -> & Hx). simpl in Hv.
        apply zip_fst_elem in Hx. rewrite Forall_forall in Htok.
        destruct (Htok _ Hx) as (v & Ev). exact (Hv v Ev).
      * intros [= <-]. right. left. eapply get_relations_after_marking; eassumption.
    + intros [= <-]. destruct (mark_heads_raises head_rules _ _ E2) as (Ha & Hb & Hc).
      destruct (full t) eqn:Hf.
      * right. left. apply Hc; [now apply Hfull|exact Hseg].
      * destruct Ha as [-> | [-> | [-> | ->]]]; [now elim (Hb Hseg)| |now (right; left)|].
        -- right. right. split; [now left|reflexivity].
        -- right. right. split; [now right|reflexivity].
  - intros [= <-]. destruct Hp as [Hs ->]. left. now split.
Qed.

(** X11. The conversion never raises [StopIteration], and neither does
    head marking on any tree: [next] is only called for a tag that is the
    category of some child, and then finds it. *)
Theorem next_is_never_exhausted (head_rules : table) t :
  Convertor.__mark_heads head_rules t <> Raise StopIteration /\
  Convertor.convert head_rules t <> Raise StopIteration.
Proof.
  split; intros H.
  - apply mark_heads_raises in H as ([?|[?|[?|?]]] & _); discriminate.
  - apply convert_raises in H as [[? _]|[?|[[?|?] _]]]; discriminate.
Qed.

(** X12. The conversion raises [AttributeError] exactly on the trees in
    which a token stands beside a subtree that has children (and on a
    root that is a token): the exception comes from preprocessing, before
    any rule is looked at. *)
Theorem attribute_error_means_mixed_children (head_rules : table) t :
  Convertor.convert head_rules t = Raise AttributeError <-> segregated t = false.
Proof.
  split.
  - intros H. apply convert_raises in H as [[_ H]|[H|[[H|H] _]]];
      [exact H|discriminate..].
  - intros Hs. unfold Convertor.convert, Convertor.__parse, _preprosess.
    pose proof (preprosess_outcome t 1) as Hp.
    destruct (preprosess_iterate t 1) as [r|e1]; [congruence|].
    destruct Hp as [_ ->]. reflexivity.
Qed.

(** X13. On a tree without empty brackets the conversion raises nothing
    but [AttributeError] and [ValueError]: an [IndexError] needs an empty
    bracket. *)
Theorem index_error_needs_an_empty_bracket (head_rules : table) t e :
  full t = true ->
  Convertor.convert head_rules t = Raise e ->
  e = AttributeError \/ e = ValueError.
Proof.
  intros Hf H. apply convert_raises in H as [[-> _] | [-> | [_ H]]]; [auto|auto|].
  congruence.
Qed.

Lemma valid_full_segregated t : valid t = true -> full t = true /\ segregated t = true.
Proof.
  induction t as [v|l ks IH] using tree_ind'; [discriminate|]. intros Hv.
  apply valid_inv in Hv as [(s & ->)|(Hne & Hall & _)]; [split; reflexivity|].
  assert (H : forallb full ks = true /\ forallb segregated ks = true).
  { clear Hne. induction IH as [|k ks Hk _ IHks]; [split; reflexivity|].
    simpl in Hall. apply andb_true_iff in Hall as [Hvk Hvks].
    destruct (Hk Hvk) as [H1 H2]. destruct (IHks Hvks) as [H3 H4].
    simpl. now rewrite H1, H2, H3, H4. }
  destruct H as [H1 H2]. simpl. rewrite H1, H2, orb_true_r.
  destruct ks; [contradiction|]. split; reflexivity.
Qed.

(** X14. On a tree of the data model the only exception of the
    conversion is [ValueError]. *)
Theorem data_model_raises_value_error_only (head_rules : table) t e :
  valid t = true ->
  Convertor.convert head_rules t = Raise e ->
  e = ValueError.
Proof.
  intros Hv H. apply valid_full_segregated in Hv as [Hf Hs].
  apply convert_raises in H as [[_ H]|[H|[_ H]]]; [congruence|exact H|congruence].
Qed.

(** ** The relations of any tree *)

(** Below the root every head is a string cut from a label. *)
Lemma inner_heads_are_strings t : forall rels,
  get_relations_iterate false t = Ok rels ->
  Forall (fun r : relation => is_int r.2 = false) rels.
Proof.
  induction t as [v|l ks IH] using tree_ind'; intros rels; [discriminate|].
  rewrite get_relations_iterate_eq, label_index_before. cbn [bind app].
  destruct (_is_leaf (Tree l ks)); [intros [= <-]; constructor|].
  intros H. apply bind_ok in H as (rs & Hrs & [= <-]).
  apply mapM_ok in Hrs. apply Forall_concat.
  induction Hrs as [|k r ks rs Hk _ IHks]; constructor.
  - inversion IH as [|? ? IHk _]; subst. unfold relations_of_child in Hk.
    apply bind_ok in Hk as (lk & _ & Hk). apply bind_ok in Hk as (index & _ & Hk).
    apply bind_ok in Hk as (sub & Hsub & [= <-]).
    apply Forall_app. split; [|now apply IHk].
    destruct (String.eqb _ _); repeat constructor.
  - inversion IH; subst. auto.
Qed.

Lemma zip_keys {A B} (f : A -> result B) l keys :
  mapM f l = Ok keys ->
  map snd (zip keys l) = l /\ Forall (fun x : B * A => f x.2 = Ok x.1) (zip keys l).
Proof.
  intros H. apply mapM_ok in H.
  induction H as [|x y l keys Hx _ [IH1 IH2]]; simpl; [split; [reflexivity|constructor]|].
  rewrite IH1. split; [reflexivity|]. now constructor.
Qed.

Lemma mapM_keys {A B} (f : A -> result B) (l : list (B * A)) :
  Forall (fun x : B * A => f x.2 = Ok x.1) l ->
  mapM f (map snd l) = Ok (map fst l).
Proof.
  induction 1 as [|x l Hx _ IH]; simpl; [reflexivity|]. now rewrite Hx, IH.
Qed.

(** What [sorted] does to the relations that the traversal yields. *)
Lemma get_relations_sorted t rels :
  _get_relations t = Ok rels ->
  exists yielded keys,
    get_relations_iterate true t = Ok yielded /\
    rels ≡ₚ yielded /\
    mapM (fun r : relation => int_of_str r.1) rels = Ok keys /\
    Sorted le keys.
Proof.
  unfold _get_relations. intros H. apply bind_ok in H as (yielded & Hy & H).
  apply bind_ok in H as (keys0 & Hk & [= <-]).
  destruct (zip_keys _ _ _ Hk) as [Hsnd Hall].
  exists yielded, (map fst (sort_keyed (zip keys0 yielded))).
  split; [exact Hy|]. split; [|split].
  - rewrite <- Hsnd at 2. apply Permutation_map, sort_keyed_perm.
  - apply (mapM_keys (fun r : relation => int_of_str r.1)).
    apply Forall_forall. intros x Hx. rewrite sort_keyed_perm in Hx.
    rewrite Forall_forall in Hall. now apply Hall.
  - apply sorted_keys, sort_keyed_sorted.
Qed.

(** X15. [_get_relations] returns the relations that the traversal
    yields, each once, in the ascending order of the numbers that their
    indices print: the order of the integers, not that of the strings. *)
Theorem relations_are_sorted_by_number t rels :
  _get_relations t = Ok rels ->
  exists yielded keys,
    get_relations_iterate true t = Ok yielded /\
    rels ≡ₚ yielded /\
    mapM (fun r : relation => int_of_str r.1) rels = Ok keys /\
    Sorted le keys.
Proof. apply get_relations_sorted. Qed.

(** X16. Whatever the tree, the relations that are returned hold one
    relation whose head is an [int]: the relation of the root to 0,
    from the index that the label of the root carries. *)
Theorem one_relation_to_the_root t rels :
  _get_relations t = Ok rels ->
  exists index,
    head_index t = Ok index /\
    filter (fun r : relation => is_int r.2 = true) rels = [(index, PInt 0)].
Proof.
  intros H. destruct (get_relations_sorted _ _ H) as (yielded & _ & Hy & Hp & _).
  rewrite get_relations_iterate_root in Hy.
  apply bind_ok in Hy as (index & Hi & Hy). apply bind_ok in Hy as (rs & Hrs & [= <-]).
  exists index. split; [exact Hi|].
  apply Permutation_singleton_r. rewrite Hp.
  rewrite filter_cons_True by reflexivity.
  apply inner_heads_are_strings in Hrs.
  replace (filter (fun r : relation => is_int r.2 = true) rs) with (@nil relation);
    [reflexivity|].
  symmetry. clear -Hrs. induction Hrs as [|r rs Hr _ IH]; [reflexivity|].
  rewrite filter_cons_False by (rewrite Hr; discriminate). exact IH.
Qed.

(** ** The rows of a converted tree *)

Lemma enc_inj r r' : enc r = enc r' -> r = r'.
Proof.
  destruct r as [d p], r' as [d' p']. unfold enc. simpl. intros [= Hd Hp].
  apply str_of_int_inj in Hd, Hp. now subst.
Qed.

Lemma map_enc_inj ar ar' : map enc ar = map enc ar' -> ar = ar'.
Proof.
  revert ar'. induction ar as [|r ar IH]; intros [|r' ar']; simpl;
    try discriminate; [reflexivity|].
  intros H. pose proof (f_equal (hd (enc r)) H) as Hr.
  pose proof (f_equal (@tl relation) H) as Har. cbn [hd tl] in Hr, Har.
  f_equal; [now apply enc_inj|now apply IH].
Qed.

Lemma functional_heads (ar : list (nat * nat)) d p p' :
  NoDup (map fst ar) -> (d, p) ∈ ar -> (d, p') ∈ ar -> p = p'.
Proof.
  induction ar as [|r ar IH]; intros Hnd H1 H2; [inversion H1|].
  simpl in Hnd. apply NoDup_cons in Hnd as [Hr Hnd].
  apply elem_of_cons in H1 as [H1|H1]; apply elem_of_cons in H2 as [H2|H2].
  - congruence.
  - subst r. exfalso. apply Hr. simpl.
    apply list_elem_of_fmap. now exists (d, p').
  - subst r. exfalso. apply Hr. simpl.
    apply list_elem_of_fmap. now exists (d, p).
  - now apply IH.
Qed.

Lemma good_nodup i n h ar : good i n h ar -> NoDup (h :: map fst ar).
Proof. intros [Hp _ _]. rewrite Hp. apply NoDup_seq. Qed.

Lemma good_dependent i n h ar d p : good i n h ar -> (d, p) ∈ ar -> in_span i n d /\ d <> h.
Proof.
  intros G Hin. pose proof (good_nodup _ _ _ _ G) as Hnd.
  assert (Hd : d ∈ map fst ar) by (apply list_elem_of_fmap; now exists (d, p)).
  split.
  - apply in_span_seq. rewrite <- (good_perm _ _ _ _ G). now right.
  - intros ->. apply NoDup_cons in Hnd as [Hh _]. contradiction.
Qed.

(** No word is its own head. *)
Lemma good_no_loop i n h ar d p : good i n h ar -> (d, p) ∈ ar -> d <> p.
Proof.
  intros G Hin. destruct (good_dependent _ _ _ _ _ _ G Hin) as [Hd Hdh].
  pose proof (good_nodup _ _ _ _ G) as Hnd. apply NoDup_cons in Hnd as [_ Hnd].
  destruct (good_walk _ _ _ _ G d Hd) as (path & W & ND & _).
  intros <-. inversion W as [|? p' path' Hin' W']; subst; [contradiction|].
  assert (p' = d) as -> by (eapply functional_heads; eassumption).
  apply NoDup_cons in ND as [Hd' _]. apply Hd'.
  inversion W'; subst; [contradiction|left].
Qed.

(** The way from a word to the root goes through every word from which
    it descends. *)
Lemma walk_through (ar : list (nat * nat)) h p k path :
  NoDup (h :: map fst ar) ->
  walk ar p k path ->
  forall pathk, walk ar h k pathk -> p ∈ pathk ++ [h].
Proof.
  intros Hnd W. apply NoDup_cons in Hnd as [Hh Hnd].
  induction W as [|k q path Hin _ IH]; intros pathk Wk.
  - inversion Wk; subst; [left|left].
  - inversion Wk as [|? q' pathk' Hin' Wk']; subst.
    + exfalso. apply Hh. apply list_elem_of_fmap. now exists (k, q).
    + assert (q' = q) as -> by (eapply functional_heads; eassumption).
      right. now apply IH.
Qed.

Lemma relations_projective :
  (forall i n h t, marked i n h t ->
     forall ar, get_relations_iterate false t = Ok (map enc ar) -> projective ar) /\
  (forall i n hs ks, marked_list i n hs ks ->
     forall h ar, h ∈ hs \/ ~ in_span i n h ->
     (rs <- mapM (relations_of_child (get_relations_iterate false) (str_of_int h)) ks ;;
      Ok (concat rs)) = Ok (map enc ar) ->
     forall d p k, (d, p) ∈ ar -> p <> h -> between d p k ->
     exists path, walk ar p k path).
Proof.
  apply marked_mutind.
  - intros i l ar E. rewrite get_relations_iterate_eq, label_index_head_label in E.
    destruct ar; [|discriminate]. intros d p k Hin. inversion Hin.
  - intros i n h hs l ks Hks IH Hh ar E.
    destruct (proj1 relations_marked _ _ _ _ (marked_node i n h hs l ks Hks Hh))
      as (ar' & E' & G).
    rewrite E in E'. inversion E' as [Har]. apply map_enc_inj in Har. subst ar'.
    assert (E2 : (rs <- mapM (relations_of_child (get_relations_iterate false)
                                (str_of_int h)) ks ;;
                  Ok (concat rs)) = Ok (map enc ar)).
    { rewrite get_relations_iterate_eq, label_index_head_label in E. simpl bind in E.
      assert (Hleaf : _is_leaf (Tree (head_label (str_of_int h) l) ks) = false).
      { destruct Hks as [|i n m h0 hs k ks Hk _]; [inversion Hh|].
        eapply node_not_leaf, marked_height, Hk. }
      rewrite Hleaf in E.
      destruct (mapM _ ks) as [rs|e]; [|discriminate]. exact E. }
    intros d p k Hin Hb. destruct (decide (p = h)) as [->|Hne].
    + destruct (good_dependent _ _ _ _ _ _ G Hin) as [Hd _].
      pose proof (good_span _ _ _ _ G) as Hhs.
      destruct (good_walk _ _ _ _ G k) as (path & W & _); [|eauto].
      unfold in_span, between in *. lia.
    + eapply (IH h ar (or_introl Hh) E2); eassumption.
  - intros i h ar _ E. inversion E as [Har]. destruct ar; [|discriminate].
    intros d p k Hin. inversion Hin.
  - intros i n m h0 hs k ks Hk IHk Hks IHks h ar Hcond E d p kk Hin Hne Hb.
    destruct (proj1 relations_marked _ _ _ _ Hk) as (ar_k & Ek & Gk).
    assert (Hcond' : h ∈ hs \/ ~ in_span (i + n) m h).
    { pose proof (good_span _ _ _ _ Gk) as Hh0.
      destruct Hcond as [Hc|Hc].
      - apply elem_of_cons in Hc as [->|Hc]; [right|now left].
        unfold in_span in *. lia.
      - right. intros Hin'. apply Hc. now apply in_span_right. }
    destruct (proj2 relations_marked _ _ _ _ Hks h Hcond') as (ar_s & Es & Gs).
    assert (Har : ar = (if bool_decide (h0 = h) then [] else [(h0, h)]) ++ ar_k ++ ar_s).
    { apply map_enc_inj. simpl mapM in E.
      rewrite (relations_of_child_marked h h0 k ar_k
                 (marked_head_index _ _ _ _ Hk) Ek) in E.
      simpl bind in E.
      destruct (mapM _ ks) as [rs|e]; [|discriminate].
      simpl in *. inversion Es as [Hc]. inversion E as [HE].
      rewrite Hc. now rewrite !map_app, app_assoc. }
    subst ar. apply elem_of_app in Hin as [Hin|Hin].
    { destruct (bool_decide (h0 = h)); [inversion Hin|].
      apply list_elem_of_singleton in Hin. inversion Hin. congruence. }
    apply elem_of_app in Hin as [Hin|Hin].
    + destruct (IHk ar_k Ek d p kk Hin Hb) as (path & W). exists path.
      eapply walk_mono; [|exact W]. intros r Hr.
      apply elem_of_app. right. apply elem_of_app. now left.
    + destruct (IHks h ar_s Hcond' Es d p kk Hin Hne Hb) as (path & W). exists path.
      eapply walk_mono; [|exact W]. intros r Hr.
      apply elem_of_app. right. apply elem_of_app. now right.
Qed.

(** The pipeline once more, with the marked tree in hand. *)
Lemma pipeline_projective (head_rules : table) t :
  valid t = true ->
  resolves head_rules t = true ->
  exists t1 t2 h ar rels,
    _preprosess t = Ok (t1, map item_of (leaves t)) /\
    Convertor.__mark_heads head_rules t1 = Ok t2 /\
    _get_relations t2 = Ok rels /\
    good 1 (length (leaves t)) h ar /\
    projective ar /\
    rels ≡ₚ enc_root h :: map enc ar /\
    map fst rels = map str_of_int (seq 1 (length (leaves t))).
Proof.
  intros Hv Hres.
  destruct (preprosess_valid t Hv 1) as (t1 & E1 & N1 & _).
  unfold resolves, _preprosess in *. rewrite E1 in Hres. simpl in Hres.
  destruct (proj1 (mark_numbered head_rules) _ _ _ N1 Hres) as (t2 & h & E2 & M2).
  destruct (proj1 relations_marked _ _ _ _ M2) as (ar & E3 & G).
  destruct (sorted_relations h ar _ (good_perm _ _ _ _ G)) as (rels & E4 & P & I).
  exists t1, t2, h, ar, rels.
  split; [exact E1|]. split; [exact E2|].
  split; [|split; [exact G|split; [|split; [exact P|exact I]]]].
  - unfold _get_relations. rewrite get_relations_iterate_root.
    rewrite (marked_head_index _ _ _ _ M2), E3. exact E4.
  - exact (proj1 relations_projective _ _ _ _ M2 ar E3).
Qed.

Lemma parse_rows (head_rules : table) t t1 seqs t2 rels :
  _preprosess t = Ok (t1, seqs) ->
  Convertor.__mark_heads head_rules t1 = Ok t2 ->
  _get_relations t2 = Ok rels ->
  Convertor.__parse head_rules t
  = Ok (map (fun x : (string * tree) * relation => (x.2.1, x.1.2, x.1.1, x.2.2))
            (zip seqs rels)).
Proof.
  intros E1 E2 E3. unfold Convertor.__parse. rewrite E1. cbn [bind fst snd].
  rewrite E2. cbn [bind]. now rewrite E3.
Qed.

Lemma pipeline_length (N : nat) (rels : list relation) :
  map fst rels = map str_of_int (seq 1 N) -> length rels = N.
Proof.
  intros I. pose proof (f_equal length I) as HI.
  now rewrite !length_map, length_seq in HI.
Qed.

(** X17. The rows that [__parse] returns for a tree of the data model
    whose heads are all resolved carry, row by row, the category of the
    leaf without its suffix after ['-'] and the token of the leaf as it
    was in the argument. *)
Theorem rows_carry_categories_and_tokens (head_rules : table) t :
  valid t = true ->
  resolves head_rules t = true ->
  exists rows,
    Convertor.__parse head_rules t = Ok rows /\
    map (fun row : string * tree * string * pyval => (row.1.2, row.1.1.2)) rows
    = map item_of (leaves t).
Proof.
  intros Hv Hres.
  destruct (pipeline head_rules t Hv Hres)
    as (t1 & t2 & h & ar & rels & E1 & E2 & E3 & _ & _ & I).
  apply pipeline_length in I.
  eexists. split; [eapply parse_rows; eassumption|].
  rewrite map_map. cbn [fst snd].
  rewrite <- (fst_zip (map item_of (leaves t)) rels) at 2
    by (rewrite length_map; lia).
  apply map_ext. now intros [[c v] r].
Qed.

(** X18. In these rows a head is the [int] 0 or the index of a leaf of
    the tree, and never the index of the row itself. *)
Theorem every_head_is_another_word (head_rules : table) t :
  valid t = true ->
  resolves head_rules t = true ->
  exists rows,
    Convertor.__parse head_rules t = Ok rows /\
    Forall (fun row : string * tree * string * pyval =>
              row.2 = PInt 0 \/
              exists p, row.2 = PStr (str_of_int p) /\
                        1 <= p <= length (leaves t) /\
                        str_of_int p <> row.1.1.1) rows.
Proof.
  intros Hv Hres.
  destruct (pipeline head_rules t Hv Hres)
    as (t1 & t2 & h & ar & rels & E1 & E2 & E3 & G & P & I).
  eexists. split; [eapply parse_rows; eassumption|].
  apply Forall_forall. intros row Hrow.
  apply list_elem_of_fmap in Hrow as ([x r] & -> & Hx). cbn [fst snd].
  apply elem_of_zip_r in Hx. rewrite P in Hx.
  apply elem_of_cons in Hx as [->|Hx]; [now left|right].
  apply list_elem_of_fmap in Hx as ([d p] & -> & Hin).
  exists p. split; [reflexivity|]. split.
  - pose proof (good_heads _ _ _ _ G) as Hh. rewrite Forall_forall in Hh.
    specialize (Hh _ Hin). unfold in_span in Hh. simpl in Hh. lia.
  - simpl. intros Hp. apply str_of_int_inj in Hp.
    apply (good_no_loop _ _ _ _ _ _ G Hin). congruence.
Qed.

(** X19. The dependencies of such a tree cross no word: when a leaf
    lies strictly between a dependent and its head, the head links that
    start at this leaf pass through that head. *)
Theorem dependencies_are_projective (head_rules : table) t :
  valid t = true ->
  resolves head_rules t = true ->
  exists t1 seqs t2 rels,
    _preprosess t = Ok (t1, seqs) /\
    Convertor.__mark_heads head_rules t1 = Ok t2 /\
    _get_relations t2 = Ok rels /\
    forall d p k,
      (str_of_int d, PStr (str_of_int p)) ∈ rels ->
      between d p k ->
      exists path,
        chain rels (length (leaves t)) (str_of_int k) = Some path /\
        str_of_int p ∈ path.
Proof.
  intros Hv Hres.
  destruct (pipeline_projective head_rules t Hv Hres)
    as (t1 & t2 & h & ar & rels & E1 & E2 & E3 & G & Hproj & P & I).
  exists t1, (map item_of (leaves t)), t2, rels.
  split; [exact E1|]. split; [exact E2|]. split; [exact E3|].
  intros d p k Hin Hb.
  assert (Hdp : (d, p) ∈ ar).
  { rewrite P in Hin. apply elem_of_cons in Hin as [Hin|Hin]; [discriminate|].
    apply list_elem_of_fmap in Hin as (r & Hr & Hin).
    change (str_of_int d, PStr (str_of_int p)) with (enc (d, p)) in Hr.
    apply enc_inj in Hr. now subst r. }
  destruct (Hproj d p k Hdp Hb) as (path & W).
  destruct (good_dependent _ _ _ _ _ _ G Hdp) as [Hd _].
  assert (Hp : in_span 1 (length (leaves t)) p).
  { pose proof (good_heads _ _ _ _ G) as Hh. rewrite Forall_forall in Hh.
    exact (Hh _ Hdp). }
  assert (Hk : in_span 1 (length (leaves t)) k)
    by (unfold in_span, between in *; lia).
  destruct (good_walk _ _ _ _ G k Hk) as (pathk & Wk & _ & _ & _ & Hlen).
  assert (Hnd : NoDup (map fst rels)).
  { rewrite I. apply (NoDup_fmap_2 str_of_int), NoDup_seq. }
  exists (map str_of_int (pathk ++ [h])). split.
  - apply (chain_walk rels ar h); [| |exact Wk|exact Hlen].
    + intros x q Hxq. apply head_of_in; [exact Hnd|].
      rewrite P. right. now apply (list_elem_of_fmap_2 enc) in Hxq.
    + apply head_of_in; [exact Hnd|]. rewrite P. left.
  - apply list_elem_of_fmap_2.
    eapply walk_through; [eapply good_nodup, G|exact W|exact Wk].
Qed.

(** ** The text of the output *)

Lemma contains_app c s t : contains c (s +:+ t) = contains c s || contains c t.
Proof.
  induction s as [|a s IH]; [reflexivity|].
  rewrite append_cons. simpl. rewrite IH. apply orb_assoc.
Qed.

Lemma split_on_absent c s : contains c s = false -> split_on c s = [s].
Proof.
  induction s as [|a s IH]; simpl; [reflexivity|].
  intros H. apply orb_false_iff in H as [Ha Hs]. now rewrite Ha, (IH Hs).
Qed.

Lemma concat_cons sep x y l :
  String.concat sep (x :: y :: l) = x +:+ sep +:+ String.concat sep (y :: l).
Proof. reflexivity. Qed.

(** Cutting at the separator gives back what was joined with it. *)
Lemma split_on_concat c ws :
  ws <> [] ->
  Forall (fun w => contains c w = false) ws ->
  split_on c (String.concat (String c EmptyString) ws) = ws.
Proof.
  intros Hne H. induction H as [|w ws Hw Hws IH]; [contradiction|].
  destruct ws as [|w' ws]; [now apply split_on_absent|].
  rewrite concat_cons.
  change (String c EmptyString +:+ String.concat (String c EmptyString) (w' :: ws))
    with (String c (String.concat (String c EmptyString) (w' :: ws))).
  rewrite (split_on_append _ _ _ Hw). f_equal. now apply IH.
Qed.

Lemma append_assoc s t u : (s +:+ t) +:+ u = s +:+ (t +:+ u).
Proof.
  induction s as [|a s IH]; [reflexivity|].
  rewrite !append_cons. now rewrite IH.
Qed.

Lemma split_on_terminated c ws :
  ws <> [] ->
  Forall (fun w => contains c w = false) ws ->
  split_on c (String.concat (String c EmptyString) ws +:+ String c EmptyString)
  = ws ++ [EmptyString].
Proof.
  intros Hne H. induction H as [|w ws Hw Hws IH]; [contradiction|].
  destruct ws as [|w' ws].
  - simpl String.concat. now rewrite (split_on_append _ _ _ Hw).
  - rewrite concat_cons, append_assoc.
    change (String c EmptyString +:+ String.concat (String c EmptyString) (w' :: ws))
      with (String c (String.concat (String c EmptyString) (w' :: ws))).
    rewrite append_cons, (split_on_append _ _ _ Hw). simpl app. f_equal.
    now apply IH.
Qed.

Lemma contains_concat c sep ws :
  contains c sep = false ->
  Forall (fun w => contains c w = false) ws ->
  contains c (String.concat sep ws) = false.
Proof.
  intros Hsep H. induction H as [|w ws Hw _ IH]; [reflexivity|].
  destruct ws as [|w' ws]; [exact Hw|].
  rewrite concat_cons, !contains_app, Hw, Hsep. exact IH.
Qed.

Lemma digits_plain d : plain (NilEmpty.string_of_uint d) = true.
Proof. unfold plain. induction d; simpl in *; auto. Qed.

Lemma str_of_int_plain n : plain (str_of_int n) = true.
Proof.
  unfold str_of_int, NilZero.string_of_uint.
  destruct (Nat.to_uint n) eqn:E; try reflexivity; rewrite <- E;
    apply digits_plain.
Qed.

Lemma plain_spec s :
  plain s = true ->
  contains (ascii_of_nat 9) s = false /\ contains (ascii_of_nat 10) s = false.
Proof.
  unfold plain. intros H. apply andb_true_iff in H as [H1 H2].
  now apply negb_true_iff in H1, H2.
Qed.

(** The row that is printed for a leaf and its relation. *)
Lemma format_row_of leaf (r : relation) :
  Convertor.format_row (r.1, Tok leaf.2, strip leaf.1, r.2)
  = Ok (String.concat Convertor.tab (row_of leaf r)).
Proof.
  unfold Convertor.format_row, row_of. cbn [fst snd].
  destruct leaf.2 as [s|n]; reflexivity.
Qed.

Lemma format_rows leaves0 : forall rels,
  mapM Convertor.format_row
    (map (fun x : (string * tree) * relation => (x.2.1, x.1.2, x.1.1, x.2.2))
         (zip (map item_of leaves0) rels))
  = Ok (map (String.concat Convertor.tab) (zip_with row_of leaves0 rels)).
Proof.
  induction leaves0 as [|leaf leaves0 IH]; intros [|r rels]; try reflexivity.
  cbn [map zip zip_with mapM item_of fst snd].
  rewrite (format_row_of leaf r). cbn [bind]. now rewrite IH.
Qed.

Lemma row_of_plain leaf (r : relation) :
  plain_leaf leaf = true ->
  plain r.1 = true ->
  plain (Convertor.str_of_pyval r.2) = true ->
  Forall (fun w => plain w = true) (row_of leaf r).
Proof.
  unfold plain_leaf. intros Hl H1 H2. apply andb_true_iff in Hl as [Hc Hv].
  unfold row_of. repeat constructor; assumption.
Qed.

Lemma valid_has_leaves t : valid t = true -> leaves t <> [].
Proof.
  induction t as [v|l ks IH] using tree_ind'; [discriminate|]. intros Hv.
  pose proof Hv as Hv'.
  apply valid_inv in Hv as [(s & ->)|(Hne & Hall & Hl)]; [discriminate|].
  rewrite Hl. destruct ks as [|k ks]; [contradiction|].
  inversion IH as [|? ? IHk _]; subst. simpl in Hall.
  apply andb_true_iff in Hall as [Hk _]. specialize (IHk Hk).
  simpl. destruct (leaves k); [contradiction|discriminate].
Qed.

(** X20. The text that [convert] returns for a tree of the data model
    whose heads are all resolved, and whose tokens and categories hold
    neither tab nor line end, reads back as a table: one line for each
    leaf, in order, then the end of the text; each line has ten columns,
    the index, the token, the category without its suffix and the head in
    the first, second, fifth and seventh; the eighth is [X] and the
    others are [_]. *)
Theorem output_is_a_table_of_ten_columns (head_rules : table) t :
  valid t = true ->
  resolves head_rules t = true ->
  forallb plain_leaf (leaves t) = true ->
  exists rows out,
    Convertor.__parse head_rules t = Ok rows /\
    Convertor.convert head_rules t = Ok out /\
    columns out
    = zip_with row_of (leaves t)
        (map (fun row : string * tree * string * pyval => (row.1.1.1, row.2)) rows)
      ++ [[EmptyString]].
Proof.
  intros Hv Hres Hplain.
  destruct (pipeline head_rules t Hv Hres)
    as (t1 & t2 & h & ar & rels & E1 & E2 & E3 & G & P & I).
  pose proof (pipeline_length _ _ I) as Hlen.
  pose proof (parse_rows _ _ _ _ _ _ E1 E2 E3) as Erows.
  eexists. eexists. split; [exact Erows|].
  unfold Convertor.convert. rewrite Erows. cbn [bind]. rewrite format_rows.
  cbn [bind]. split; [reflexivity|].
  assert (Hrels : map (fun row : string * tree * string * pyval => (row.1.1.1, row.2))
                    (map (fun x : (string * tree) * relation =>
                            (x.2.1, x.1.2, x.1.1, x.2.2))
                         (zip (map item_of (leaves t)) rels)) = rels).
  { rewrite map_map. cbn [fst snd].
    rewrite <- (snd_zip (map item_of (leaves t)) rels) at 2
      by (rewrite length_map; lia).
    apply map_ext. now intros [x [d p]]. }
  rewrite Hrels.
  set (tbl := zip_with row_of (leaves t) rels).
  assert (Htbl : Forall (fun row => row <> [] /\ Forall (fun w => plain w = true) row)
                        tbl).
  { unfold tbl. apply Forall_forall. intros row Hrow.
    apply elem_of_zip_with in Hrow as (leaf & r & -> & Hleaf & Hr).
    rewrite forallb_forall in Hplain. split; [discriminate|].
    apply row_of_plain; [apply Hplain; now apply list_elem_of_In| |].
    - rewrite P in Hr. apply elem_of_cons in Hr as [->|Hr]; [apply str_of_int_plain|].
      apply list_elem_of_fmap in Hr as (x & -> & _). apply str_of_int_plain.
    - rewrite P in Hr. apply elem_of_cons in Hr as [->|Hr]; [reflexivity|].
      apply list_elem_of_fmap in Hr as (x & -> & _). apply str_of_int_plain. }
  assert (Hne : tbl <> []).
  { unfold tbl. pose proof (valid_has_leaves t Hv).
    destruct (leaves t); [contradiction|]. destruct rels; [discriminate|discriminate]. }
  unfold columns.
  change (String.concat Convertor.newline (map (String.concat Convertor.tab) tbl)
          +:+ Convertor.newline)
    with (String.concat (String (ascii_of_nat 10) EmptyString)
            (map (String.concat Convertor.tab) tbl)
          +:+ String (ascii_of_nat 10) EmptyString).
  rewrite split_on_terminated.
  - rewrite map_app, map_map. f_equal.
    rewrite <- (map_id tbl) at 2. apply map_ext_Forall.
    eapply Forall_impl; [exact Htbl|]. intros row [Hrne Hrow]. simpl.
    apply (split_on_concat (ascii_of_nat 9)); [exact Hrne|].
    eapply Forall_impl; [exact Hrow|]. intros w Hw. now apply plain_spec in Hw.
  - destruct tbl; [contradiction|discriminate].
  - apply Forall_forall. intros line Hline.
    apply list_elem_of_fmap in Hline as (row & -> & Hrow).
    rewrite Forall_forall in Htbl. destruct (Htbl row Hrow) as [_ Hws].
    apply contains_concat; [reflexivity|].
    eapply Forall_impl; [exact Hws|]. intros w Hw. now apply plain_spec in Hw.
Qed.

(** ** The script *)

Section Script.
Variable fromstring : string -> result tree.
Variable head_rules : table.

Lemma append_empty s : s +:+ EmptyString = s.
Proof. induction s as [|a s IH]; [reflexivity|]. now rewrite append_cons, IH. Qed.

Lemma concat_empty_cons x l :
  String.concat EmptyString (x :: l) = x +:+ String.concat EmptyString l.
Proof. destruct l; [symmetry; apply append_empty|reflexivity]. Qed.

Lemma loop_step line lines out :
  Main.loop fromstring head_rules (line :: lines) out =
  match written fromstring head_rules line with
  | Ok s => Main.loop fromstring head_rules lines (out +:+ s)
  | Raise e => (out, Raise e)
  end.
Proof.
  unfold written. simpl. destruct (String.prefix "#" line); [reflexivity|].
  now destruct (Main.convert fromstring head_rules line).
Qed.

(** The lines that are written one after the other. *)
Lemma loop_written lines outs : forall out,
  Forall2 (fun line o => written fromstring head_rules line = Ok o) lines outs ->
  forall rest,
  Main.loop fromstring head_rules (lines ++ rest) out
  = Main.loop fromstring head_rules rest (out +:+ String.concat EmptyString outs).
Proof.
  intros out H. revert out.
  induction H as [|line o lines outs Hw _ IH]; intros out rest.
  - simpl. now rewrite append_empty.
  - rewrite <- app_comm_cons, loop_step, Hw, IH, concat_empty_cons.
    now rewrite append_assoc.
Qed.

End Script.

(** X21. The script converts each line by itself and writes the
    results in the order of the lines: when the rules load and every
    line is a comment or converts, [ctb.conll] holds, one after the
    other, each comment as it is and each conversion followed by a line
    end, and the run ends without an exception. *)
Theorem main_writes_the_lines_in_order fromstring rule_lines lines head_rules outs :
  _load_head_rules rule_lines = Ok head_rules ->
  Forall2 (fun line o => written fromstring head_rules line = Ok o) lines outs ->
  Main.main fromstring rule_lines lines
  = (Some (String.concat EmptyString outs), Ok tt).
Proof.
  intros Hload H. unfold Main.main. rewrite Hload.
  pose proof (loop_written fromstring head_rules lines outs EmptyString H []) as E.
  rewrite app_nil_r in E. rewrite E. reflexivity.
Qed.

(** X22. The script stops at the first line that does not convert:
    [ctb.conll] then holds what was written for the lines before it,
    nothing of the lines after it, and the run ends with the exception
    of that line. *)
Theorem main_stops_at_the_first_failure
    fromstring rule_lines head_rules pre line post outs e :
  _load_head_rules rule_lines = Ok head_rules ->
  Forall2 (fun l o => written fromstring head_rules l = Ok o) pre outs ->
  written fromstring head_rules line = Raise e ->
  Main.main fromstring rule_lines (pre ++ line :: post)
  = (Some (String.concat EmptyString outs), Raise e).
Proof.
  intros Hload H Hline. unfold Main.main. rewrite Hload.
  rewrite (loop_written fromstring head_rules pre outs EmptyString H).
  now rewrite loop_step, Hline.
Qed.

(** X23. Lines that start with ['#'] are copied and never read as
    trees: a file of such lines is written out as it is, whatever the
    rules that have been loaded and whatever the reader of trees does. *)
Theorem comment_lines_are_copied fromstring rule_lines lines head_rules :
  _load_head_rules rule_lines = Ok head_rules ->
  Forall (fun line => String.prefix "#" line = true) lines ->
  Main.main fromstring rule_lines lines
  = (Some (String.concat EmptyString lines), Ok tt).
Proof.
  intros Hload H. unfold Main.main. rewrite Hload.
  assert (Hw : Forall2 (fun line o => written fromstring head_rules line = Ok o)
                 lines lines).
  { induction H as [|line lines Hl _ IH]; constructor; [|exact IH].
    unfold written. now rewrite Hl. }
  pose proof (loop_written fromstring head_rules lines lines EmptyString Hw []) as E.
  rewrite app_nil_r in E. rewrite E. reflexivity.
Qed.

(** ** Labels that carry a head *)

Lemma split_head_label_clean index l :
  no_bar index -> split_on "|"%char (head_label index l) = index :: split_on "|"%char l.
Proof.
  intros H. unfold head_label.
  change ("|" +:+ l) with (String "|"%char l). now apply split_on_append.
Qed.

Lemma unpack_head_label index l :
  no_bar index -> no_bar l ->
  Convertor.unpack2 (split_on "|"%char (head_label index l)) = Ok (index, l).
Proof.
  intros Hi Hl. rewrite (split_head_label_clean _ _ Hi), (split_on_absent _ _ Hl).
  reflexivity.
Qed.

(** X24. A label [index|category] is read back as it was written: the
    index is what stands before the first ['|'], when the index holds no
    ['|'] itself; the unpacking into index and category succeeds exactly
    when the category holds no ['|'] either, and raises [ValueError]
    otherwise. *)
Theorem head_label_is_read_back index l :
  contains "|"%char index = false ->
  label_index (head_label index l) = Ok index /\
  (contains "|"%char l = false ->
   Convertor.unpack2 (split_on "|"%char (head_label index l)) = Ok (index, l)) /\
  (contains "|"%char l = true ->
   Convertor.unpack2 (split_on "|"%char (head_label index l)) = Raise ValueError).
Proof.
  intros Hi. split; [now apply label_index_head_label_clean|]. split.
  - now apply unpack_head_label.
  - intros Hl. rewrite (split_head_label_clean _ _ Hi).
    rewrite (split_on_before_after "|" l), Hl.
    pose proof (split_on_nonempty "|" (after "|" l)) as Hne.
    destruct (split_on "|" (after "|" l)); [contradiction|reflexivity].
Qed.

(** ** Rules that always find a head *)

Section Complete.
Import Convertor.
Variable head_rules : table.
Hypothesis Hlast : map_Forall (fun _ rules => has_last_rule rules = true) head_rules.

Lemma try_tags_total tgs sls pairs :
  mapM unpack2 sls = Ok pairs -> exists o, try_tags tgs sls = Ok o.
Proof.
  intros Hp. induction tgs as [|tg tgs IH]; simpl; [eauto|].
  rewrite Hp. cbn [bind]. destruct (bool_decide (tg ∈ map snd pairs)) eqn:D; [|exact IH].
  apply bool_decide_eq_true in D.
  destruct (next_index_found _ _ _ Hp D) as (index & ->). simpl. eauto.
Qed.

Lemma try_rules_total rules ks :
  Forall (fun k => is_tree k /\ is_ok (unpack2 (parts k)) = true) ks ->
  ks <> [] ->
  has_last_rule rules = true ->
  exists index, try_rules rules ks = Ok (Some index).
Proof.
  intros Hks Hne.
  assert (Htrees : Forall is_tree ks)
    by (eapply Forall_impl; [exact Hks|]; now intros k [? _]).
  induction rules as [|r rules IH]; [discriminate|]. intros Hl.
  cbn [try_rules]. rewrite (sub_labels_of_scan _ _ Htrees). cbn [bind].
  assert (Hscan : forall k, k ∈ scan (direction r) ks -> k ∈ ks).
  { intros k. unfold scan. destruct (String.eqb _ _); [|auto].
    intros Hk. apply list_elem_of_In, in_rev, list_elem_of_In. exact Hk. }
  destruct (tags r) as [|tg tgs] eqn:Et.
  - destruct (scan (direction r) ks) as [|c cs] eqn:Es.
    + exfalso. apply Hne. unfold scan in Es.
      destruct (String.eqb _ _); [|exact Es].
      apply (f_equal (@length tree)) in Es. rewrite length_rev in Es.
      now destruct ks.
    + cbn [map item0 bind]. rewrite Forall_forall in Htrees.
      assert (Hc : is_tree c) by (apply Htrees, Hscan; left).
      destruct c as [v|l kk]; [contradiction|]. cbn [parts].
      pose proof (split_on_nonempty "|" l) as Hl'.
      destruct (split_on "|" l); [contradiction|]. simpl. eauto.
  - assert (Hp : exists pairs, mapM unpack2 (map parts (scan (direction r) ks)) = Ok pairs).
    { apply mapM_total. apply Forall_forall. intros sl Hsl.
      apply list_elem_of_fmap in Hsl as (k & -> & Hk). apply Hscan in Hk.
      rewrite Forall_forall in Hks. destruct (Hks k Hk) as [_ Hu].
      destruct (unpack2 (parts k)); [eauto|discriminate]. }
    destruct Hp as (pairs & Hp).
    destruct (try_tags_total (tg :: tgs) _ _ Hp) as ([index|] & ->); cbn [bind];
      [eauto|].
    apply IH. unfold has_last_rule in *. simpl in Hl. rewrite Et in Hl.
    rewrite bool_decide_eq_false_2 in Hl by discriminate. exact Hl.
Qed.

Lemma select_head_total label ks :
  Forall (fun k => is_tree k /\ is_ok (unpack2 (parts k)) = true) ks ->
  ks <> [] ->
  exists index, select_head head_rules label ks = Ok (Some index).
Proof.
  intros Hks Hne. unfold select_head.
  destruct (head_rules !! label) as [rules|] eqn:E.
  - apply try_rules_total; [exact Hks|exact Hne|]. exact (Hlast _ _ E).
  - unfold item_last. destruct (last ks) as [c|] eqn:L.
    + rewrite last_lookup in L. apply list_elem_of_lookup_2 in L.
      rewrite Forall_forall in Hks. destruct (Hks c L) as [Hc _].
      destruct c as [v|l kk]; [contradiction|]. cbn [bind label_of].
      rewrite label_index_before. simpl. eauto.
    + apply last_None in L. contradiction.
Qed.

Lemma mark_complete :
  (forall i n t, numbered i n t ->
     Forall no_bar (labels t) ->
     resolved head_rules t = true /\
     exists index l ks',
       mark_heads_iterate head_rules t = Ok (Tree (head_label index l) ks') /\
       no_bar index /\ no_bar l) /\
  (forall i n ks, numbered_list i n ks ->
     Forall no_bar (flat_map labels ks) ->
     forallb (resolved head_rules) ks = true /\
     exists ks',
       mapM (mark_heads_iterate head_rules) ks = Ok ks' /\
       Forall (fun k => is_tree k /\ is_ok (unpack2 (parts k)) = true) ks').
Proof.
  apply numbered_mutind.
  - intros i l Hl. split; [reflexivity|].
    exists (str_of_int i), l, [Tok (PInt i)]. split; [reflexivity|].
    split; [apply str_of_int_no_bar|]. now inversion Hl.
  - intros i n l k ks Hks IH Hl. cbn [labels] in Hl.
    apply Forall_cons in Hl as [Hl Hrest].
    destruct (IH Hrest) as (Hres & ks' & Eks & Hall).
    assert (Hleaf : _is_leaf (Tree l (k :: ks)) = false).
    { inversion Hks as [|? ? ? ? ? Hk _]; subst.
      eapply node_not_leaf, numbered_height, Hk. }
    assert (Hne : ks' <> []).
    { apply mapM_length in Eks. destruct ks'; [discriminate|discriminate]. }
    destruct (select_head_total l ks' Hall Hne) as (index & Hsel).
    split.
    + rewrite resolved_eq, Hleaf, Hres, Eks, Hsel. reflexivity.
    + exists index, l, ks'. split; [now apply mark_node_selected|].
      split; [|exact Hl].
      destruct (select_head_child _ _ _ _ Hsel) as (c & _ & Hi).
      eapply head_index_clean, Hi.
  - intros i _. split; [reflexivity|]. exists []. split; [reflexivity|constructor].
  - intros i n m k ks _ IHk _ IHks Hl. cbn [flat_map] in Hl.
    apply Forall_app in Hl as [Hlk Hlks].
    destruct (IHk Hlk) as (Hrk & index & l & kk' & Ek & Hi & Hl').
    destruct (IHks Hlks) as (Hrks & ks' & Eks & Hall).
    split; [simpl; now rewrite Hrk, Hrks|].
    exists (Tree (head_label index l) kk' :: ks'). split.
    + simpl. now rewrite Ek, Eks.
    + constructor; [|exact Hall]. split; [exact I|].
      cbn [parts]. now rewrite unpack_head_label.
Qed.

End Complete.

Lemma contains_before c d s : contains c s = false -> contains c (before d s) = false.
Proof.
  induction s as [|a s IH]; simpl; [reflexivity|].
  intros H. apply orb_false_iff in H as [Ha Hs].
  destruct (Ascii.eqb a d); [reflexivity|]. simpl. now rewrite Ha, IH.
Qed.

Lemma preprosess_valid_labels t : forall i r,
  valid t = true ->
  preprosess_iterate t i = Ok r ->
  labels r.1 = map strip (labels t).
Proof.
  induction t as [v|l ks IH] using tree_ind'; intros i r Hv; [discriminate|].
  rewrite preprosess_iterate_eq, clean_strip. cbn [bind].
  apply valid_inv in Hv as [(s & ->)|(Hne & Hall & _)].
  - intros [= <-]. reflexivity.
  - rewrite (valid_node_not_leaf _ _ Hne Hall).
    intros H. apply bind_ok in H as (rs & Hloop & [= <-]). cbn [fst labels map].
    f_equal. clear Hne. revert i rs Hloop.
    induction IH as [|k ks Hk _ IHks]; intros i rs Hloop.
    + inversion Hloop. reflexivity.
    + rewrite preprosess_loop_cons in Hloop.
      apply bind_ok in Hloop as (rk & Ek & Hloop).
      apply bind_ok in Hloop as (rks & Eks & [= <-]).
      simpl in Hall. apply andb_true_iff in Hall as [Hvk Hvks].
      cbn [fst flat_map]. rewrite map_app.
      now rewrite (Hk _ _ Hvk Ek), (IHks Hvks _ _ Eks).
Qed.

(** X25. When every line of the rules holds a rule without tags, the
    conversion of a tree of the data model whose labels hold no ['|']
    finds a head for every phrase and returns its text: nothing is
    raised. A table without any line is such a table. *)
Theorem rules_with_a_last_rule_convert_every_tree (head_rules : table) t :
  map_Forall (fun _ rules => has_last_rule rules = true) head_rules ->
  valid t = true ->
  Forall no_bar (labels t) ->
  resolves head_rules t = true /\
  is_ok (Convertor.convert head_rules t) = true.
Proof.
  intros Hlast Hv Hl.
  assert (Hres : resolves head_rules t = true).
  { destruct (preprosess_valid t Hv 1) as (t1 & E1 & N1 & _).
    unfold resolves, _preprosess. rewrite E1. cbn [fst].
    apply (proj1 (mark_complete head_rules Hlast) _ _ _ N1).
    pose proof (preprosess_valid_labels t 1 _ Hv E1) as El. cbn [fst] in El.
    rewrite El. apply Forall_fmap. eapply Forall_impl; [exact Hl|].
    intros l Hnb. now apply contains_before. }
  split; [exact Hres|].
  destruct (pipeline head_rules t Hv Hres)
    as (t1 & t2 & h & ar & rels & E1 & E2 & E3 & _).
  unfold Convertor.convert.
  rewrite (parse_rows _ _ _ _ _ _ E1 E2 E3). cbn [bind]. now rewrite format_rows.
Qed.

(** * Instances *)

Lemma one_relation_per_leaf_witness :
  valid dog_barks = true /\
  resolves dog_rules dog_barks = true /\
  exists t1 seqs t2 rels rows,
    _preprosess dog_barks = Ok (t1, seqs) /\
    Convertor.__mark_heads dog_rules t1 = Ok t2 /\
    _get_relations t2 = Ok rels /\
    length rels = length (leaves dog_barks) /\
    map fst rels = map str_of_int (seq 1 (length (leaves dog_barks))) /\
    Convertor.__parse dog_rules dog_barks = Ok rows /\
    map (fun row : string * tree * string * pyval => row.1.1.1) rows
      = map str_of_int (seq 1 (length (leaves dog_barks))).
Proof.
  split; [reflexivity|]. split; [vm_compute; reflexivity|].
  apply (proj1 one_relation_per_leaf dog_rules dog_barks);
    [reflexivity|vm_compute; reflexivity].
Defined.


Lemma fallback_selects_last_child_witness :
  let ks := [Tree "A" [Tok (PInt 1)]; Tree "B" [Tok (PInt 2)]] in
  let ks' := [Tree "1|A" [Tok (PInt 1)]; Tree "2|B" [Tok (PInt 2)]] in
  let c := Tree "2|B" [Tok (PInt 2)] in
  _is_leaf (Tree "X" ks) = false /\
  mapM (Convertor.mark_heads_iterate dog_rules) ks = Ok ks' /\
  dog_rules !! "X" = None /\
  last ks' = Some c /\
  exists index,
    head_index c = Ok index /\
    Convertor.mark_heads_iterate dog_rules (Tree "X" ks)
      = Ok (Tree (head_label index "X") ks') /\
    head_index (Tree (head_label index "X") ks') = Ok index.
Proof.
  intros ks ks' c.
  split; [reflexivity|]. split; [reflexivity|]. split; [reflexivity|].
  split; [reflexivity|].
  apply (fallback_selects_last_child dog_rules "X" ks ks' c); reflexivity.
Defined.

Lemma empty_tags_select_extreme_child_witness :
  let rules : table := {[ "S" := [Rule "l" ["X"]; Rule "r" []; Rule "l" []] ]} in
  let ks := [Tree "A" [Tok (PInt 1)]; Tree "B" [Tok (PInt 2)]] in
  let ks' := [Tree "1|A" [Tok (PInt 1)]; Tree "2|B" [Tok (PInt 2)]] in
  let c := Tree "2|B" [Tok (PInt 2)] in
  _is_leaf (Tree "S" ks) = false /\
  mapM (Convertor.mark_heads_iterate rules) ks = Ok ks' /\
  rules !! "S" = Some ([Rule "l" ["X"]] ++ Rule "r" [] :: [Rule "l" []]) /\
  Convertor.try_rules [Rule "l" ["X"]] ks' = Ok None /\
  tags (Rule "r" []) = [] /\
  (if String.eqb (direction (Rule "r" [])) "r" then last ks' else head ks') = Some c /\
  exists index,
    head_index c = Ok index /\
    Convertor.mark_heads_iterate rules (Tree "S" ks)
      = Ok (Tree (head_label index "S") ks') /\
    head_index (Tree (head_label index "S") ks') = Ok index.
Proof.
  intros rules ks ks' c.
  split; [reflexivity|]. split; [reflexivity|]. split; [reflexivity|].
  split; [reflexivity|]. split; [reflexivity|]. split; [reflexivity|].
  apply (proj1 (empty_tags_select_extreme_child rules)
           "S" ks ks' [Rule "l" ["X"]] (Rule "r" []) [Rule "l" []] c);
    reflexivity.
Defined.


Lemma preprosess_numbers_leaves_witness :
  valid dog_barks = true /\
  exists t1,
    _preprosess dog_barks = Ok (t1, map item_of (leaves dog_barks)) /\
    shape t1 = shape dog_barks /\
    map snd (leaves t1) = map PInt (seq 1 (length (leaves dog_barks))).
Proof.
  split; [reflexivity|]. apply (preprosess_numbers_leaves dog_barks). reflexivity.
Defined.

Lemma load_head_rules_spec_witness :
  let lines := ["S: l VP"; "VP l VBZ"] in
  "VP l VBZ" ∈ lines /\
  contains ":" "VP l VBZ" = false /\
  is_ok (_load_head_rules lines) = false /\
  exists rules,
    _load_head_rules ["S: l X"; "VP: l VBZ; r"; "S: l VP"] = Ok rules /\
    rules !! "S"
    = line_rules <$> last (filter (fun l => line_tag l = "S")
                                  ["S: l X"; "VP: l VBZ; r"; "S: l VP"]).
Proof.
  intros lines.
  assert (Hin : "VP l VBZ" ∈ lines) by (right; left).
  split; [exact Hin|]. split; [reflexivity|]. split.
  - apply (proj1 (proj2 (load_head_rules_spec lines)) "VP l VBZ" Hin). reflexivity.
  - eexists. split; [reflexivity|].
    apply (proj2 (proj2 (load_head_rules_spec ["S: l X"; "VP: l VBZ; r"; "S: l VP"]))).
    reflexivity.
Defined.

Lemma only_r_scans_right_to_left_witness :
  let rules : table := {[ "S" := [Rule "right" ["B"]] ]} in
  let ks := [Tree "B" [Tok (PInt 1)]; Tree "A" [Tok (PInt 2)]; Tree "B" [Tok (PInt 3)]] in
  let c := Tree "1|B" [Tok (PInt 1)] in
  let cpost := [Tree "2|A" [Tok (PInt 2)]; Tree "3|B" [Tok (PInt 3)]] in
  direction (Rule "right" ["B"]) <> "r" /\
  _is_leaf (Tree "S" ks) = false /\
  mapM (Convertor.mark_heads_iterate rules) ks = Ok (c :: cpost) /\
  Forall (fun k => is_ok (category k) = true) (c :: cpost) /\
  rules !! "S" = Some ([] ++ Rule "right" ["B"] :: []) /\
  Convertor.try_rules [] (c :: cpost) = Ok None /\
  tags (Rule "right" ["B"]) = [] ++ "B" :: [] /\
  category c = Ok "B" /\
  exists index,
    head_index c = Ok index /\
    Convertor.mark_heads_iterate rules (Tree "S" ks)
      = Ok (Tree (head_label index "S") (c :: cpost)).
Proof.
  intros rules ks c cpost.
  assert (Hd : direction (Rule "right" ["B"]) <> "r") by discriminate.
  assert (Hcat : Forall (fun k => is_ok (category k) = true) (c :: cpost))
    by (repeat constructor).
  assert (Htpre : forall t k, t ∈ @nil string -> k ∈ c :: cpost -> category k <> Ok t).
  { intros t k Ht. inversion Ht. }
  assert (Hcpre : forall k, k ∈ @nil tree -> category k <> Ok "B").
  { intros k Hk. inversion Hk. }
  split; [exact Hd|]. split; [reflexivity|]. split; [reflexivity|].
  split; [exact Hcat|]. split; [reflexivity|]. split; [reflexivity|].
  split; [reflexivity|]. split; [reflexivity|].
  exact (proj1 only_r_scans_right_to_left rules "S" ks (c :: cpost)
           [] (Rule "right" ["B"]) [] [] "B" [] [] c cpost
           Hd eq_refl eq_refl Hcat eq_refl eq_refl eq_refl Htpre eq_refl eq_refl Hcpre).
Defined.

Lemma conversion_leaves_input_unchanged_witness :
  let s0 := (Store.build dog_barks []).1 in
  2 < length s0 /\
  (Store.__parse dog_rules 5 4 s0).1 !! 2 = s0 !! 2 /\
  s0 !! 2 = Some (Store.Object "VBZ" [Store.Val (PStr "barks")] (Some 3)) /\
  full dog_barks = true /\
  height dog_barks < 5 /\
  exists s1 a,
    Store.build dog_barks [] = (s1, Store.Return (Store.Ref a)) /\
    (Store.__parse dog_rules 5 a s1).2 = outcome_of (parse_values dog_rules dog_barks) /\
    take (length s1) (Store.__parse dog_rules 5 a s1).1 = s1.
Proof.
  intros s0.
  assert (H : 2 < length s0) by (vm_compute; lia).
  assert (H5 : height dog_barks < 5) by (vm_compute; lia).
  split; [exact H|]. split; [|split; [reflexivity|split; [reflexivity|split; [exact H5|]]]].
  - apply (proj1 conversion_leaves_input_unchanged dog_rules 5 4 s0 2 H).
  - apply (proj2 (proj2 (proj2 conversion_leaves_input_unchanged)) dog_rules
             "S" _ [] 5); [reflexivity|exact H5].
Defined.

(** * Instances of the further properties *)

Lemma loaded_rules_are_words_witness :
  let lines := ["S: l VP" +:+ ideographic_space +:+ "NP; r"] in
  let rs := [Rule "l" ["VP"; "NP"]; Rule "r" []] in
  exists rules : table,
    _load_head_rules lines = Ok rules /\
    rules !! "S" = Some rs /\
    rs <> [] /\
    Forall (fun r => word (direction r) = true /\
                     Forall (fun tg => word tg = true) (tags r)) rs.
Proof.
  intros lines rs. eexists. split; [reflexivity|].
  assert (H : forall rules : table,
            _load_head_rules lines = Ok rules -> rules !! "S" = Some rs ->
            rules !! "S" = Some rs /\ rs <> [] /\
            Forall (fun r => word (direction r) = true /\
                             Forall (fun tg => word tg = true) (tags r)) rs).
  { intros rules H1 H2. split; [exact H2|].
    exact (loaded_rules_are_words lines rules "S" rs H1 H2). }
  apply H; [reflexivity|vm_compute; reflexivity].
Defined.

Lemma preprosess_fails_on_mixed_children_witness :
  let t := Tree "S" [Tok (PStr "a"); Tree "B" [Tok (PStr "b")]] in
  segregated t = false /\
  _preprosess t = Raise AttributeError /\
  AttributeError = AttributeError.
Proof.
  intros t. split; [reflexivity|]. split; [reflexivity|].
  apply (proj2 (preprosess_fails_on_mixed_children t) AttributeError). reflexivity.
Defined.

Lemma preprosess_leaves_no_dash_witness :
  let t1 := Tree "S" [Tree "NP" [Tree "NN" [Tok (PInt 1)]];
                      Tree "VP" [Tree "VBZ" [Tok (PInt 2)]]] in
  let seqs := [("NN", Tok (PStr "dog")); ("VBZ", Tok (PStr "barks"))] in
  full dog_barks = true /\
  _preprosess dog_barks = Ok (t1, seqs) /\
  Forall (fun l => contains "-" l = false) (labels t1) /\
  Forall (fun x : string * tree => contains "-" x.1 = false) seqs.
Proof.
  intros t1 seqs. split; [reflexivity|]. split; [reflexivity|].
  apply (preprosess_leaves_no_dash dog_barks t1 seqs); reflexivity.
Defined.

Lemma mark_heads_only_prefixes_labels_witness :
  let t := Tree "S" [Tree "NP" [Tree "NN" [Tok (PInt 1)]];
                     Tree "VP" [Tree "VBZ" [Tok (PInt 2)]]] in
  let t' := Tree "2|S" [Tree "1|NP" [Tree "1|NN" [Tok (PInt 1)]];
                        Tree "2|VP" [Tree "2|VBZ" [Tok (PInt 2)]]] in
  Convertor.__mark_heads dog_rules t = Ok t' /\ prefixed t t'.
Proof.
  intros t t'.
  assert (H : Convertor.__mark_heads dog_rules t = Ok t') by (vm_compute; reflexivity).
  split; [exact H|]. exact (mark_heads_only_prefixes_labels dog_rules t t' H).
Defined.

Lemma head_is_the_head_of_a_child_witness :
  let ks := [Tree "NP" [Tree "NN" [Tok (PInt 1)]];
             Tree "VP" [Tree "VBZ" [Tok (PInt 2)]]] in
  let ks2 := [Tree "1|NP" [Tree "1|NN" [Tok (PInt 1)]];
              Tree "2|VP" [Tree "2|VBZ" [Tok (PInt 2)]]] in
  _is_leaf (Tree "S" ks) = false /\
  Convertor.mark_heads_iterate dog_rules (Tree "S" ks) = Ok (Tree "2|S" ks2) /\
  exists ks',
    mapM (Convertor.mark_heads_iterate dog_rules) ks = Ok ks' /\
    (Tree "2|S" ks2 = Tree "S" ks' \/
     exists c index,
       c ∈ ks' /\ head_index c = Ok index /\
       Tree "2|S" ks2 = Tree (head_label index "S") ks' /\
       head_index (Tree "2|S" ks2) = Ok index).
Proof.
  intros ks ks2.
  assert (H : Convertor.mark_heads_iterate dog_rules (Tree "S" ks) = Ok (Tree "2|S" ks2))
    by (vm_compute; reflexivity).
  split; [reflexivity|]. split; [exact H|].
  exact (head_is_the_head_of_a_child dog_rules "S" ks (Tree "2|S" ks2) eq_refl H).
Defined.

Lemma rule_with_tags_needs_two_part_labels_witness :
  let rules : table := {[ "S" := [Rule "l" ["B"]] ]} in
  let c := Tree "X" [Tree "1|A" [Tok (PInt 1)]] in
  let ks := [c; Tree "2|B" [Tok (PInt 2)]] in
  rules !! "S" = Some [Rule "l" ["B"]] /\
  tags (Rule "l" ["B"]) <> [] /\
  Forall is_tree ks /\
  c ∈ ks /\
  length (parts c) <> 2 /\
  Convertor.select_head rules "S" ks = Raise ValueError.
Proof.
  intros rules c ks.
  assert (H1 : rules !! "S" = Some [Rule "l" ["B"]]) by reflexivity.
  assert (H2 : tags (Rule "l" ["B"]) <> []) by discriminate.
  assert (H3 : Forall is_tree ks) by (repeat constructor).
  assert (H4 : c ∈ ks) by left.
  assert (H5 : length (parts c) <> 2) by (simpl; lia).
  repeat (split; [assumption|]).
  exact (rule_with_tags_needs_two_part_labels rules "S" (Rule "l" ["B"]) [] ks c
           H1 H2 H3 H4 H5).
Defined.

Lemma index_error_needs_an_empty_bracket_witness :
  let rules : table := {[ "S" := [Rule "l" ["C"]] ]} in
  let t := Tree "S" [Tree "A" [Tok (PStr "x")]; Tree "B" [Tok (PStr "y")]] in
  full t = true /\
  Convertor.convert rules t = Raise ValueError /\
  (ValueError = AttributeError \/ ValueError = ValueError).
Proof.
  intros rules t.
  assert (H : Convertor.convert rules t = Raise ValueError) by (vm_compute; reflexivity).
  split; [reflexivity|]. split; [exact H|].
  exact (index_error_needs_an_empty_bracket rules t ValueError eq_refl H).
Defined.

Lemma data_model_raises_value_error_only_witness :
  let rules : table := {[ "X" := [Rule "l" ["C"]]; "S" := [Rule "l" ["B"]] ]} in
  let t := Tree "S" [Tree "X" [Tree "A" [Tok (PStr "x")]]; Tree "B" [Tok (PStr "y")]] in
  valid t = true /\
  Convertor.convert rules t = Raise ValueError /\
  ValueError = ValueError.
Proof.
  intros rules t.
  assert (H : Convertor.convert rules t = Raise ValueError) by (vm_compute; reflexivity).
  split; [reflexivity|]. split; [exact H|].
  exact (data_model_raises_value_error_only rules t ValueError eq_refl H).
Defined.

Lemma relations_are_sorted_by_number_witness :
  let t := Tree "10|S" [Tree "9|A" [Tok (PInt 9)]; Tree "10|B" [Tok (PInt 10)]] in
  let rels := [("9", PStr "10"); ("10", PInt 0)] in
  _get_relations t = Ok rels /\
  exists yielded keys,
    get_relations_iterate true t = Ok yielded /\
    rels ≡ₚ yielded /\
    mapM (fun r : relation => int_of_str r.1) rels = Ok keys /\
    Sorted le keys.
Proof.
  intros t rels.
  assert (H : _get_relations t = Ok rels) by (vm_compute; reflexivity).
  split; [exact H|]. exact (relations_are_sorted_by_number t rels H).
Defined.

Lemma one_relation_to_the_root_witness :
  let t := Tree "2|S" [Tree "1|A" [Tok (PInt 1)]; Tree "2|B" [Tok (PInt 2)]] in
  let rels := [("1", PStr "2"); ("2", PInt 0)] in
  _get_relations t = Ok rels /\
  exists index,
    head_index t = Ok index /\
    filter (fun r : relation => is_int r.2 = true) rels = [(index, PInt 0)].
Proof.
  intros t rels.
  assert (H : _get_relations t = Ok rels) by (vm_compute; reflexivity).
  split; [exact H|]. exact (one_relation_to_the_root t rels H).
Defined.

Lemma rows_carry_categories_and_tokens_witness :
  valid dog_barks = true /\
  resolves dog_rules dog_barks = true /\
  exists rows,
    Convertor.__parse dog_rules dog_barks = Ok rows /\
    map (fun row : string * tree * string * pyval => (row.1.2, row.1.1.2)) rows
    = map item_of (leaves dog_barks).
Proof.
  assert (H : resolves dog_rules dog_barks = true) by (vm_compute; reflexivity).
  split; [reflexivity|]. split; [exact H|].
  exact (rows_carry_categories_and_tokens dog_rules dog_barks eq_refl H).
Defined.

Lemma every_head_is_another_word_witness :
  valid dog_barks = true /\
  resolves dog_rules dog_barks = true /\
  exists rows,
    Convertor.__parse dog_rules dog_barks = Ok rows /\
    Forall (fun row : string * tree * string * pyval =>
              row.2 = PInt 0 \/
              exists p, row.2 = PStr (str_of_int p) /\
                        1 <= p <= length (leaves dog_barks) /\
                        str_of_int p <> row.1.1.1) rows.
Proof.
  assert (H : resolves dog_rules dog_barks = true) by (vm_compute; reflexivity).
  split; [reflexivity|]. split; [exact H|].
  exact (every_head_is_another_word dog_rules dog_barks eq_refl H).
Defined.

Lemma dependencies_are_projective_witness :
  let t := Tree "S" [Tree "A" [Tok (PStr "x")]; Tree "B" [Tok (PStr "y")];
                     Tree "C" [Tok (PStr "z")]] in
  let rules : table := {[ "S" := [Rule "l" ["A"]] ]} in
  valid t = true /\
  resolves rules t = true /\
  exists t1 seqs t2 rels,
    _preprosess t = Ok (t1, seqs) /\
    Convertor.__mark_heads rules t1 = Ok t2 /\
    _get_relations t2 = Ok rels /\
    forall d p k,
      (str_of_int d, PStr (str_of_int p)) ∈ rels ->
      between d p k ->
      exists path,
        chain rels (length (leaves t)) (str_of_int k) = Some path /\
        str_of_int p ∈ path.
Proof.
  intros t rules.
  assert (H : resolves rules t = true) by (vm_compute; reflexivity).
  split; [reflexivity|]. split; [exact H|].
  exact (dependencies_are_projective rules t eq_refl H).
Defined.

Lemma output_is_a_table_of_ten_columns_witness :
  valid dog_barks = true /\
  resolves dog_rules dog_barks = true /\
  forallb plain_leaf (leaves dog_barks) = true /\
  exists rows out,
    Convertor.__parse dog_rules dog_barks = Ok rows /\
    Convertor.convert dog_rules dog_barks = Ok out /\
    columns out
    = zip_with row_of (leaves dog_barks)
        (map (fun row : string * tree * string * pyval => (row.1.1.1, row.2)) rows)
      ++ [[EmptyString]].
Proof.
  assert (H : resolves dog_rules dog_barks = true) by (vm_compute; reflexivity).
  split; [reflexivity|]. split; [exact H|]. split; [reflexivity|].
  exact (output_is_a_table_of_ten_columns dog_rules dog_barks eq_refl H eq_refl).
Defined.

Lemma main_writes_the_lines_in_order_witness :
  let fromstring := fun _ : string => Ok (Tree "NN" [Tok (PStr "dog")]) in
  let lines := ["# one"; "(NN dog)"] in
  let outs := ["# one";
               String.concat Convertor.tab
                 ["1"; "dog"; "_"; "_"; "NN"; "_"; "0"; "X"; "_"; "_"]
               +:+ Convertor.newline +:+ Convertor.newline] in
  _load_head_rules [] = Ok ∅ /\
  Forall2 (fun line o => written fromstring ∅ line = Ok o) lines outs /\
  Main.main fromstring [] lines = (Some (String.concat EmptyString outs), Ok tt).
Proof.
  intros fromstring lines outs.
  assert (H : Forall2 (fun line o => written fromstring ∅ line = Ok o) lines outs)
    by (repeat constructor).
  split; [reflexivity|]. split; [exact H|].
  exact (main_writes_the_lines_in_order fromstring [] lines ∅ outs eq_refl H).
Defined.

Lemma main_stops_at_the_first_failure_witness :
  let fromstring := fun _ : string => @Raise tree ValueError in
  _load_head_rules [] = Ok ∅ /\
  Forall2 (fun l o => written fromstring ∅ l = Ok o) ["# one"] ["# one"] /\
  written fromstring ∅ "(NN" = Raise ValueError /\
  Main.main fromstring [] (["# one"] ++ "(NN" :: ["# two"])
  = (Some (String.concat EmptyString ["# one"]), Raise ValueError).
Proof.
  intros fromstring.
  assert (H : Forall2 (fun l o => written fromstring ∅ l = Ok o) ["# one"] ["# one"])
    by (repeat constructor).
  split; [reflexivity|]. split; [exact H|]. split; [reflexivity|].
  exact (main_stops_at_the_first_failure fromstring [] ∅ ["# one"] "(NN" ["# two"]
           ["# one"] ValueError eq_refl H eq_refl).
Defined.

Lemma comment_lines_are_copied_witness :
  let fromstring := fun _ : string => @Raise tree ValueError in
  let lines := ["# one"; "# two"] in
  _load_head_rules ["S: l VP"] = Ok {[ "S" := [Rule "l" ["VP"]] ]} /\
  Forall (fun line => String.prefix "#" line = true) lines /\
  Main.main fromstring ["S: l VP"] lines
  = (Some (String.concat EmptyString lines), Ok tt).
Proof.
  intros fromstring lines.
  assert (H1 : _load_head_rules ["S: l VP"] = Ok {[ "S" := [Rule "l" ["VP"]] ]})
    by (vm_compute; reflexivity).
  assert (H2 : Forall (fun line => String.prefix "#" line = true) lines)
    by (repeat constructor).
  split; [exact H1|]. split; [exact H2|].
  exact (comment_lines_are_copied fromstring ["S: l VP"] lines _ H1 H2).
Defined.

Lemma head_label_is_read_back_witness :
  contains "|"%char "12" = false /\
  label_index (head_label "12" "NP") = Ok "12" /\
  (contains "|"%char "NP" = false ->
   Convertor.unpack2 (split_on "|"%char (head_label "12" "NP")) = Ok ("12", "NP")) /\
  (contains "|"%char "NP" = true ->
   Convertor.unpack2 (split_on "|"%char (head_label "12" "NP")) = Raise ValueError).
Proof.
  split; [reflexivity|]. exact (head_label_is_read_back "12" "NP" eq_refl).
Defined.

Lemma rules_with_a_last_rule_convert_every_tree_witness :
  let rules : table := {[ "S" := [Rule "l" ["X"]; Rule "r" []] ]} in
  map_Forall (fun _ rs => has_last_rule rs = true) rules /\
  valid dog_barks = true /\
  Forall no_bar (labels dog_barks) /\
  resolves rules dog_barks = true /\
  is_ok (Convertor.convert rules dog_barks) = true.
Proof.
  intros rules.
  assert (H1 : map_Forall (fun _ rs => has_last_rule rs = true) rules)
    by (apply map_Forall_singleton; reflexivity).
  assert (H2 : Forall no_bar (labels dog_barks)) by (repeat constructor).
  split; [exact H1|]. split; [reflexivity|]. split; [exact H2|].
  exact (rules_with_a_last_rule_convert_every_tree rules dog_barks H1 eq_refl H2).
Defined.
